(** * Mem3DG, [analytical_area_penalty1.2.2/Problem.py]: energy model

    A shallow embedding of class [problem]: the bending energy, the
    area penalty, the pressure force, their gradients and the
    quasi-Newton Hessian update, together with the properties of these
    evaluators.

    Scalars are real numbers (the idealisation of float64 under which
    the documented formulas are stated).  An evaluator returns
    [option]: [None] stands for a call that does not deliver real
    values, either because Python raises (shape mismatch, index out of
    range) or because a division by zero or a square root of a
    negative number makes the numeric result non-finite. *)

From Stdlib Require Import Reals Lra Lia List Arith Bool.
Import ListNotations.
Open Scope R_scope.

(** ** Error monad *)

Definition bind {A B : Type} (m : option A) (k : A -> option B) : option B :=
  match m with
  | Some a => k a
  | None => None
  end.

Notation "x <- m ;; k" := (bind m (fun x => k))
  (at level 61, m at next level, right associativity).
Notation "' p <- m ;; k" := (bind m (fun p => k))
  (at level 61, p pattern, m at next level, right associativity).

Fixpoint mapM {A B : Type} (f : A -> option B) (l : list A) : option (list B) :=
  match l with
  | [] => Some []
  | a :: l' => b <- f a ;; bs <- mapM f l' ;; Some (b :: bs)
  end.

(** ** Scalars *)

(** [a / b] on floats: a zero divisor gives no real value. *)
Definition safe_div (a b : R) : option R :=
  if Req_dec_T b 0 then None else Some (a / b).

(** The test [a / b < 0] on floats.  numpy does not raise on a zero
    divisor: the quotient is then not a number when [a] is zero, and
    an infinity with the sign of [a] otherwise (the divisors of the
    program are products of norms, so a zero divisor is the float
    +0), and the comparison with 0 is decided all the same. *)
Definition quotient_negative (a b : R) : bool :=
  match safe_div a b with
  | Some q => if Rlt_dec q 0 then true else false
  | None => if Rlt_dec a 0 then true else false
  end.

(** [np.sqrt] on a float: a negative argument gives no real value. *)
Definition np_sqrt (a : R) : option R :=
  if Rlt_dec a 0 then None else Some (sqrt a).

(** ** One-dimensional arrays *)

Abbreviation vec := (list R) (only parsing).

Fixpoint zip_with {A B C : Type} (f : A -> B -> C) (a : list A) (b : list B) : list C :=
  match a, b with
  | x :: a', y :: b' => f x y :: zip_with f a' b'
  | _, _ => []
  end.

(** Element-wise operation on two arrays of one shape; unequal lengths
    raise.  (Broadcasting against an array of size 1 is not modelled:
    every array here has size F, V or 3V of one mesh.) *)
Definition np_binop {A : Type} (f : A -> A -> A) (a b : list A) : option (list A) :=
  if Nat.eqb (length a) (length b) then Some (zip_with f a b) else None.

Definition np_add : vec -> vec -> option vec := np_binop Rplus.
Definition np_sub : vec -> vec -> option vec := np_binop Rminus.

Definition scale (c : R) (a : vec) : vec := map (Rmult c) a.

(** [a / d] for an array [a] and a scalar [d]. *)
Definition np_div_scalar (a : vec) (d : R) : option vec :=
  mapM (fun r => safe_div r d) a.

(** [a / b] element-wise. *)
Definition np_div (a b : vec) : option vec :=
  if Nat.eqb (length a) (length b)
  then mapM (fun p => safe_div (fst p) (snd p)) (combine a b)
  else None.

Definition sum (a : vec) : R := fold_right Rplus 0 a.

(** [np.inner] / [np.dot] of two arrays of one length. *)
Definition dot (a b : vec) : R := sum (zip_with Rmult a b).

Definition np_inner (a b : vec) : option R :=
  if Nat.eqb (length a) (length b) then Some (dot a b) else None.

(** [np.linalg.norm] of a one-dimensional array. *)
Definition norm (a : vec) : R := sqrt (dot a a).

Definition np_zeros (n : nat) : vec := repeat 0 n.

(** ** Two-dimensional arrays and matrices, as lists of rows

    [scipy.sparse] matrices, [np.matrix] and two-dimensional
    [ndarray]s share this carrier; what differs is the meaning of
    Python's [*]: a matrix product for the first two, an element-wise
    product for [ndarray].  Each has its own operation below.  A
    matrix without rows is read as 0 x 0 (all matrices of the program
    are V x V or 3V x 3V). *)

Abbreviation mat := (list (list R)) (only parsing).

Definition ncols (A : mat) : nat :=
  match A with
  | [] => 0%nat
  | r :: _ => length r
  end.

Definition has_shape (m n : nat) (A : mat) : bool :=
  Nat.eqb (length A) m && forallb (fun r => Nat.eqb (length r) n) A.

Definition col (A : mat) (j : nat) : vec := map (fun r => nth j r 0) A.

(** [A.T] and [scipy.sparse.spmatrix.transpose(A)]. *)
Definition transpose (A : mat) : mat := map (col A) (seq 0 (ncols A)).

(** Matrix product of [scipy.sparse] matrices: [A * B]. *)
Definition sp_mul (A B : mat) : option mat :=
  if has_shape (length A) (length B) A && has_shape (length B) (ncols B) B
  then Some (map (fun r => map (fun j => dot r (col B j)) (seq 0 (ncols B))) A)
  else None.

(** Sparse matrix times one-dimensional array: [A * x]. *)
Definition sp_matvec (A : mat) (x : vec) : option vec :=
  if has_shape (length A) (length x) A && Nat.eqb (ncols A) (length x)
  then Some (map (fun r => dot r x) A)
  else None.

(** [np.matrix(x) * A]: the 1 x N matrix of [x] times an N x M matrix. *)
Definition row_times_mat (x : vec) (A : mat) : option vec :=
  if Nat.eqb (length x) (length A) && has_shape (length A) (ncols A) A
  then Some (map (fun j => dot x (col A j)) (seq 0 (ncols A)))
  else None.

(** [r * np.matrix(x).T]: a 1 x N matrix times the N x 1 matrix of
    [x], then [np.asscalar] of the 1 x 1 result. *)
Definition row_times_col (r x : vec) : option R := np_inner r x.

(** [np.eye(n)]. *)
Definition np_eye (n : nat) : mat :=
  map (fun i => map (fun j => if Nat.eqb i j then 1 else 0) (seq 0 n)) (seq 0 n).

(** [np.outer(a, b)]. *)
Definition np_outer (a b : vec) : mat :=
  map (fun ai => map (fun bj => ai * bj) b) a.

(** Element-wise operation on two [ndarray]s of one shape. *)
Definition nd_binop (f : R -> R -> R) (A B : mat) : option mat :=
  if has_shape (length A) (ncols A) A && has_shape (length A) (ncols A) B
  then Some (zip_with (zip_with f) A B)
  else None.

Definition nd_add : mat -> mat -> option mat := nd_binop Rplus.
Definition nd_sub : mat -> mat -> option mat := nd_binop Rminus.
(** [A * B] on [ndarray]s: the element-wise (Hadamard) product. *)
Definition nd_mul : mat -> mat -> option mat := nd_binop Rmult.

(** [A / d] for a two-dimensional array and a scalar. *)
Definition nd_div_scalar (A : mat) (d : R) : option mat :=
  mapM (fun r => np_div_scalar r d) A.

(** [scipy.sparse.block_diag((B, B, B))]. *)
Definition block_diag3 (B : mat) : mat :=
  let n := ncols B in
  map (fun r => r ++ np_zeros n ++ np_zeros n) B ++
  map (fun r => np_zeros n ++ r ++ np_zeros n) B ++
  map (fun r => np_zeros n ++ np_zeros n ++ r) B.

(** ** Points and the V x 3 vertex array *)

Abbreviation vec3 := (R * R * R)%type (only parsing).

Definition sub3 (a b : vec3) : vec3 :=
  let '(a0, a1, a2) := a in let '(b0, b1, b2) := b in (a0 - b0, a1 - b1, a2 - b2).
Definition add3 (a b : vec3) : vec3 :=
  let '(a0, a1, a2) := a in let '(b0, b1, b2) := b in (a0 + b0, a1 + b1, a2 + b2).
Definition scale3 (c : R) (a : vec3) : vec3 :=
  let '(a0, a1, a2) := a in (c * a0, c * a1, c * a2).
Definition neg3 (a : vec3) : vec3 :=
  let '(a0, a1, a2) := a in (- a0, - a1, - a2).
Definition dot3 (a b : vec3) : R :=
  let '(a0, a1, a2) := a in let '(b0, b1, b2) := b in a0 * b0 + a1 * b1 + a2 * b2.
(** [np.cross]. *)
Definition cross3 (a b : vec3) : vec3 :=
  let '(a0, a1, a2) := a in let '(b0, b1, b2) := b in
  (a1 * b2 - a2 * b1, a2 * b0 - a0 * b2, a0 * b1 - a1 * b0).
Definition norm3 (a : vec3) : R := sqrt (dot3 a a).
Definition div3 (a : vec3) (d : R) : option vec3 :=
  let '(a0, a1, a2) := a in
  q0 <- safe_div a0 d ;; q1 <- safe_div a1 d ;; q2 <- safe_div a2 d ;; Some (q0, q1, q2).
Definition zero3 : vec3 := (0, 0, 0).

Definition zip3 (c0 c1 c2 : vec) : list vec3 :=
  zip_with (fun a bc => (a, fst bc, snd bc)) c0 (combine c1 c2).

(** [np.reshape(x, (V, 3), order='F')]: column [j] of the result is
    the [j]-th block of [V] entries of [x]. *)
Definition reshape_F (x : vec) (V : nat) : option (list vec3) :=
  if Nat.eqb (length x) (3 * V)
  then Some (zip3 (firstn V x) (firstn V (skipn V x)) (skipn (2 * V) x))
  else None.

(** [np.reshape(X, 3V, order='F')] of a V x 3 array. *)
Definition flatten_F (X : list vec3) : vec :=
  map (fun p => fst (fst p)) X ++ map (fun p => snd (fst p)) X ++ map snd X.

(** Row-major (C order) flattening and [np.reshape(a, (F, 3))], for
    any type of entries. *)
Definition flatten_C {A : Type} (X : list (A * A * A)) : list A :=
  flat_map (fun p => [fst (fst p); snd (fst p); snd p]) X.

Fixpoint reshape_C {A : Type} (a : list A) (n : nat) : option (list (A * A * A)) :=
  match n, a with
  | O, [] => Some []
  | S n', a0 :: a1 :: a2 :: a' => r <- reshape_C a' n' ;; Some ((a0, a1, a2) :: r)
  | _, _ => None
  end.

Fixpoint foldM {A S : Type} (f : S -> A -> option S) (l : list A) (s : S) : option S :=
  match l with
  | [] => Some s
  | a :: l' => s' <- f s a ;; foldM f l' s'
  end.

(** ** The mesh library (PyMesh), as far as the program uses it

    A triangle mesh is a V x 3 vertex array and an F x 3 face array.
    The attribute and connectivity queries below follow PyMesh's
    documented behaviour; the program receives them as given. *)

Abbreviation face := (nat * nat * nat)%type (only parsing).

Record Mesh := form_mesh { vertices : list vec3; faces : list face }.

Definition face_list (f : face) : list nat :=
  let '(i, j, k) := f in [i; j; k].

Definition face_points (vs : list vec3) (f : face) : option (vec3 * vec3 * vec3) :=
  let '(i, j, k) := f in
  a <- nth_error vs i ;; b <- nth_error vs j ;; c <- nth_error vs k ;; Some (a, b, c).

(** Attribute ["face_area"]: half the norm of the cross product of two
    edge vectors, one scalar per face. *)
Definition triangle_area (vs : list vec3) (f : face) : option R :=
  ' (a, b, c) <- face_points vs f ;;
  Some (norm3 (cross3 (sub3 b a) (sub3 c a)) / 2).

Definition face_area (m : Mesh) : option vec :=
  mapM (triangle_area (vertices m)) (faces m).

(** An entry of a float array that need not be a real number: [None]
    stands for nan or an infinity. *)
Abbreviation float := (option R) (only parsing).
Abbreviation float3 := (option R * option R * option R)%type (only parsing).

(** Attribute ["face_normal"]: the cross product of two edge vectors
    divided by its norm, returned as a flat array of 3F floats.  The
    attribute is computed for every face and the query does not raise
    on a face without area: the three entries of such a face are
    taken to be 0/0, not numbers. *)
Definition triangle_normal (vs : list vec3) (f : face) : option float3 :=
  ' (a, b, c) <- face_points vs f ;;
  let n := cross3 (sub3 b a) (sub3 c a) in
  let '(n0, n1, n2) := n in
  Some (safe_div n0 (norm3 n), safe_div n1 (norm3 n), safe_div n2 (norm3 n)).

Definition face_normal (m : Mesh) : option (list float) :=
  ns <- mapM (triangle_normal (vertices m)) (faces m) ;; Some (flatten_C ns).

(** A row of a float array read as a point: no point when an entry is
    not a real number (whatever is computed from it is not finite
    either). *)
Definition finite3 (n : float3) : option vec3 :=
  let '(n0, n1, n2) := n in
  a <- n0 ;; b <- n1 ;; c <- n2 ;; Some (a, b, c).

Definition face_edges (f : face) : list (nat * nat) :=
  let '(i, j, k) := f in [(i, j); (j, k); (k, i)].

Definition same_edge (e1 e2 : nat * nat) : bool :=
  (Nat.eqb (fst e1) (fst e2) && Nat.eqb (snd e1) (snd e2)) ||
  (Nat.eqb (fst e1) (snd e2) && Nat.eqb (snd e1) (fst e2)).

Definition share_edge (f g : face) : bool :=
  existsb (fun e => existsb (same_edge e) (face_edges g)) (face_edges f).

(** [mesh.get_face_adjacent_faces(fi)]: the indices of the other faces
    that share an edge with face number [fi]. *)
Definition get_face_adjacent_faces (m : Mesh) (fi : nat) : option (list nat) :=
  f <- nth_error (faces m) fi ;;
  Some (filter
          (fun gi => negb (Nat.eqb gi fi) &&
                     match nth_error (faces m) gi with
                     | Some g => share_edge f g
                     | None => false
                     end)
          (seq 0 (length (faces m)))).

(** [np.unique] and [np.setdiff1d(ar, v)] on index arrays: the sorted
    distinct entries of [ar] other than [v]. *)
Fixpoint insert_unique (n : nat) (l : list nat) : list nat :=
  match l with
  | [] => [n]
  | m :: l' =>
      if Nat.ltb n m then n :: l
      else if Nat.eqb n m then l
      else m :: insert_unique n l'
  end.

Definition np_unique (l : list nat) : list nat := fold_right insert_unique [] l.

Definition np_setdiff1d (ar : list nat) (v : nat) : list nat :=
  np_unique (filter (fun i => negb (Nat.eqb i v)) ar).

(** ** The services of PyMesh's assembler and of scipy's sparse
    inverse, which [__init__] calls; their results are inputs of the
    model. *)

Record External := {
  assemble_lumped_mass : Mesh -> option mat;
  assemble_laplacian : Mesh -> option mat;
  sp_inv : mat -> option mat
}.

(** ** class problem *)

(** [self.gradient_pre] is the integer [0] until the first Hessian
    call stores an array. *)
Inductive scalar_or_array :=
| Scalar (c : R)
| Array (a : vec).

Record problem := {
  mesh : Mesh;
  init_M : mat;
  At0 : vec;
  hess : mat;
  laplacian : mat;
  penalty : R;
  nu_grad_size : R;
  x0 : vec;
  pressure : R;
  gradient_pre : scalar_or_array;
  x_pre : vec;
  hess_pre : mat
}.

(** [np.size(self.mesh.vertices)]. *)
Definition size_vertices (m : Mesh) : nat := (3 * length (vertices m))%nat.

Definition default_nu_grad_size : R := 1 / 100000000.

Definition init (ext : External) (penalty ex_force : R) (mesh : Mesh)
    (nu_grad_size : R) : option problem :=
  init_M <- assemble_lumped_mass ext mesh ;;
  At0 <- face_area mesh ;;
  L <- assemble_laplacian ext mesh ;;
  Minv <- sp_inv ext init_M ;;
  LtMinv <- sp_mul (transpose L) Minv ;;
  hess_block <- sp_mul LtMinv L ;;
  let hess := block_diag3 hess_block in
  Minv' <- sp_inv ext init_M ;;
  laplacian <- sp_mul Minv' L ;;
  Some {| mesh := mesh;
          init_M := init_M;
          At0 := At0;
          hess := hess;
          laplacian := laplacian;
          penalty := penalty;
          nu_grad_size := nu_grad_size;
          x0 := flatten_F (vertices mesh);
          pressure := ex_force;
          gradient_pre := Scalar 0;
          x_pre := np_zeros (size_vertices mesh);
          hess_pre := np_eye (size_vertices mesh) |}.

Definition obj_func_bending (self : problem) (x : vec) : option R :=
  r <- row_times_mat x (hess self) ;;
  q <- row_times_col r x ;;
  Some (q / 2).

Definition obj_func_penalty (self : problem) (x : vec) : option R :=
  let shape_vertices := length (vertices (mesh self)) in
  vertices <- reshape_F x shape_vertices ;;
  let mesh := form_mesh vertices (faces (mesh self)) in
  At <- face_area mesh ;;
  d <- np_sub At (At0 self) ;;
  r <- mapM np_sqrt (At0 self) ;;
  q <- np_div d r ;;
  Some (penalty self * (norm q) ^ 2).

Definition obj_func (self : problem) (x : vec) : option R :=
  eb <- obj_func_bending self x ;;
  ep <- obj_func_penalty self x ;;
  Some (eb + ep).

Definition gradient_bending (self : problem) (x : vec) : option vec :=
  sp_matvec (hess self) x.

(** One pass of the inner loop body for vertex [v] and loop counter
    [f]: the sign-corrected cross product scaled by the relative area
    deviation, which the loop adds to [av].  Only row [f] of the
    normals is read; the sign test does not stop the pass when its
    divisor is zero. *)
Definition penalty_term (vertices : list vec3) (face_normal : list float3)
    (faces : list face) (At At0 : vec) (v f : nat) : option vec3 :=
  fc <- nth_error faces f ;;
  let tri_v := np_setdiff1d (face_list fc) v in
  t0 <- nth_error tri_v 0 ;;
  t1 <- nth_error tri_v 1 ;;
  p0 <- nth_error vertices t0 ;;
  p1 <- nth_error vertices t1 ;;
  let edge := sub3 p0 p1 in
  n <- nth_error face_normal f ;;
  n <- finite3 n ;;
  let gradient := cross3 n edge in
  pv <- nth_error vertices v ;;
  let gradient :=
    if quotient_negative (dot3 gradient (sub3 pv p0))
                         (norm3 gradient * norm3 (sub3 pv p0))
    then neg3 gradient else gradient in
  a <- nth_error At f ;;
  a0 <- nth_error At0 f ;;
  let '(g0, g1, g2) := gradient in
  div3 (2 * g0 * (a - a0), 2 * g1 * (a - a0), 2 * g2 * (a - a0)) a0.

(** [a[i:i+3] = av] on a one-dimensional array. *)
Definition set_slice3 (a : vec) (i : nat) (av : vec3) : option vec :=
  if Nat.leb (i + 3) (length a)
  then let '(a0, a1, a2) := av in
       Some (firstn i a ++ [a0; a1; a2] ++ skipn (i + 3) a)
  else None.

(** The inner loop [for f in range(np.size(adj_faces))] for vertex
    [v]: the value of [av] when it ends. *)
Definition vertex_sum (vertices : list vec3) (face_normal : list float3)
    (faces : list face) (At At0 : vec) (v n_adj : nat) : option vec3 :=
  foldM (fun av f =>
           t <- penalty_term vertices face_normal faces At At0 v f ;;
           Some (add3 av t))
        (seq 0 n_adj) zero3.

Definition gradient_penalty (self : problem) (x : vec) : option vec :=
  let shape_vertices := length (vertices (mesh self)) in
  vertices <- reshape_F x shape_vertices ;;
  let mesh := form_mesh vertices (faces (mesh self)) in
  face_normal <- face_normal mesh ;;
  face_normal <- reshape_C face_normal (length (faces mesh)) ;;
  At <- face_area mesh ;;
  let a := np_zeros (length x) in
  a <- foldM (fun a v =>
                adj_faces <- get_face_adjacent_faces mesh v ;;
                av <- vertex_sum vertices face_normal (faces mesh) At (At0 self)
                                 v (length adj_faces) ;;
                set_slice3 a (3 * v) av)
             (seq 0 shape_vertices) a ;;
  Some (scale (penalty self) a).

(** Sparse V x V matrix times the dense V x 3 vertex array. *)
Definition sp_mul_dense3 (A : mat) (X : list vec3) : option (list vec3) :=
  if has_shape (length A) (length X) A && Nat.eqb (ncols A) (length X)
  then Some (map (fun r => (dot r (map (fun p => fst (fst p)) X),
                            dot r (map (fun p => snd (fst p)) X),
                            dot r (map snd X))) A)
  else None.

Definition force (self : problem) (x : vec) : option vec :=
  let shape_vertices := length (vertices (mesh self)) in
  vertices <- reshape_F x shape_vertices ;;
  vector <- sp_mul_dense3 (laplacian self) vertices ;;
  let norm := map norm3 vector in
  vector <- mapM (fun rn => div3 (fst rn) (snd rn)) (combine vector norm) ;;
  vector <- (if Nat.eqb (3 * length vector) (size_vertices (mesh self))
             then Some (flatten_F vector) else None) ;;
  Some (scale (pressure self) vector).

(** [gradient] prints the norms of its three terms and returns their
    sum; the printed line is the first component of the result. *)
Definition gradient (self : problem) (x : vec) : option (list R * vec) :=
  a <- gradient_bending self x ;;
  b <- gradient_penalty self x ;;
  c <- force self x ;;
  let printed := [norm a; norm b; norm c] in
  ab <- np_add a b ;;
  abc <- np_add ab c ;;
  Some (printed, abc).

Definition hessian_bending (self : problem) : mat := hess self.

(** [grad - self.gradient_pre]. *)
Definition sub_pre (grad : vec) (pre : scalar_or_array) : option vec :=
  match pre with
  | Scalar c => Some (map (fun g => g - c) grad)
  | Array a => np_sub grad a
  end.

Definition set_pre (self : problem) (grad x : vec) (h : mat) : problem :=
  {| mesh := mesh self;
     init_M := init_M self;
     At0 := At0 self;
     hess := hess self;
     laplacian := laplacian self;
     penalty := penalty self;
     nu_grad_size := nu_grad_size self;
     x0 := x0 self;
     pressure := pressure self;
     gradient_pre := Array grad;
     x_pre := x;
     hess_pre := h |}.

(** The call returns the updated object together with its result.
    With a zero denominator numpy does not raise: the call returns,
    and stores as [hess_pre], an array without a finite entry (every
    entry of C, or of D, is a quotient by zero).  That result is
    [None] here, and the object with the non-finite [hess_pre] is not
    followed further. *)
Definition hessian_penalty (self : problem) (x : vec) : option (problem * mat) :=
  gp <- gradient_penalty self x ;;
  fx <- force self x ;;
  grad <- np_add gp fx ;;
  s <- np_sub x (x_pre self) ;;
  y <- sub_pre grad (gradient_pre self) ;;
  ys <- np_inner y s ;;
  C <- nd_div_scalar (np_outer y y) ys ;;
  hs <- nd_mul (hess_pre self) (np_outer s s) ;;
  hsh <- nd_mul hs (transpose (hess_pre self)) ;;
  sh <- row_times_mat s (hess_pre self) ;;
  shs <- row_times_col sh s ;;
  D <- nd_div_scalar hsh shs ;;
  hC <- nd_add (hess_pre self) C ;;
  hess <- nd_sub hC D ;;
  Some (set_pre self grad x hess, hess).

Definition hessian (self : problem) (x : vec) : option (problem * mat) :=
  let hb := hessian_bending self in
  ' (self', hp) <- hessian_penalty self x ;;
  r <- nd_add hb hp ;;
  Some (self', r).

Definition face_in_range (V : nat) (f : face) : Prop :=
  let '(i, j, k) := f in (i < V)%nat /\ (j < V)%nat /\ (k < V)%nat.

(** The documented energy: penalty times the sum over the faces of the
    squared area deviation relative to the rest area. *)
Definition E_pen (pen : R) (At At0 : vec) : R :=
  pen * sum (zip_with (fun a a0 => (a - a0) ^ 2 / a0) At At0).


(** ** Vocabulary of the statements *)

(** Entry (i, j) of a matrix. *)
Definition entry (A : mat) (i j : nat) : R := nth j (nth i A []) 0.

(** A square matrix that equals its transpose. *)
Definition symmetric (A : mat) : Prop :=
  has_shape (length A) (length A) A = true /\ transpose A = A.

(** Entry (i, j) of the matrix that [hessian_penalty] stores and
    returns, in terms of the previous matrix [Hp], the step [s], the
    gradient change [y] and the two denominators. *)
Definition secant_entry (Hp : mat) (s y : vec) (ys shs : R) (i j : nat) : R :=
  entry Hp i j + nth i y 0 * nth j y 0 / ys
  - entry Hp i j * (nth i s 0 * nth j s 0) * entry Hp j i / shs.

(** [s^t Hp s], the second denominator. *)
Definition quad (Hp : mat) (s : vec) : R :=
  dot (map (fun j => dot s (col Hp j)) (seq 0 (ncols Hp))) s.

(** A sequence of [hessian_penalty] calls on one object: the object
    after the last call and the matrices returned on the way. *)
Fixpoint hessian_penalty_calls (self : problem) (xs : list vec)
    : option (problem * list mat) :=
  match xs with
  | [] => Some (self, [])
  | x :: xs' =>
      ' (self1, H) <- hessian_penalty self x ;;
      ' (self2, Hs) <- hessian_penalty_calls self1 xs' ;;
      Some (self2, H :: Hs)
  end.

(** Sum of [f 0 .. f (n - 1)]. *)
Definition sum_n (n : nat) (f : nat -> R) : R := sum (map f (seq 0 n)).

(** Entry (a, b) of [L^t Minv L] for V x V matrices. *)
Definition bending_block (L Minv : mat) (V a b : nat) : R :=
  sum_n V (fun k => sum_n V (fun l => entry L k a * entry Minv k l * entry L l b)).

(** A row scaled to unit length. *)
Definition unit3 (w : vec3) : vec3 :=
  let '(a, b, c) := w in (a / norm3 w, b / norm3 w, c / norm3 w).

(** Row [i] of the product of a V x V matrix with the V x 3 vertex
    array. *)
Definition lap_row (Lap : mat) (X : list vec3) (V i : nat) : vec3 :=
  (sum_n V (fun k => entry Lap i k * fst (fst (nth k X zero3))),
   sum_n V (fun k => entry Lap i k * snd (fst (nth k X zero3))),
   sum_n V (fun k => entry Lap i k * snd (nth k X zero3))).

(** The same object with another pressure magnitude. *)
Definition with_pressure (self : problem) (p : R) : problem :=
  {| mesh := mesh self;
     init_M := init_M self;
     At0 := At0 self;
     hess := hess self;
     laplacian := laplacian self;
     penalty := penalty self;
     nu_grad_size := nu_grad_size self;
     x0 := x0 self;
     pressure := p;
     gradient_pre := gradient_pre self;
     x_pre := x_pre self;
     hess_pre := hess_pre self |}.

(** ** A worked example: a tetrahedron

    Rest vertices (0,0,0), (1,0,0), (0,1,0), (0,0,2) with outward
    faces; all four rest areas are rational: 1/2, 1, 1, 3/2. *)

Definition tetra_mesh : Mesh :=
  form_mesh [(0, 0, 0); (1, 0, 0); (0, 1, 0); (0, 0, 2)]
            [(0, 2, 1); (0, 1, 3); (0, 3, 2); (1, 2, 3)]%nat.

(** Lumped mass of the tetrahedron: one third of the area of the faces
    around each vertex. *)
Definition tetra_M : mat :=
  [[5 / 6; 0; 0; 0]; [0; 1; 0; 0]; [0; 0; 1; 0]; [0; 0; 0; 7 / 6]].

Definition tetra_Minv : mat :=
  [[6 / 5; 0; 0; 0]; [0; 1; 0; 0]; [0; 0; 1; 0]; [0; 0; 0; 6 / 7]].

(** Graph Laplacian of the tetrahedron (every two vertices share an
    edge). *)
Definition tetra_L : mat :=
  [[3; -1; -1; -1]; [-1; 3; -1; -1]; [-1; -1; 3; -1]; [-1; -1; -1; 3]].

(** The library results for the tetrahedron. *)
Definition tetra_ext : External :=
  {| assemble_lumped_mass := fun _ => Some tetra_M;
     assemble_laplacian := fun _ => Some tetra_L;
     sp_inv := fun _ => Some tetra_Minv |}.

Definition tetra_At0 : vec := [1 / 2; 1; 1; 3 / 2].

Definition tetra_laplacian : mat :=
  [[18 / 5; - (6 / 5); - (6 / 5); - (6 / 5)];
   [-1; 3; -1; -1];
   [-1; -1; 3; -1];
   [- (6 / 7); - (6 / 7); - (6 / 7); 18 / 7]].

Definition tetra_hess_block : mat :=
  [[478 / 35; - (166 / 35); - (166 / 35); - (146 / 35)];
   [- (166 / 35); 422 / 35; - (138 / 35); - (118 / 35)];
   [- (166 / 35); - (138 / 35); 422 / 35; - (118 / 35)];
   [- (146 / 35); - (118 / 35); - (118 / 35); 382 / 35]].

(** The object constructed with penalty [pen] and pressure [ef]. *)
Definition tetra_problem (pen ef : R) : problem :=
  {| mesh := tetra_mesh;
     init_M := tetra_M;
     At0 := tetra_At0;
     hess := block_diag3 tetra_hess_block;
     laplacian := tetra_laplacian;
     penalty := pen;
     nu_grad_size := default_nu_grad_size;
     x0 := flatten_F (vertices tetra_mesh);
     pressure := ef;
     gradient_pre := Scalar 0;
     x_pre := np_zeros 12;
     hess_pre := np_eye 12 |}.

(** Deformed state: vertices (0,0,0), (2,0,0), (0,1,0), (0,0,1),
    flattened column by column. *)
Definition tetra_x : vec := [0; 2; 0; 0; 0; 0; 1; 0; 0; 0; 0; 1].

Definition tetra_X : list vec3 := [(0, 0, 0); (2, 0, 0); (0, 1, 0); (0, 0, 1)].

Definition tetra_At : vec := [1; 1; 1 / 2; 3 / 2].

Definition tetra_normals_flat : list float :=
  map Some [0; 0; -1; 0; -1; 0; -1; 0; 0; 1 / 3; 2 / 3; 2 / 3].

Definition tetra_normals : list float3 :=
  [(Some 0, Some 0, Some (-1)); (Some 0, Some (-1), Some 0);
   (Some (-1), Some 0, Some 0); (Some (1 / 3), Some (2 / 3), Some (2 / 3))].

(** The contribution of one face to one vertex: twice the cross product
    of the unit normal [n] with the opposite edge [p0 - p1], negated
    when its dot product with [pv - p0] is negative, times the
    relative area deviation. *)
Definition area_gradient_term (n p0 p1 pv : vec3) (a a0 : R) : vec3 :=
  let g := cross3 n (sub3 p0 p1) in
  let g := if Rlt_dec (dot3 g (sub3 pv p0)) 0 then neg3 g else g in
  let '(g0, g1, g2) := g in
  (2 * g0 * (a - a0) / a0, 2 * g1 * (a - a0) / a0, 2 * g2 * (a - a0) / a0).

(** The array [a] that [gradient_penalty] builds at [tetra_x], before
    the final multiplication by the penalty weight. *)
Definition tetra_a : vec := [-2; -3; 1; 2; 0; -1; 0; 3; 0; 0; 4; -1].

(** ** A mesh with a degenerate face

    Vertices (0,0,0), (1,0,0), (0,1,0), (2,0,0): face (0, 1, 3) has
    collinear vertices and area zero; the other areas are 1/2, 1 and
    1/2, so every vertex has positive lumped mass. *)

Definition flat_mesh : Mesh :=
  form_mesh [(0, 0, 0); (1, 0, 0); (0, 1, 0); (2, 0, 0)]
            [(0, 2, 1); (0, 1, 3); (0, 3, 2); (1, 2, 3)]%nat.

Definition flat_At0 : vec := [1 / 2; 0; 1; 1 / 2].

Definition flat_M : mat :=
  [[1 / 2; 0; 0; 0]; [0; 1 / 3; 0; 0]; [0; 0; 2 / 3; 0]; [0; 0; 0; 1 / 2]].

Definition flat_Minv : mat :=
  [[2; 0; 0; 0]; [0; 3; 0; 0]; [0; 0; 3 / 2; 0]; [0; 0; 0; 2]].

Definition flat_ext : External :=
  {| assemble_lumped_mass := fun _ => Some flat_M;
     assemble_laplacian := fun _ => Some tetra_L;
     sp_inv := fun _ => Some flat_Minv |}.

(** ** A triangular bipyramid

    Apexes 0 and 1, which share no face, over the triangle of the
    vertices 2, 3, 4.  Rest vertices (0,0,0), (1,1,2), (1,0,0),
    (0,1,0), (0,0,2); the rest areas are 1/2, 1, 1 and three times
    3/2. *)

Definition bipyramid_mesh : Mesh :=
  form_mesh [(0, 0, 0); (1, 1, 2); (1, 0, 0); (0, 1, 0); (0, 0, 2)]
            [(0, 2, 3); (0, 3, 4); (0, 4, 2); (1, 3, 2); (1, 4, 3); (1, 2, 4)]%nat.

Definition bipyramid_At0 : vec := [1 / 2; 1; 1; 3 / 2; 3 / 2; 3 / 2].

(** Lumped mass (one third of the area of the faces around each
    vertex), its inverse, and the graph Laplacian. *)
Definition bipyramid_M : mat :=
  [[5 / 6; 0; 0; 0; 0]; [0; 3 / 2; 0; 0; 0]; [0; 0; 3 / 2; 0; 0];
   [0; 0; 0; 3 / 2; 0]; [0; 0; 0; 0; 5 / 3]].

Definition bipyramid_Minv : mat :=
  [[6 / 5; 0; 0; 0; 0]; [0; 2 / 3; 0; 0; 0]; [0; 0; 2 / 3; 0; 0];
   [0; 0; 0; 2 / 3; 0]; [0; 0; 0; 0; 3 / 5]].

Definition bipyramid_L : mat :=
  [[3; 0; -1; -1; -1]; [0; 3; -1; -1; -1]; [-1; -1; 4; -1; -1];
   [-1; -1; -1; 4; -1]; [-1; -1; -1; -1; 4]].

Definition bipyramid_ext : External :=
  {| assemble_lumped_mass := fun _ => Some bipyramid_M;
     assemble_laplacian := fun _ => Some bipyramid_L;
     sp_inv := fun _ => Some bipyramid_Minv |}.

(** Deformed state: vertices (0,0,0), (0,0,0), (2,0,0), (0,1,0),
    (0,0,1), flattened column by column.  Apex 1 lies on apex 0; no
    face has lost its area. *)
Definition bipyramid_x : vec := [0; 0; 2; 0; 0; 0; 0; 0; 1; 0; 0; 0; 0; 0; 1].

Definition bipyramid_X : list vec3 :=
  [(0, 0, 0); (0, 0, 0); (2, 0, 0); (0, 1, 0); (0, 0, 1)].

Definition bipyramid_At : vec := [1; 1 / 2; 1; 1; 1 / 2; 1].

Definition bipyramid_normals_flat : list float :=
  map Some [0; 0; 1; 1; 0; 0; 0; 1; 0; 0; 0; -1; -1; 0; 0; 0; -1; 0].

Definition bipyramid_normals : list float3 :=
  [(Some 0, Some 0, Some 1); (Some 1, Some 0, Some 0); (Some 0, Some 1, Some 0);
   (Some 0, Some 0, Some (-1)); (Some (-1), Some 0, Some 0);
   (Some 0, Some (-1), Some 0)].

(** The array [a] that [gradient_penalty] builds at [bipyramid_x],
    before the final multiplication by the penalty weight. *)
Definition bipyramid_a : vec :=
  [-2; -3; 1; 0; -4; 1; 2; 0; 1; 0; 3; 0; 0; -4; -1].

(** The loop counters that [gradient_penalty] passes on a mesh: [f]
    is below the number of faces around face number [v], for a vertex
    index [v]. *)
Definition visited (m : Mesh) (f : nat) : Prop :=
  exists v adj,
    (v < length (vertices m))%nat /\
    get_face_adjacent_faces m v = Some adj /\
    (f < length adj)%nat.

(** The condition under which the divisor of the sign test at loop
    position (v, f) is not zero: the candidate cross product is not
    the zero vector and vertex [v] is not at the position of the first
    opposite vertex. *)
Definition sign_test_nondegenerate (X : list vec3) (Nf : list float3)
    (fs : list face) (v f : nat) : Prop :=
  forall fc t0 t1 p0 p1 nf n pv,
    nth_error fs f = Some fc ->
    nth_error (np_setdiff1d (face_list fc) v) 0 = Some t0 ->
    nth_error (np_setdiff1d (face_list fc) v) 1 = Some t1 ->
    nth_error X t0 = Some p0 ->
    nth_error X t1 = Some p1 ->
    nth_error Nf f = Some nf ->
    finite3 nf = Some n ->
    nth_error X v = Some pv ->
    cross3 n (sub3 p0 p1) <> zero3 /\ pv <> p0.

(** ** The documented penalty gradient and secant update

    These two definitions follow the words of the specification, to
    be compared with [gradient_penalty] and [hessian_penalty]. *)

(** The faces adjacent to vertex [v]: the faces that list [v]. *)
Definition vertex_adjacent_faces (fs : list face) (v : nat) : list nat :=
  filter (fun f => match nth_error fs f with
                   | Some fc => existsb (Nat.eqb v) (face_list fc)
                   | None => false
                   end)
         (seq 0 (length fs)).

(** The accumulated contribution of the faces adjacent to [v]. *)
Definition documented_vertex_sum (X : list vec3) (Nf : list float3)
    (fs : list face) (At A0 : vec) (v : nat) : option vec3 :=
  foldM (fun av f => t <- penalty_term X Nf fs At A0 v f ;; Some (add3 av t))
        (vertex_adjacent_faces fs v) zero3.

(** Every vertex receives the contributions of exactly its adjacent
    faces, and its three components go to the positions of the
    column-major flattening. *)
Definition gradient_penalty_documented (self : problem) (x : vec) : option vec :=
  let V := length (vertices (mesh self)) in
  let fs := faces (mesh self) in
  X <- reshape_F x V ;;
  fn <- face_normal (form_mesh X fs) ;;
  Nf <- reshape_C fn (length fs) ;;
  At <- face_area (form_mesh X fs) ;;
  avs <- mapM (documented_vertex_sum X Nf fs At (At0 self)) (seq 0 V) ;;
  Some (scale (penalty self) (flatten_F avs)).

(** C = y y^t / (y^t s), D = (H s s^t H^t) / (s^t H s) with matrix
    products, and the result H + C - D. *)
Definition secant_update_documented (Hp : mat) (s y : vec) : option mat :=
  ys <- np_inner y s ;;
  C <- nd_div_scalar (np_outer y y) ys ;;
  hs <- sp_mul Hp (np_outer s s) ;;
  hsh <- sp_mul hs (transpose Hp) ;;
  sh <- row_times_mat s Hp ;;
  shs <- row_times_col sh s ;;
  D <- nd_div_scalar hsh shs ;;
  hC <- nd_add Hp C ;;
  nd_sub hC D.

Definition tetra_a_documented : vec := [-2; 2; 0; 0; -3; 0; 3; 0; 1; 0; 0; -1].

(** ** Vocabulary of the further properties *)

(** The state vector that moves each of V vertices by the vector [t]. *)
Definition translation (V : nat) (t : vec3) : vec := flatten_F (repeat t V).

(** A sequence of [hessian] calls on one object: the object after the
    last call and the matrices returned on the way. *)
Fixpoint hessian_calls (self : problem) (xs : list vec) : option (problem * list mat) :=
  match xs with
  | [] => Some (self, [])
  | x :: xs' =>
      ' (self1, R) <- hessian self x ;;
      ' (self2, Rs) <- hessian_calls self1 xs' ;;
      Some (self2, R :: Rs)
  end.

(** No entry of [xs] equals its predecessor, [prev] being the
    predecessor of the first. *)
Fixpoint no_repeat (prev : vec) (xs : list vec) : Prop :=
  match xs with
  | [] => True
  | x :: xs' => x <> prev /\ no_repeat x xs'
  end.

(** The three entries of [a] at positions 3v, 3v + 1, 3v + 2. *)
Definition slot (a : vec) (v : nat) : vec3 :=
  (nth (3 * v) a 0, nth (3 * v + 1) a 0, nth (3 * v + 2) a 0).
(** * Properties *)

(** ** The error monad *)

Lemma bind_Some {A B : Type} (m : option A) (k : A -> option B) (b : B) :
  bind m k = Some b <-> exists a, m = Some a /\ k a = Some b.
Proof.
  destruct m as [a|]; simpl; split.
  - intros H; exists a; auto.
  - intros (a' & E & H); inversion E; subst; exact H.
  - discriminate.
  - intros (a' & E & _); discriminate.
Qed.

Lemma bind_None_l {A B : Type} (k : A -> option B) : bind None k = None.
Proof. reflexivity. Qed.

(** Splits a hypothesis [x <- m ;; k = Some b] into its two steps. *)
Ltac inv_bind H :=
  let a := fresh "a" in
  let E := fresh "E" in
  apply bind_Some in H; destruct H as (a & E & H).

Ltac inv_binds H :=
  repeat (apply bind_Some in H;
          let a := fresh "a" in
          let E := fresh "E" in
          destruct H as (a & E & H)).

Lemma mapM_length {A B : Type} (f : A -> option B) l l' :
  mapM f l = Some l' -> length l' = length l.
Proof.
  revert l'; induction l as [|a l IH]; simpl; intros l' H.
  - inversion H; reflexivity.
  - inv_binds H. inversion H; subst; simpl. f_equal; auto.
Qed.

Lemma mapM_Forall2 {A B : Type} (f : A -> option B) l l' :
  mapM f l = Some l' <-> Forall2 (fun a b => f a = Some b) l l'.
Proof.
  revert l'; induction l as [|a l IH]; simpl; intros l'; split; intros H.
  - inversion H; constructor.
  - inversion H; reflexivity.
  - inv_binds H. inversion H; subst. constructor; [assumption|]. apply IH; assumption.
  - inversion H as [|? b ? l2 Hab Hl]; subst.
    rewrite Hab; simpl. apply IH in Hl. rewrite Hl; reflexivity.
Qed.

Lemma mapM_map_total {A B : Type} (f : A -> option B) (g : A -> B) l :
  Forall (fun a => f a = Some (g a)) l -> mapM f l = Some (map g l).
Proof.
  induction 1 as [|a l Ha _ IH]; simpl; [reflexivity|].
  rewrite Ha, IH; reflexivity.
Qed.

Lemma mapM_None {A B : Type} (f : A -> option B) l a :
  In a l -> f a = None -> mapM f l = None.
Proof.
  induction l as [|b l IH]; simpl; [tauto|].
  intros [->|Hin] Ha.
  - rewrite Ha; reflexivity.
  - destruct (f b); simpl; [|reflexivity]. rewrite (IH Hin Ha); reflexivity.
Qed.

Lemma mapM_In {A B : Type} (f : A -> option B) l l' a :
  mapM f l = Some l' -> In a l -> exists b, f a = Some b.
Proof.
  intros H Hin. destruct (f a) as [b|] eqn:E; [eauto|].
  rewrite (mapM_None f l a Hin E) in H; discriminate.
Qed.

(** ** Scalars *)

Lemma safe_div_Some a b : b <> 0 -> safe_div a b = Some (a / b).
Proof. intros H; unfold safe_div; destruct (Req_dec_T b 0); [contradiction|reflexivity]. Qed.

Lemma safe_div_zero a : safe_div a 0 = None.
Proof. unfold safe_div; destruct (Req_dec_T 0 0); [reflexivity|contradiction]. Qed.

Lemma safe_div_inv a b q : safe_div a b = Some q -> b <> 0 /\ q = a / b.
Proof.
  unfold safe_div; destruct (Req_dec_T b 0); [discriminate|].
  intros H; inversion H; auto.
Qed.

Lemma np_sqrt_Some a : 0 <= a -> np_sqrt a = Some (sqrt a).
Proof. intros H; unfold np_sqrt; destruct (Rlt_dec a 0); [lra|reflexivity]. Qed.

Lemma zip_with_length {A B C : Type} (f : A -> B -> C) a b :
  length (zip_with f a b) = Nat.min (length a) (length b).
Proof.
  revert b; induction a as [|x a IH]; intros [|y b]; simpl; auto.
Qed.

Lemma dot_self_nonneg a : 0 <= dot a a.
Proof.
  unfold dot, sum. induction a as [|x a IH]; simpl; [lra|].
  pose proof (Rle_0_sqr x) as Hx. unfold Rsqr in Hx. lra.
Qed.

Lemma norm_sq a : (norm a) ^ 2 = dot a a.
Proof.
  unfold norm. simpl. rewrite Rmult_1_r. apply sqrt_sqrt, dot_self_nonneg.
Qed.

(** ** Reshaping *)

Lemma zip3_length c0 c1 c2 n :
  length c0 = n -> length c1 = n -> length c2 = n -> length (zip3 c0 c1 c2) = n.
Proof.
  intros H0 H1 H2. unfold zip3.
  rewrite zip_with_length, length_combine. lia.
Qed.

Lemma reshape_F_Some x V :
  length x = (3 * V)%nat ->
  exists X, reshape_F x V = Some X /\ length X = V.
Proof.
  intros H. unfold reshape_F. rewrite H, Nat.eqb_refl.
  eexists; split; [reflexivity|].
  apply zip3_length.
  - rewrite length_firstn; lia.
  - rewrite length_firstn, length_skipn; lia.
  - rewrite length_skipn; lia.
Qed.

Lemma reshape_F_inv x V X :
  reshape_F x V = Some X -> length x = (3 * V)%nat /\ length X = V.
Proof.
  unfold reshape_F. destruct (Nat.eqb_spec (length x) (3 * V)) as [E|E]; [|discriminate].
  intros H. split; [exact E|].
  destruct (reshape_F_Some x V E) as (X' & H' & L).
  unfold reshape_F in H'. rewrite E, Nat.eqb_refl in H'. congruence.
Qed.

Lemma nth_error_zip_with {A B C : Type} (f : A -> B -> C) a b i x y :
  nth_error a i = Some x -> nth_error b i = Some y ->
  nth_error (zip_with f a b) i = Some (f x y).
Proof.
  revert b i; induction a as [|a0 a IH]; intros [|b0 b] [|i]; simpl; try discriminate.
  - intros H1 H2; inversion H1; inversion H2; reflexivity.
  - apply IH.
Qed.

Lemma nth_error_combine_Some {A B : Type} (a : list A) (b : list B) i x y :
  nth_error a i = Some x -> nth_error b i = Some y ->
  nth_error (combine a b) i = Some (x, y).
Proof.
  revert b i; induction a as [|a0 a IH]; intros [|b0 b] [|i]; simpl; try discriminate.
  - intros H1 H2; inversion H1; inversion H2; reflexivity.
  - apply IH.
Qed.

Lemma nth_error_nth_lt {A : Type} (l : list A) i d :
  (i < length l)%nat -> nth_error l i = Some (nth i l d).
Proof. intros H. apply nth_error_nth'. exact H. Qed.

(** Row [i] of the reshaped array collects entries [i], [V + i] and
    [2V + i] of [x]: the column-major convention. *)
Lemma reshape_F_nth x V X i :
  reshape_F x V = Some X -> (i < V)%nat ->
  nth_error X i = Some (nth i x 0, nth (V + i) x 0, nth (2 * V + i) x 0).
Proof.
  intros H Hi. destruct (reshape_F_inv _ _ _ H) as [Lx _].
  unfold reshape_F in H. rewrite Lx, Nat.eqb_refl in H. inversion H; subst X; clear H.
  unfold zip3.
  apply (nth_error_zip_with (fun a bc => (a, fst bc, snd bc)) _ _ i
           (nth i x 0) (nth (V + i) x 0, nth (2 * V + i) x 0)).
  - rewrite nth_error_firstn. destruct (Nat.ltb_spec i V); [|lia].
    apply nth_error_nth_lt; lia.
  - apply nth_error_combine_Some.
    + rewrite nth_error_firstn. destruct (Nat.ltb_spec i V); [|lia].
      rewrite nth_error_skipn. apply nth_error_nth_lt; lia.
    + rewrite nth_error_skipn. apply nth_error_nth_lt; lia.
Qed.

(** ** What a Hessian call changes *)

Lemma hessian_penalty_state self x self' H :
  hessian_penalty self x = Some (self', H) ->
  exists grad, self' = set_pre self grad x H.
Proof.
  unfold hessian_penalty. intros E. inv_binds E.
  inversion E; subst. eexists; reflexivity.
Qed.

Lemma hessian_state self x self' H :
  hessian self x = Some (self', H) ->
  exists grad Hp, hessian_penalty self x = Some (self', Hp) /\
                  self' = set_pre self grad x Hp /\
                  nd_add (hess self) Hp = Some H.
Proof.
  unfold hessian, hessian_bending. intros E.
  inv_bind E. destruct a as [s1 hp]. inv_bind E. inversion E; subst.
  destruct (hessian_penalty_state _ _ _ _ E0) as (grad & ->).
  exists grad, hp. auto.
Qed.

(** ** Area penalty energy *)

Lemma mapM_total {A B : Type} (f : A -> option B) l :
  Forall (fun a => exists b, f a = Some b) l -> exists l', mapM f l = Some l'.
Proof.
  induction 1 as [|a l [b Hb] _ [l' IH]]; simpl.
  - eexists; reflexivity.
  - rewrite Hb, IH; simpl. eexists; reflexivity.
Qed.

Lemma face_points_Some vs f :
  face_in_range (length vs) f -> exists abc, face_points vs f = Some abc.
Proof.
  destruct f as [[i j] k]. simpl. intros (Hi & Hj & Hk).
  rewrite (nth_error_nth_lt vs i zero3 Hi), (nth_error_nth_lt vs j zero3 Hj),
          (nth_error_nth_lt vs k zero3 Hk).
  simpl. eexists; reflexivity.
Qed.

Lemma face_area_Some vs fs :
  Forall (face_in_range (length vs)) fs ->
  exists At, face_area (form_mesh vs fs) = Some At /\ length At = length fs.
Proof.
  intros H. unfold face_area; simpl.
  destruct (mapM_total (triangle_area vs) fs) as [At E].
  - eapply Forall_impl; [|exact H]. intros f Hf.
    destruct (face_points_Some vs f Hf) as [[[a b] c] E].
    unfold triangle_area. rewrite E. simpl. eexists; reflexivity.
  - exists At. split; [exact E|]. eapply mapM_length; exact E.
Qed.

Lemma relative_deviation At At0 :
  length At = length At0 ->
  Forall (fun a0 => 0 < a0) At0 ->
  exists q,
    mapM (fun p => safe_div (fst p) (snd p))
         (combine (zip_with Rminus At At0) (map sqrt At0)) = Some q /\
    dot q q = sum (zip_with (fun a a0 => (a - a0) ^ 2 / a0) At At0).
Proof.
  revert At0; induction At as [|a At IH]; intros [|a0 At0] L Hpos; simpl in *; try discriminate.
  - exists []. split; [reflexivity|]. reflexivity.
  - inversion Hpos as [|? ? Ha0 Hpos']; subst.
    destruct (IH At0) as (q & Eq & Hq); [lia|assumption|].
    assert (Hs : sqrt a0 <> 0).
    { pose proof (sqrt_lt_R0 a0 Ha0). lra. }
    rewrite (safe_div_Some _ _ Hs), Eq. simpl.
    eexists; split; [reflexivity|].
    unfold dot in *. simpl. rewrite Hq. f_equal.
    unfold Rdiv. rewrite Rmult_1_r.
    replace ((a - a0) * / sqrt a0 * ((a - a0) * / sqrt a0))
      with ((a - a0) * (a - a0) * (/ sqrt a0 * / sqrt a0)) by ring.
    rewrite <- Rinv_mult. rewrite sqrt_sqrt by lra. reflexivity.
Qed.

(** C5. For a state vector of length 3V, faces that index the V
    vertices and strictly positive rest areas (one per face),
    [obj_func_penalty] returns penalty times the sum over faces of
    (A_f - A0_f)^2 / A0_f, where A is the area list of the mesh rebuilt
    from the column-major reshape of x and the original faces; a
    Hessian call, the only call that changes the object, leaves the
    rest areas and the mesh as they were. *)
Theorem obj_func_penalty_formula (self : problem) (x : vec) :
  let V := length (vertices (mesh self)) in
  let fs := faces (mesh self) in
  length x = (3 * V)%nat ->
  Forall (face_in_range V) fs ->
  length (At0 self) = length fs ->
  Forall (fun a0 => 0 < a0) (At0 self) ->
  exists X At,
    reshape_F x V = Some X /\
    (forall i, (i < V)%nat ->
       nth_error X i = Some (nth i x 0, nth (V + i) x 0, nth (2 * V + i) x 0)) /\
    face_area (form_mesh X fs) = Some At /\
    obj_func_penalty self x = Some (E_pen (penalty self) At (At0 self)) /\
    (forall y self' H, hessian self y = Some (self', H) ->
       At0 self' = At0 self /\ mesh self' = mesh self).
Proof.
  intros V fs Lx Hfs L0 Hpos.
  destruct (reshape_F_Some x V Lx) as (X & EX & LX).
  destruct (face_area_Some X fs) as (At & EA & LA); [rewrite LX; exact Hfs|].
  exists X, At. split; [exact EX|]. split; [|split; [exact EA|split]].
  - intros i Hi. eapply reshape_F_nth; eauto.
  - unfold obj_func_penalty. fold V. rewrite EX. simpl. fold fs. rewrite EA. simpl.
    unfold np_sub, np_binop. rewrite LA, L0, Nat.eqb_refl. simpl.
    rewrite (mapM_map_total np_sqrt sqrt).
    2:{ eapply Forall_impl; [|exact Hpos]. intros a Ha. apply np_sqrt_Some; lra. }
    simpl.
    destruct (relative_deviation At (At0 self)) as (q & Eq & Hq); [lia|assumption|].
    unfold np_div. rewrite zip_with_length, length_map, LA, L0, Nat.min_id, Nat.eqb_refl.
    rewrite Eq. cbn [bind].
    change (norm q * (norm q * 1)) with (norm q ^ 2).
    rewrite norm_sq, Hq. reflexivity.
  - intros y self' H E.
    destruct (hessian_state _ _ _ _ E) as (grad & Hp & _ & -> & _).
    split; reflexivity.
Qed.

(** ** Matrices: shapes and entries *)

Lemma has_shape_spec m n A :
  has_shape m n A = true <-> length A = m /\ Forall (fun r => length r = n) A.
Proof.
  unfold has_shape. rewrite andb_true_iff, Nat.eqb_eq, forallb_forall, Forall_forall.
  split; intros [H1 H2]; split; auto; intros r Hr; apply Nat.eqb_eq; auto.
Qed.

Lemma has_shape_row m n A i :
  has_shape m n A = true -> (i < m)%nat -> length (nth i A []) = n.
Proof.
  intros H Hi. apply has_shape_spec in H. destruct H as [L F].
  rewrite Forall_forall in F. apply F. apply nth_In. lia.
Qed.

Lemma has_shape_ncols m n A :
  has_shape m n A = true -> (0 < m)%nat -> ncols A = n.
Proof.
  intros H Hm. pose proof (has_shape_row m n A 0 H Hm) as E.
  apply has_shape_spec in H. destruct A; simpl in *; [lia|exact E].
Qed.

Lemma nth_map_lt {A B : Type} (f : A -> B) l i d d' :
  (i < length l)%nat -> nth i (map f l) d = f (nth i l d').
Proof.
  intros H. rewrite (nth_indep _ d (f d')) by (rewrite length_map; exact H).
  apply map_nth.
Qed.

Lemma nth_zip_with_lt {A B C : Type} (f : A -> B -> C) a b i d da db :
  (i < length a)%nat -> (i < length b)%nat ->
  nth i (zip_with f a b) d = f (nth i a da) (nth i b db).
Proof.
  revert b i; induction a as [|x a IH]; intros [|y b] [|i]; simpl; intros H1 H2;
    try lia; auto.
  apply IH; lia.
Qed.

Lemma list_ext_nth {A : Type} (d : A) (l1 l2 : list A) :
  length l1 = length l2 ->
  (forall i, (i < length l1)%nat -> nth i l1 d = nth i l2 d) -> l1 = l2.
Proof.
  revert l2; induction l1 as [|a l1 IH]; intros [|b l2] L H; simpl in *; try discriminate.
  - reflexivity.
  - f_equal.
    + apply (H 0%nat); lia.
    + apply IH; [lia|]. intros i Hi. apply (H (S i)); lia.
Qed.

(** Two matrices of one shape with equal entries are equal. *)
Lemma mat_ext m n A B :
  has_shape m n A = true -> has_shape m n B = true ->
  (forall i j, (i < m)%nat -> (j < n)%nat -> entry A i j = entry B i j) -> A = B.
Proof.
  intros HA HB H.
  pose proof (proj1 (has_shape_spec _ _ _) HA) as [LA _].
  pose proof (proj1 (has_shape_spec _ _ _) HB) as [LB _].
  apply (list_ext_nth []); [lia|].
  intros i Hi. rewrite LA in Hi.
  apply (list_ext_nth 0).
  - rewrite (has_shape_row m n A i HA Hi), (has_shape_row m n B i HB Hi); reflexivity.
  - intros j Hj. rewrite (has_shape_row m n A i HA Hi) in Hj. apply H; assumption.
Qed.

Lemma entry_zip_with f m n A B i j :
  has_shape m n A = true -> has_shape m n B = true -> (i < m)%nat -> (j < n)%nat ->
  entry (zip_with (zip_with f) A B) i j = f (entry A i j) (entry B i j).
Proof.
  intros HA HB Hi Hj. unfold entry.
  pose proof (proj1 (has_shape_spec _ _ _) HA) as [LA _].
  pose proof (proj1 (has_shape_spec _ _ _) HB) as [LB _].
  rewrite (nth_zip_with_lt (zip_with f) A B i [] [] []) by lia.
  apply nth_zip_with_lt.
  - rewrite (has_shape_row m n A i HA Hi); exact Hj.
  - rewrite (has_shape_row m n B i HB Hi); exact Hj.
Qed.

Lemma has_shape_zip_with f m n A B :
  has_shape m n A = true -> has_shape m n B = true ->
  has_shape m n (zip_with (zip_with f) A B) = true.
Proof.
  intros HA HB.
  apply has_shape_spec in HA. apply has_shape_spec in HB. apply has_shape_spec.
  destruct HA as [LA FA]. destruct HB as [LB FB].
  split; [rewrite zip_with_length; lia|].
  clear LA LB. revert B FB. induction FA as [|r A Hr _ IH]; intros [|r' B] FB; simpl;
    try constructor.
  - inversion FB; subst. rewrite zip_with_length. lia.
  - inversion FB; subst. apply IH; assumption.
Qed.

Lemma nd_binop_inv f A B C :
  nd_binop f A B = Some C ->
  has_shape (length A) (ncols A) A = true /\
  has_shape (length A) (ncols A) B = true /\
  has_shape (length A) (ncols A) C = true /\
  C = zip_with (zip_with f) A B.
Proof.
  unfold nd_binop.
  destruct (has_shape (length A) (ncols A) A) eqn:HA; [|discriminate].
  destruct (has_shape (length A) (ncols A) B) eqn:HB; [|discriminate].
  simpl. intros E; inversion E; subst.
  repeat split; auto. apply has_shape_zip_with; assumption.
Qed.

Lemma has_shape_outer a b : has_shape (length a) (length b) (np_outer a b) = true.
Proof.
  apply has_shape_spec. unfold np_outer. split; [apply length_map|].
  apply Forall_forall. intros r Hr. apply in_map_iff in Hr.
  destruct Hr as (ai & <- & _). apply length_map.
Qed.

Lemma entry_outer a b i j :
  (i < length a)%nat -> (j < length b)%nat ->
  entry (np_outer a b) i j = nth i a 0 * nth j b 0.
Proof.
  intros Hi Hj. unfold entry, np_outer.
  rewrite (nth_map_lt _ a i [] 0 Hi).
  rewrite (nth_map_lt _ b j 0 0 Hj). reflexivity.
Qed.

Lemma has_shape_transpose m n A :
  has_shape m n A = true -> (0 < m)%nat -> has_shape n m (transpose A) = true.
Proof.
  intros H Hm. pose proof (has_shape_ncols _ _ _ H Hm) as Hc.
  apply has_shape_spec in H. destruct H as [L F].
  apply has_shape_spec. unfold transpose. rewrite Hc. split.
  - rewrite length_map, length_seq; reflexivity.
  - apply Forall_forall. intros r Hr. apply in_map_iff in Hr.
    destruct Hr as (j & <- & _). unfold col. rewrite length_map. exact L.
Qed.

Lemma entry_transpose m n A i j :
  has_shape m n A = true -> (i < n)%nat -> (j < m)%nat ->
  entry (transpose A) i j = entry A j i.
Proof.
  intros H Hi Hj. assert (Hm : (0 < m)%nat) by lia.
  pose proof (has_shape_ncols _ _ _ H Hm) as Hc.
  pose proof (proj1 (has_shape_spec _ _ _) H) as [L _].
  unfold entry, transpose. rewrite Hc.
  rewrite (nth_map_lt _ (seq 0 n) i [] 0%nat) by (rewrite length_seq; exact Hi).
  rewrite seq_nth by exact Hi. simpl. unfold col.
  rewrite (nth_map_lt _ A j 0 []) by lia. reflexivity.
Qed.

Lemma mapM_nth {A B : Type} (f : A -> option B) l l' i d d' :
  mapM f l = Some l' -> (i < length l)%nat -> f (nth i l d) = Some (nth i l' d').
Proof.
  revert l' i; induction l as [|a l IH]; simpl; intros l' i H Hi; [lia|].
  inv_binds H. inversion H; subst. destruct i as [|i]; simpl; [assumption|].
  apply IH; [assumption|lia].
Qed.

Lemma np_div_scalar_inv a d c :
  np_div_scalar a d = Some c ->
  length c = length a /\
  forall j, (j < length a)%nat -> d <> 0 /\ nth j c 0 = nth j a 0 / d.
Proof.
  unfold np_div_scalar. intros H. split; [eapply mapM_length; exact H|].
  intros j Hj. pose proof (mapM_nth _ _ _ j 0 0 H Hj) as E.
  apply safe_div_inv in E. exact E.
Qed.

Lemma nd_div_scalar_inv m n A d C :
  nd_div_scalar A d = Some C -> has_shape m n A = true ->
  has_shape m n C = true /\
  forall i j, (i < m)%nat -> (j < n)%nat ->
    d <> 0 /\ entry C i j = entry A i j / d.
Proof.
  unfold nd_div_scalar. intros H HA.
  pose proof (proj1 (has_shape_spec _ _ _) HA) as [LA FA].
  pose proof (mapM_length _ _ _ H) as LC.
  assert (Hrow : forall i, (i < m)%nat ->
            np_div_scalar (nth i A []) d = Some (nth i C [])).
  { intros i Hi. apply (mapM_nth _ A C i [] [] H). lia. }
  split.
  - apply has_shape_spec. split; [lia|].
    apply Forall_forall. intros r Hr.
    destruct (In_nth C r [] Hr) as (i & Hi & <-).
    destruct (np_div_scalar_inv _ _ _ (Hrow i ltac:(lia))) as [L _].
    rewrite L. apply (has_shape_row m n A i HA). lia.
  - intros i j Hi Hj.
    destruct (np_div_scalar_inv _ _ _ (Hrow i Hi)) as [_ E].
    apply E. rewrite (has_shape_row m n A i HA Hi). exact Hj.
Qed.

Lemma has_shape_eye n : has_shape n n (np_eye n) = true.
Proof.
  apply has_shape_spec. unfold np_eye. split.
  - rewrite length_map, length_seq; reflexivity.
  - apply Forall_forall. intros r Hr. apply in_map_iff in Hr.
    destruct Hr as (i & <- & _). rewrite length_map, length_seq; reflexivity.
Qed.

Lemma entry_eye n i j :
  (i < n)%nat -> (j < n)%nat -> entry (np_eye n) i j = if Nat.eqb i j then 1 else 0.
Proof.
  intros Hi Hj. unfold entry, np_eye.
  rewrite (nth_map_lt _ (seq 0 n) i [] 0%nat) by (rewrite length_seq; exact Hi).
  rewrite (nth_map_lt _ (seq 0 n) j 0 0%nat) by (rewrite length_seq; exact Hj).
  rewrite !seq_nth by assumption. reflexivity.
Qed.

Lemma length_eye n : length (np_eye n) = n.
Proof. unfold np_eye. rewrite length_map, length_seq; reflexivity. Qed.

(** For a square matrix, [A.T = A] says that mirrored entries agree. *)
Lemma symmetric_entries A :
  has_shape (length A) (length A) A = true ->
  (transpose A = A <->
   forall i j, (i < length A)%nat -> (j < length A)%nat -> entry A i j = entry A j i).
Proof.
  intros HA. destruct A as [|r A'] eqn:EA.
  - split; [intros _ i j Hi; simpl in Hi; lia|reflexivity].
  - rewrite <- EA in *. assert (Hn : (0 < length A)%nat) by (rewrite EA; simpl; lia).
    pose proof (has_shape_transpose _ _ _ HA Hn) as HT.
    split.
    + intros E i j Hi Hj. rewrite <- E at 1.
      apply (entry_transpose _ _ _ _ _ HA); assumption.
    + intros E. apply (mat_ext _ _ _ _ HT HA).
      intros i j Hi Hj. rewrite (entry_transpose _ _ _ _ _ HA) by assumption.
      symmetry; apply E; assumption.
Qed.

Lemma symmetric_eye n : symmetric (np_eye n).
Proof.
  unfold symmetric. rewrite length_eye. split; [apply has_shape_eye|].
  apply symmetric_entries; rewrite length_eye; [apply has_shape_eye|].
  intros i j Hi Hj. rewrite !entry_eye by assumption.
  rewrite (Nat.eqb_sym j i). reflexivity.
Qed.

(** ** The quasi-Newton update, entry by entry *)

Lemma np_binop_inv {A : Type} (f : A -> A -> A) a b c :
  np_binop f a b = Some c ->
  length a = length b /\ length c = length a /\ c = zip_with f a b.
Proof.
  unfold np_binop. destruct (Nat.eqb_spec (length a) (length b)) as [E|E]; [|discriminate].
  intros H; inversion H; subst. rewrite zip_with_length. repeat split; auto; lia.
Qed.

Lemma np_binop_Some {A : Type} (f : A -> A -> A) a b :
  length a = length b -> np_binop f a b = Some (zip_with f a b).
Proof. intros E. unfold np_binop. rewrite E, Nat.eqb_refl. reflexivity. Qed.

Lemma np_inner_inv a b r :
  np_inner a b = Some r -> length a = length b /\ r = dot a b.
Proof.
  unfold np_inner. destruct (Nat.eqb_spec (length a) (length b)) as [E|E]; [|discriminate].
  intros H; inversion H; auto.
Qed.

Lemma has_shape_unique m n n' A :
  has_shape m n A = true -> has_shape m n' A = true -> (0 < m)%nat -> n = n'.
Proof.
  intros H H' Hm.
  rewrite <- (has_shape_row m n A 0 H Hm). apply (has_shape_row m n' A 0 H' Hm).
Qed.

Lemma has_shape_length m n A : has_shape m n A = true -> length A = m.
Proof. intros H. apply has_shape_spec in H. tauto. Qed.

Lemma has_shape_square_of_outer (Hp : mat) (s : vec) :
  has_shape (length Hp) (ncols Hp) (np_outer s s) = true ->
  length Hp = length s /\ ncols Hp = length s.
Proof.
  intros H. pose proof (has_shape_outer s s) as Ho.
  pose proof (has_shape_length _ _ _ H) as L1.
  pose proof (has_shape_length _ _ _ Ho) as L2.
  assert (L : length Hp = length s) by lia.
  split; [exact L|].
  destruct Hp as [|r Hp']; [simpl in *; lia|].
  rewrite L in H. apply (has_shape_unique _ _ _ _ H Ho). rewrite <- L; simpl; lia.
Qed.

Lemma row_times_mat_inv s A r :
  row_times_mat s A = Some r ->
  length s = length A /\ r = map (fun j => dot s (col A j)) (seq 0 (ncols A)).
Proof.
  unfold row_times_mat.
  destruct (Nat.eqb_spec (length s) (length A)) as [E|E]; [|discriminate].
  destruct (has_shape (length A) (ncols A) A); [|discriminate].
  simpl. intros H; inversion H; auto.
Qed.

Lemma hessian_penalty_inv self x self' H :
  hessian_penalty self x = Some (self', H) ->
  exists gp fx grad s y,
    gradient_penalty self x = Some gp /\
    force self x = Some fx /\
    np_add gp fx = Some grad /\
    np_sub x (x_pre self) = Some s /\
    sub_pre grad (gradient_pre self) = Some y /\
    self' = set_pre self grad x H /\
    let n := length x in
    let Hp := hess_pre self in
    length s = n /\ length y = n /\
    has_shape n n Hp = true /\ has_shape n n H = true /\
    forall i j, (i < n)%nat -> (j < n)%nat ->
      dot y s <> 0 /\ quad Hp s <> 0 /\
      entry H i j = secant_entry Hp s y (dot y s) (quad Hp s) i j.
Proof.
  unfold hessian_penalty. intros E.
  inv_bind E. rename a into gp, E0 into Egp.
  inv_bind E. rename a into fx, E0 into Efx.
  inv_bind E. rename a into grad, E0 into Egrad.
  inv_bind E. rename a into s, E0 into Es.
  inv_bind E. rename a into y, E0 into Ey.
  inv_bind E. rename a into ys, E0 into Eys.
  inv_bind E. rename a into C, E0 into EC.
  inv_bind E. rename a into hs, E0 into Ehs.
  inv_bind E. rename a into hsh, E0 into Ehsh.
  inv_bind E. rename a into sh, E0 into Esh.
  inv_bind E. rename a into shs, E0 into Eshs.
  inv_bind E. rename a into D, E0 into ED.
  inv_bind E. rename a into hC, E0 into EhC.
  inv_bind E. rename a into hess', E0 into Ehess.
  inversion E; subst self' hess'; clear E.
  exists gp, fx, grad, s, y. repeat (split; [assumption || reflexivity|]).
  cbv zeta.
  destruct (np_binop_inv _ _ _ _ Es) as (Lx & Ls & _).
  destruct (np_inner_inv _ _ _ Eys) as (Ly & ->).
  destruct (nd_binop_inv _ _ _ _ Ehs) as (SHp & SO & Shs & ->).
  destruct (has_shape_square_of_outer _ _ SO) as (LHp & CHp).
  rewrite LHp, CHp in *. rewrite Ls in *.
  set (n := length x) in *.
  destruct (row_times_mat_inv _ _ _ Esh) as (_ & ->).
  destruct (np_inner_inv _ _ _ Eshs) as (_ & ->).
  fold (quad (hess_pre self) s) in ED.
  destruct (nd_binop_inv _ _ _ _ Ehsh) as (_ & ST & Shsh & ->).
  rewrite zip_with_length in ST, Shsh.
  rewrite (has_shape_length _ _ _ SHp), (has_shape_length _ _ _ SO), Nat.min_id in ST, Shsh.
  assert (Sncols : forall A : mat, has_shape n n A = true -> ncols A = n).
  { intros A HA. destruct (Nat.eq_dec n 0) as [Z|Z].
    - apply has_shape_length in HA. rewrite Z in HA. destruct A; [rewrite Z; reflexivity|discriminate].
    - apply (has_shape_ncols n n); [exact HA|lia]. }
  rewrite (Sncols _ Shs) in ST, Shsh.
  pose proof (has_shape_outer y y) as SYY. rewrite Ly in SYY.
  destruct (nd_div_scalar_inv n n _ _ _ EC SYY) as (SC & HC).
  destruct (nd_div_scalar_inv n n _ _ _ ED Shsh) as (SD & HD).
  destruct (nd_binop_inv _ _ _ _ EhC) as (_ & _ & ShC & ->).
  rewrite LHp, CHp in ShC.
  destruct (nd_binop_inv _ _ _ _ Ehess) as (_ & _ & SH & ->).
  rewrite (has_shape_length _ _ _ ShC), (Sncols _ ShC) in SH.
  repeat (split; [assumption || lia|]).
  intros i j Hi Hj.
  destruct (HC i j Hi Hj) as (Nys & EntC).
  destruct (HD i j Hi Hj) as (Nshs & EntD).
  split; [exact Nys|]. split; [exact Nshs|].
  rewrite (entry_zip_with Rminus n n) by assumption.
  rewrite (entry_zip_with Rplus n n) by assumption.
  rewrite EntC, EntD.
  rewrite (entry_zip_with Rmult n n) by assumption.
  rewrite (entry_zip_with Rmult n n) by (assumption || apply has_shape_outer || idtac).
  rewrite (entry_transpose n n) by assumption.
  rewrite !entry_outer by lia.
  reflexivity.
Qed.

(** ** Symmetry of the stored Hessian approximation *)

Lemma hessian_penalty_symmetric self x self' H :
  symmetric (hess_pre self) ->
  hessian_penalty self x = Some (self', H) ->
  symmetric H /\ hess_pre self' = H.
Proof.
  intros [SqP TP] E.
  destruct (hessian_penalty_inv _ _ _ _ E)
    as (gp & fx & grad & s & y & _ & _ & _ & _ & _ & -> & Ls & Ly & SHp & SH & Ent).
  split; [|reflexivity].
  pose proof (has_shape_length _ _ _ SHp) as LP.
  pose proof (has_shape_length _ _ _ SH) as LH.
  unfold symmetric. rewrite LH. split; [exact SH|].
  apply symmetric_entries; rewrite LH; [exact SH|].
  intros i j Hi Hj.
  destruct (Ent i j Hi Hj) as (_ & _ & ->).
  destruct (Ent j i Hj Hi) as (_ & _ & ->).
  assert (Eij : entry (hess_pre self) i j = entry (hess_pre self) j i).
  { apply symmetric_entries; rewrite ?LP; assumption. }
  unfold secant_entry. rewrite Eij. unfold Rdiv. ring.
Qed.

Lemma init_inv ext pen ef m nu self :
  init ext pen ef m nu = Some self ->
  exists M A0 L Minv B Lap,
    assemble_lumped_mass ext m = Some M /\
    face_area m = Some A0 /\
    assemble_laplacian ext m = Some L /\
    sp_inv ext M = Some Minv /\
    (LtM <- sp_mul (transpose L) Minv ;; sp_mul LtM L) = Some B /\
    sp_mul Minv L = Some Lap /\
    self = {| mesh := m; init_M := M; At0 := A0; hess := block_diag3 B;
              laplacian := Lap; penalty := pen; nu_grad_size := nu;
              x0 := flatten_F (vertices m); pressure := ef;
              gradient_pre := Scalar 0;
              x_pre := np_zeros (size_vertices m);
              hess_pre := np_eye (size_vertices m) |}.
Proof.
  unfold init. intros E.
  inv_bind E. rename a into M, E0 into EM.
  inv_bind E. rename a into A0, E0 into EA.
  inv_bind E. rename a into L, E0 into EL.
  inv_bind E. rename a into Minv, E0 into EMinv.
  inv_bind E. rename a into LtM, E0 into ELtM.
  inv_bind E. rename a into B, E0 into EB.
  inv_bind E. rename a into Minv', E0 into EMinv'.
  inv_bind E. rename a into Lap, E0 into ELap.
  inversion E; subst; clear E.
  assert (Minv' = Minv) by congruence. subst Minv'.
  exists M, A0, L, Minv, B, Lap. repeat (split; [assumption|]).
  split; [rewrite ELtM; exact EB|]. split; [assumption|reflexivity].
Qed.

(** C7. The stored approximation is symmetric after construction (it
    is the identity), every [hessian_penalty] call that returns a
    matrix (its denominators are then nonzero) maps a symmetric
    [hess_pre] to a symmetric returned matrix and stores that matrix,
    and so every matrix returned along any sequence of such calls on a
    constructed object is symmetric. *)
Theorem hess_pre_symmetric_invariant ext pen ef m nu self0 :
  init ext pen ef m nu = Some self0 ->
  symmetric (hess_pre self0) /\
  (forall self x self' H,
      symmetric (hess_pre self) -> hessian_penalty self x = Some (self', H) ->
      symmetric H /\ hess_pre self' = H /\
      (x <> [] -> exists s y, np_sub x (x_pre self) = Some s /\
                              length y = length x /\
                              dot y s <> 0 /\ quad (hess_pre self) s <> 0)) /\
  (forall xs self' Hs,
      hessian_penalty_calls self0 xs = Some (self', Hs) ->
      Forall symmetric Hs /\ symmetric (hess_pre self')).
Proof.
  intros E0.
  destruct (init_inv _ _ _ _ _ _ E0) as (M & A0 & L & Minv & B & Lap & _ & _ & _ & _ & _ & _ & ->).
  cbn [hess_pre].
  split; [apply symmetric_eye|]. split.
  - intros self x self' H S E.
    destruct (hessian_penalty_symmetric _ _ _ _ S E) as [SH EH].
    split; [exact SH|]. split; [exact EH|].
    intros Hx.
    destruct (hessian_penalty_inv _ _ _ _ E)
      as (gp & fx & grad & s & y & _ & _ & _ & Es & _ & _ & Ls & Ly & _ & _ & Ent).
    exists s, y. split; [exact Es|]. split; [exact Ly|].
    assert (Hn : (0 < length x)%nat) by (destruct x; [contradiction|simpl; lia]).
    destruct (Ent 0%nat 0%nat Hn Hn) as (N1 & N2 & _). auto.
  - generalize (symmetric_eye (size_vertices m)).
    generalize (np_eye (size_vertices m)) as Hp0.
    generalize (np_zeros (size_vertices m)) as xp0.
    generalize (Scalar 0) as gp0.
    intros gp0 xp0 Hp0 S0 xs.
    set (self0 := {| mesh := m; hess_pre := Hp0 |}).
    assert (S : symmetric (hess_pre self0)) by exact S0.
    clearbody self0. clear S0 E0.
    revert self0 S. induction xs as [|x xs IH]; intros self S self' Hs E; simpl in E.
    + inversion E; subst. split; [constructor|exact S].
    + apply bind_Some in E. destruct E as ([self1 H1] & Ecall & E).
      apply bind_Some in E. destruct E as ([self2 Hs'] & Erest & E).
      inversion E; subst; clear E.
      destruct (hessian_penalty_symmetric _ _ _ _ S Ecall) as [SH EH].
      destruct (IH self1 ltac:(rewrite EH; exact SH) _ _ Erest) as [F S'].
      split; [constructor; assumption|exact S'].
Qed.

(** ** Finite sums *)

Lemma sum_n_S n f : sum_n (S n) f = f 0%nat + sum_n n (fun k => f (S k)).
Proof.
  unfold sum_n. simpl. f_equal. rewrite <- seq_shift, map_map. reflexivity.
Qed.

Lemma sum_n_0 f : sum_n 0 f = 0.
Proof. reflexivity. Qed.

Lemma sum_n_ext n f g :
  (forall k, (k < n)%nat -> f k = g k) -> sum_n n f = sum_n n g.
Proof.
  revert f g; induction n as [|n IH]; intros f g H; [reflexivity|].
  rewrite !sum_n_S. rewrite (H 0%nat) by lia. f_equal.
  apply IH. intros k Hk. apply H. lia.
Qed.

Lemma sum_n_plus n f g : sum_n n (fun k => f k + g k) = sum_n n f + sum_n n g.
Proof.
  revert f g; induction n as [|n IH]; intros f g.
  - rewrite !sum_n_0. ring.
  - rewrite !sum_n_S, IH. ring.
Qed.

Lemma sum_n_mult_r n f c : sum_n n f * c = sum_n n (fun k => f k * c).
Proof.
  revert f; induction n as [|n IH]; intros f.
  - rewrite !sum_n_0. ring.
  - rewrite !sum_n_S, <- IH. ring.
Qed.

Lemma sum_n_mult_l n f c : c * sum_n n f = sum_n n (fun k => c * f k).
Proof.
  revert f; induction n as [|n IH]; intros f.
  - rewrite !sum_n_0. ring.
  - rewrite !sum_n_S, <- IH. ring.
Qed.

Lemma sum_n_zero n : sum_n n (fun _ => 0) = 0.
Proof.
  induction n as [|n IH]; [reflexivity|]. rewrite sum_n_S, IH. ring.
Qed.

Lemma sum_n_swap m n (f : nat -> nat -> R) :
  sum_n m (fun i => sum_n n (fun j => f i j)) =
  sum_n n (fun j => sum_n m (fun i => f i j)).
Proof.
  revert f; induction m as [|m IH]; intros f.
  - rewrite sum_n_0. symmetry. apply sum_n_zero.
  - rewrite sum_n_S, IH, <- sum_n_plus.
    apply sum_n_ext. intros j _. rewrite sum_n_S. reflexivity.
Qed.

Lemma dot_sum_n a b n :
  length a = n -> length b = n ->
  dot a b = sum_n n (fun k => nth k a 0 * nth k b 0).
Proof.
  revert b n; induction a as [|x a IH]; intros [|y b] [|n] La Lb; simpl in *; try discriminate.
  - reflexivity.
  - rewrite sum_n_S. unfold dot in *. simpl. f_equal.
    apply IH; lia.
Qed.

Lemma length_col A j : length (col A j) = length A.
Proof. unfold col. apply length_map. Qed.

Lemma nth_col A i j : (i < length A)%nat -> nth i (col A j) 0 = entry A i j.
Proof.
  intros H. unfold col, entry.
  apply (nth_map_lt (fun r => nth j r 0) A i 0 [] H).
Qed.

(** Product of square sparse matrices: defined, square, and with the
    usual entries. *)
Lemma sp_mul_square n A B :
  has_shape n n A = true -> has_shape n n B = true ->
  exists C, sp_mul A B = Some C /\ has_shape n n C = true /\
    forall i j, (i < n)%nat -> (j < n)%nat ->
      entry C i j = sum_n n (fun k => entry A i k * entry B k j).
Proof.
  intros HA HB.
  pose proof (has_shape_length _ _ _ HA) as LA.
  pose proof (has_shape_length _ _ _ HB) as LB.
  assert (CB : ncols B = n).
  { destruct (Nat.eq_dec n 0) as [Z|Z].
    - rewrite Z in LB. destruct B; [rewrite Z; reflexivity|discriminate].
    - apply (has_shape_ncols n n); [exact HB|lia]. }
  unfold sp_mul. rewrite LA, LB, CB, HA, HB. simpl.
  eexists. split; [reflexivity|]. split.
  - apply has_shape_spec. split; [rewrite length_map; exact LA|].
    apply Forall_forall. intros r Hr. apply in_map_iff in Hr.
    destruct Hr as (r0 & <- & _). rewrite length_map, length_seq. reflexivity.
  - intros i j Hi Hj. unfold entry at 1.
    rewrite (nth_map_lt _ A i [] []) by lia.
    rewrite (nth_map_lt _ (seq 0 n) j 0 0%nat) by (rewrite length_seq; exact Hj).
    rewrite seq_nth by exact Hj. simpl.
    rewrite (dot_sum_n _ _ n).
    + apply sum_n_ext. intros k Hk. rewrite nth_col by lia. reflexivity.
    + apply (has_shape_row n n A i HA Hi).
    + rewrite length_col. exact LB.
Qed.

(** ** The bending Hessian *)

Lemma nth_app3 {A : Type} (l0 l1 l2 : list A) V a i d :
  length l0 = V -> length l1 = V -> length l2 = V ->
  (a < 3)%nat -> (i < V)%nat ->
  nth (a * V + i) (l0 ++ l1 ++ l2) d = nth i (nth a [l0; l1; l2] []) d.
Proof.
  intros L0 L1 L2 Ha Hi.
  destruct a as [|[|[|a]]]; [| | |lia]; simpl.
  - apply app_nth1. lia.
  - rewrite app_nth2 by lia. rewrite app_nth1 by lia. f_equal. lia.
  - rewrite app_nth2 by lia. rewrite app_nth2 by lia. f_equal. lia.
Qed.

Lemma square_ncols n (A : mat) : has_shape n n A = true -> ncols A = n.
Proof.
  intros HA. destruct (Nat.eq_dec n 0) as [Z|Z].
  - apply has_shape_length in HA. rewrite Z in HA.
    destruct A; [rewrite Z; reflexivity|discriminate].
  - apply (has_shape_ncols n n); [exact HA|lia].
Qed.

Lemma has_shape_block_diag3 V B :
  has_shape V V B = true -> has_shape (3 * V) (3 * V) (block_diag3 B) = true.
Proof.
  intros HB. pose proof (square_ncols _ _ HB) as CB.
  pose proof (proj1 (has_shape_spec _ _ _) HB) as [LB FB].
  rewrite Forall_forall in FB.
  apply has_shape_spec. unfold block_diag3. rewrite CB. split.
  - rewrite !length_app, !length_map. lia.
  - rewrite !Forall_app. repeat split; apply Forall_forall; intros r Hr;
      apply in_map_iff in Hr; destruct Hr as (r0 & <- & Hr0);
      rewrite !length_app; unfold np_zeros; rewrite !repeat_length, (FB r0 Hr0); lia.
Qed.

Lemma entry_block_diag3 V B a b i j :
  has_shape V V B = true ->
  (a < 3)%nat -> (b < 3)%nat -> (i < V)%nat -> (j < V)%nat ->
  entry (block_diag3 B) (a * V + i) (b * V + j) =
  if Nat.eqb a b then entry B i j else 0.
Proof.
  intros HB Ha Hb Hi Hj. pose proof (square_ncols _ _ HB) as CB.
  pose proof (has_shape_length _ _ _ HB) as LB.
  pose proof (has_shape_row V V B i HB Hi) as LR.
  unfold entry, block_diag3. rewrite CB.
  rewrite (nth_app3 _ _ _ V a i) by (rewrite ?length_map; lia).
  assert (Z : forall k, nth k (np_zeros V) 0 = 0).
  { intros k. unfold np_zeros. apply nth_repeat. }
  assert (LZ : length (np_zeros V) = V) by apply repeat_length.
  destruct a as [|[|[|a]]]; [| | |lia]; cbn [nth];
    rewrite (nth_map_lt _ B i [] []) by lia;
    rewrite (nth_app3 _ _ _ V b j) by assumption;
    destruct b as [|[|[|b]]]; try lia; cbn [nth Nat.eqb]; rewrite ?Z; reflexivity.
Qed.

Lemma index_split V k :
  (k < 3 * V)%nat -> exists a i, (a < 3)%nat /\ (i < V)%nat /\ k = (a * V + i)%nat.
Proof.
  intros H.
  destruct (Nat.lt_ge_cases k V) as [H0|H0]; [exists 0%nat, k; lia|].
  destruct (Nat.lt_ge_cases k (2 * V)) as [H1|H1].
  - exists 1%nat, (k - V)%nat. lia.
  - exists 2%nat, (k - 2 * V)%nat. lia.
Qed.

Lemma sp_matvec_square n A x :
  has_shape n n A = true -> length x = n ->
  sp_matvec A x =
  Some (map (fun i => sum_n n (fun j => entry A i j * nth j x 0)) (seq 0 n)).
Proof.
  intros HA Lx. pose proof (square_ncols _ _ HA) as CA.
  pose proof (has_shape_length _ _ _ HA) as LA.
  unfold sp_matvec. rewrite Lx, LA, HA, CA, Nat.eqb_refl. simpl. f_equal.
  apply (list_ext_nth 0); [rewrite !length_map, length_seq; exact LA|].
  intros i Hi. rewrite length_map, LA in Hi.
  rewrite (nth_map_lt _ A i 0 []) by lia.
  rewrite (nth_map_lt _ (seq 0 n) i 0 0%nat) by (rewrite length_seq; exact Hi).
  rewrite seq_nth by exact Hi. simpl.
  apply dot_sum_n; [apply (has_shape_row n n A i HA Hi)|exact Lx].
Qed.

Lemma quad_sum_n n A x :
  has_shape n n A = true -> length x = n ->
  quad A x = sum_n n (fun i => sum_n n (fun j => nth i x 0 * entry A i j * nth j x 0)).
Proof.
  intros HA Lx. pose proof (square_ncols _ _ HA) as CA.
  pose proof (has_shape_length _ _ _ HA) as LA.
  unfold quad. rewrite CA.
  rewrite (dot_sum_n _ x n) by (rewrite ?length_map, ?length_seq; auto).
  rewrite sum_n_swap. apply sum_n_ext. intros j Hj.
  rewrite (nth_map_lt _ (seq 0 n) j 0 0%nat) by (rewrite length_seq; exact Hj).
  rewrite seq_nth by exact Hj. simpl.
  rewrite (dot_sum_n _ _ n) by (rewrite ?length_col; auto).
  rewrite sum_n_mult_r. apply sum_n_ext. intros i Hi.
  rewrite nth_col by lia. reflexivity.
Qed.

Lemma obj_func_bending_square self x :
  has_shape (length x) (length x) (hess self) = true ->
  obj_func_bending self x = Some (quad (hess self) x / 2).
Proof.
  intros HA. pose proof (square_ncols _ _ HA) as CA.
  pose proof (has_shape_length _ _ _ HA) as LA.
  unfold obj_func_bending, row_times_mat, row_times_col, np_inner.
  rewrite LA, CA, Nat.eqb_refl, HA. simpl.
  rewrite length_map, length_seq, Nat.eqb_refl. simpl.
  unfold quad. rewrite CA. reflexivity.
Qed.

Lemma has_shape_transpose_square n A :
  has_shape n n A = true -> has_shape n n (transpose A) = true.
Proof.
  intros HA. destruct (Nat.eq_dec n 0) as [Z|Z].
  - pose proof (has_shape_length _ _ _ HA) as LA. rewrite Z in LA.
    destruct A; [|discriminate]. rewrite Z. reflexivity.
  - apply has_shape_transpose; [exact HA|lia].
Qed.

Lemma bending_block_product V L Minv :
  has_shape V V L = true -> has_shape V V Minv = true ->
  exists B,
    (LtM <- sp_mul (transpose L) Minv ;; sp_mul LtM L) = Some B /\
    has_shape V V B = true /\
    forall i j, (i < V)%nat -> (j < V)%nat -> entry B i j = bending_block L Minv V i j.
Proof.
  intros HL HM.
  pose proof (has_shape_transpose_square _ _ HL) as HT.
  destruct (sp_mul_square V _ _ HT HM) as (LtM & E1 & S1 & Ent1).
  destruct (sp_mul_square V _ _ S1 HL) as (B & E2 & S2 & Ent2).
  exists B. rewrite E1. simpl. split; [exact E2|]. split; [exact S2|].
  intros i j Hi Hj. rewrite (Ent2 i j Hi Hj). unfold bending_block.
  rewrite sum_n_swap. apply sum_n_ext. intros l Hl.
  rewrite (Ent1 i l Hi Hl), sum_n_mult_r.
  apply sum_n_ext. intros k Hk.
  rewrite (entry_transpose V V L i k HL Hi Hk). reflexivity.
Qed.

(** C4. With a V x V Laplacian L and a V x V inverse mass matrix from
    the libraries, construction succeeds and stores as [hess] the
    3V x 3V block-diagonal matrix of three copies of L^t Minv L; for
    every x of length 3V, [obj_func_bending] is half the quadratic
    form of [hess] at x and [gradient_bending] is the product of
    [hess] with x; a Hessian call, the only call that changes the
    object, leaves [hess] as it was. *)
Theorem bending_energy_and_gradient ext pen ef m nu M L Minv A0 :
  let V := length (vertices m) in
  let N := (3 * V)%nat in
  assemble_lumped_mass ext m = Some M ->
  assemble_laplacian ext m = Some L ->
  sp_inv ext M = Some Minv ->
  face_area m = Some A0 ->
  has_shape V V L = true ->
  has_shape V V Minv = true ->
  exists self,
    init ext pen ef m nu = Some self /\
    has_shape N N (hess self) = true /\
    (forall a b i j, (a < 3)%nat -> (b < 3)%nat -> (i < V)%nat -> (j < V)%nat ->
       entry (hess self) (a * V + i) (b * V + j) =
       if Nat.eqb a b then bending_block L Minv V i j else 0) /\
    (forall x, length x = N ->
       obj_func_bending self x =
         Some (sum_n N (fun i => sum_n N (fun j =>
                 nth i x 0 * entry (hess self) i j * nth j x 0)) / 2) /\
       gradient_bending self x =
         Some (map (fun i => sum_n N (fun j => entry (hess self) i j * nth j x 0))
                   (seq 0 N))) /\
    (forall self1 x self' H,
       hessian self1 x = Some (self', H) -> hess self' = hess self1).
Proof.
  intros V N EM EL EMinv EA HL HM.
  destruct (bending_block_product V L Minv HL HM) as (B & EB & SB & EntB).
  destruct (sp_mul_square V _ _ HM HL) as (Lap & ELap & _ & _).
  apply bind_Some in EB. destruct EB as (LtM & ELtM & EB).
  eexists. split.
  { unfold init. rewrite EM. cbn [bind]. rewrite EA. cbn [bind]. rewrite EL. cbn [bind].
    rewrite EMinv. cbn [bind]. rewrite ELtM. cbn [bind]. rewrite EB. cbn [bind].
    rewrite ELap. cbn [bind]. reflexivity. }
  cbn [hess].
  pose proof (has_shape_block_diag3 V B SB) as SH. fold N in SH.
  split; [exact SH|]. split; [|split].
  - intros a b i j Ha Hb Hi Hj.
    rewrite (entry_block_diag3 V B a b i j SB Ha Hb Hi Hj).
    destruct (Nat.eqb a b); [apply EntB; assumption|reflexivity].
  - intros x Lx. split.
    + rewrite obj_func_bending_square by (cbn [hess]; rewrite Lx; exact SH).
      cbn [hess]. rewrite (quad_sum_n N) by assumption. reflexivity.
    + unfold gradient_bending. cbn [hess]. apply sp_matvec_square; assumption.
  - intros self1 x self' H E.
    destruct (hessian_state _ _ _ _ E) as (grad & Hp & _ & -> & _). reflexivity.
Qed.

(** ** The pressure force *)

Lemma div3_Some w d :
  d <> 0 -> div3 w d = Some (fst (fst w) / d, snd (fst w) / d, snd w / d).
Proof.
  intros H. destruct w as [[a b] c]. unfold div3.
  rewrite !(safe_div_Some _ _ H). reflexivity.
Qed.

Lemma div3_zero w : div3 w 0 = None.
Proof. destruct w as [[a b] c]. unfold div3. rewrite safe_div_zero. reflexivity. Qed.

Lemma div3_inv w d q : div3 w d = Some q -> d <> 0.
Proof.
  intros H N. subst d. rewrite div3_zero in H. discriminate.
Qed.

Lemma div3_norm3 w : norm3 w <> 0 -> div3 w (norm3 w) = Some (unit3 w).
Proof.
  intros H. rewrite (div3_Some _ _ H). destruct w as [[a b] c]. reflexivity.
Qed.

Lemma mapM_combine_map {A B C : Type} (g : A -> B -> option C) (f : A -> B) l :
  mapM (fun p => g (fst p) (snd p)) (combine l (map f l)) = mapM (fun a => g a (f a)) l.
Proof.
  induction l as [|a l IH]; simpl; [reflexivity|]. rewrite IH. reflexivity.
Qed.

Lemma sp_mul_dense3_rows V Lap X :
  has_shape V V Lap = true -> length X = V ->
  sp_mul_dense3 Lap X = Some (map (lap_row Lap X V) (seq 0 V)).
Proof.
  intros HL LX. pose proof (square_ncols _ _ HL) as CL.
  pose proof (has_shape_length _ _ _ HL) as LL.
  unfold sp_mul_dense3. rewrite LL, LX, HL, CL, Nat.eqb_refl. simpl. f_equal.
  apply (list_ext_nth zero3); [rewrite !length_map, length_seq; exact LL|].
  intros i Hi. rewrite length_map, LL in Hi.
  rewrite (nth_map_lt _ Lap i zero3 []) by lia.
  rewrite (nth_map_lt _ (seq 0 V) i zero3 0%nat) by (rewrite length_seq; exact Hi).
  rewrite seq_nth by exact Hi. simpl. unfold lap_row.
  pose proof (has_shape_row V V Lap i HL Hi) as LR.
  rewrite !(dot_sum_n _ _ V) by (rewrite ?length_map; assumption).
  f_equal; [f_equal|]; apply sum_n_ext; intros k Hk; unfold entry; f_equal.
  - apply (nth_map_lt (fun p : vec3 => fst (fst p)) X k 0 zero3). lia.
  - apply (nth_map_lt (fun p : vec3 => snd (fst p)) X k 0 zero3). lia.
  - apply (nth_map_lt (fun p : vec3 => snd p) X k 0 zero3). lia.
Qed.

Lemma force_rows_value (self : problem) (x : vec) :
  let V := length (vertices (mesh self)) in
  length x = (3 * V)%nat ->
  has_shape V V (laplacian self) = true ->
  exists X,
    reshape_F x V = Some X /\
    let W := map (lap_row (laplacian self) X V) (seq 0 V) in
    ((forall i, (i < V)%nat -> norm3 (nth i W zero3) <> 0) ->
       force self x = Some (scale (pressure self) (flatten_F (map unit3 W)))) /\
    ((exists i, (i < V)%nat /\ norm3 (nth i W zero3) = 0) ->
       force self x = None).
Proof.
  intros V Lx HL.
  destruct (reshape_F_Some x V Lx) as (X & EX & LX).
  exists X. split; [exact EX|]. cbv zeta.
  set (W := map (lap_row (laplacian self) X V) (seq 0 V)).
  assert (LW : length W = V) by (unfold W; rewrite length_map, length_seq; reflexivity).
  assert (Estart : force self x =
            (vector <- mapM (fun w => div3 w (norm3 w)) W ;;
             vector <- (if Nat.eqb (3 * length vector) (size_vertices (mesh self))
                        then Some (flatten_F vector) else None) ;;
             Some (scale (pressure self) vector))).
  { unfold force. fold V. rewrite EX. cbn [bind].
    rewrite (sp_mul_dense3_rows V _ _ HL LX). cbn [bind]. fold W.
    rewrite (mapM_combine_map div3 norm3 W). reflexivity. }
  rewrite Estart. split.
  - intros Hnz.
    rewrite (mapM_map_total _ unit3).
    + cbn [bind]. unfold size_vertices. fold V.
      rewrite length_map, LW, Nat.eqb_refl. reflexivity.
    + apply Forall_forall. intros w Hw.
      destruct (In_nth W w zero3 Hw) as (i & Hi & <-).
      apply div3_norm3. apply Hnz. lia.
  - intros (i & Hi & Hz).
    rewrite (mapM_None _ W (nth i W zero3)); [reflexivity| |].
    + apply nth_In. lia.
    + rewrite Hz. apply div3_zero.
Qed.

(** C6. For x of length 3V and a V x V operator Lap = Minv L, let W
    be the rows of Lap times the column-major reshape of x.  If every
    row of W has nonzero norm, [force] is the pressure times the
    column-major flattening of the rows of W scaled to unit length;
    if some row has zero norm, the division is undefined and [force]
    delivers nothing.  On a constructed object Lap is the product of
    the inverse lumped mass matrix with the Laplacian. *)
Theorem force_formula (self : problem) (x : vec) :
  let V := length (vertices (mesh self)) in
  length x = (3 * V)%nat ->
  has_shape V V (laplacian self) = true ->
  exists X,
    reshape_F x V = Some X /\
    let W := map (lap_row (laplacian self) X V) (seq 0 V) in
    ((forall i, (i < V)%nat -> norm3 (nth i W zero3) <> 0) ->
       force self x = Some (scale (pressure self) (flatten_F (map unit3 W)))) /\
    ((exists i, (i < V)%nat /\ norm3 (nth i W zero3) = 0) ->
       force self x = None) /\
    (forall ext pen ef m nu,
       init ext pen ef m nu = Some self ->
       exists M L Minv,
         assemble_lumped_mass ext m = Some M /\
         assemble_laplacian ext m = Some L /\
         sp_inv ext M = Some Minv /\
         sp_mul Minv L = Some (laplacian self)).
Proof.
  intros V Lx HL.
  destruct (force_rows_value self x Lx HL) as (X & EX & Hsome & Hnone).
  exists X. split; [exact EX|]. cbv zeta. split; [exact Hsome|]. split; [exact Hnone|].
  intros ext pen ef m nu E.
  destruct (init_inv _ _ _ _ _ _ E) as (M & A0 & L & Minv & B & Lap & EM & _ & EL & EMinv & _ & ELap & ->).
  exists M, L, Minv. repeat (split; [assumption|]). exact ELap.
Qed.


(** ** Shapes of the gradient terms *)

Lemma foldM_invariant {A S : Type} (P : S -> Prop) (f : S -> A -> option S) l s0 s :
  (forall s1 a s2, P s1 -> f s1 a = Some s2 -> P s2) ->
  P s0 -> foldM f l s0 = Some s -> P s.
Proof.
  intros Hstep. revert s0. induction l as [|a l IH]; simpl; intros s0 H0 E.
  - inversion E; subst; exact H0.
  - inv_bind E. eapply IH; [|exact E]. eapply Hstep; eauto.
Qed.

Lemma set_slice3_length a i av a' :
  set_slice3 a i av = Some a' -> length a' = length a.
Proof.
  unfold set_slice3. destruct (Nat.leb_spec (i + 3) (length a)) as [H|H]; [|discriminate].
  destruct av as [[a0 a1] a2]. intros E; inversion E; subst.
  rewrite length_app, length_firstn. cbn [app length]. rewrite length_skipn. lia.
Qed.

Lemma gradient_penalty_inv self x g :
  gradient_penalty self x = Some g ->
  let V := length (vertices (mesh self)) in
  let fs := faces (mesh self) in
  exists X fn Nf At a,
    reshape_F x V = Some X /\
    face_normal (form_mesh X fs) = Some fn /\
    reshape_C fn (length fs) = Some Nf /\
    face_area (form_mesh X fs) = Some At /\
    foldM (fun a v =>
             adj_faces <- get_face_adjacent_faces (form_mesh X fs) v ;;
             av <- vertex_sum X Nf fs At (At0 self) v (length adj_faces) ;;
             set_slice3 a (3 * v) av)
          (seq 0 V) (np_zeros (length x)) = Some a /\
    g = scale (penalty self) a.
Proof.
  unfold gradient_penalty. intros E. cbv zeta.
  inv_bind E. rename a into X, E0 into EX.
  inv_bind E. rename a into fn, E0 into Efn.
  inv_bind E. rename a into Nf, E0 into ENf.
  inv_bind E. rename a into At, E0 into EAt.
  inv_bind E. rename E0 into Ea.
  inversion E; subst; clear E.
  exists X, fn, Nf, At, a. repeat split; assumption.
Qed.

Lemma gradient_penalty_length self x g :
  gradient_penalty self x = Some g -> length g = length x.
Proof.
  intros E.
  destruct (gradient_penalty_inv _ _ _ E) as (X & fn & Nf & At & a & _ & _ & _ & _ & Ea & ->).
  unfold scale. rewrite length_map.
  eapply (foldM_invariant (fun a => length a = length x)); [| |exact Ea].
  - intros s1 v s2 L1 Es. inv_binds Es.
    rewrite (set_slice3_length _ _ _ _ Es). exact L1.
  - unfold np_zeros. apply repeat_length.
Qed.

Lemma force_inv self x c :
  force self x = Some c ->
  exists X W U,
    reshape_F x (length (vertices (mesh self))) = Some X /\
    sp_mul_dense3 (laplacian self) X = Some W /\
    mapM (fun w => div3 w (norm3 w)) W = Some U /\
    length U = length (vertices (mesh self)) /\
    c = scale (pressure self) (flatten_F U).
Proof.
  unfold force. intros E.
  inv_bind E. rename a into X, E0 into EX.
  inv_bind E. rename a into W, E0 into EW.
  inv_bind E. rename a into U, E0 into EU.
  inv_bind E. rename a into u, E0 into Eu.
  inversion E; subst; clear E.
  rewrite (mapM_combine_map div3 norm3 W) in EU.
  unfold size_vertices in Eu.
  destruct (Nat.eqb_spec (3 * length U) (3 * length (vertices (mesh self)))) as [L|L];
    [|discriminate].
  inversion Eu; subst. exists X, W, U. repeat split; auto. lia.
Qed.

Lemma flatten_F_length U : length (flatten_F U) = (3 * length U)%nat.
Proof. unfold flatten_F. rewrite !length_app, !length_map. lia. Qed.

Lemma force_length self x c :
  force self x = Some c -> length c = length x.
Proof.
  intros E. destruct (force_inv _ _ _ E) as (X & W & U & EX & _ & _ & LU & ->).
  destruct (reshape_F_inv _ _ _ EX) as [Lx _].
  unfold scale. rewrite length_map, flatten_F_length. lia.
Qed.

(** ** Combined objective and gradient *)

Lemma sqrt_zero_iff a : 0 <= a -> sqrt a = 0 -> a = 0.
Proof. intros H E. apply sqrt_eq_0; assumption. Qed.

Lemma dot3_self_nonneg w : 0 <= dot3 w w.
Proof. destruct w as [[a b] c]. simpl. nra. Qed.

Lemma norm3_zero_iff w : norm3 w = 0 <-> w = zero3.
Proof.
  unfold norm3, zero3. split.
  - intros E. apply sqrt_zero_iff in E; [|apply dot3_self_nonneg].
    destruct w as [[a b] c]. simpl in E.
    assert (a = 0) by nra. assert (b = 0) by nra. assert (c = 0) by nra.
    subst; reflexivity.
  - intros ->. simpl. replace (0 * 0 + 0 * 0 + 0 * 0) with 0 by ring. apply sqrt_0.
Qed.

Lemma unit_nonzero w u : div3 w (norm3 w) = Some u -> u <> zero3.
Proof.
  intros E Hu. pose proof (div3_inv _ _ _ E) as Hn.
  rewrite (div3_Some _ _ Hn) in E. inversion E as [E']. subst u.
  apply Hn. apply norm3_zero_iff.
  destruct w as [[a b] c]. unfold zero3 in *. simpl in E'.
  injection E' as Ea Eb Ec.
  assert (forall t, t / norm3 (a, b, c) = 0 -> t = 0) as Z.
  { intros t Ht. unfold Rdiv in Ht. apply Rmult_integral in Ht.
    destruct Ht as [Ht|Ht]; [exact Ht|].
    exfalso. revert Ht. apply Rinv_neq_0_compat. exact Hn. }
  rewrite (Z a Ea), (Z b Eb), (Z c Ec). reflexivity.
Qed.

Lemma flatten_F_nonzero U :
  (exists u, In u U /\ u <> zero3) ->
  exists i, (i < 3 * length U)%nat /\ nth i (flatten_F U) 0 <> 0.
Proof.
  intros (u & Hin & Hu).
  destruct (In_nth U u zero3 Hin) as (k & Hk & Ek).
  destruct u as [[p q] r].
  assert (p <> 0 \/ q <> 0 \/ r <> 0) as [H|[H|H]].
  { destruct (Req_dec_T p 0) as [->|]; [|auto].
    destruct (Req_dec_T q 0) as [->|]; [|auto].
    destruct (Req_dec_T r 0) as [->|]; [|auto].
    exfalso; apply Hu; reflexivity. }
  - exists (0 * length U + k)%nat. split; [lia|].
    unfold flatten_F. rewrite (nth_app3 _ _ _ (length U) 0 k) by (rewrite ?length_map; lia).
    cbn [nth].
    rewrite (nth_map_lt (fun p : vec3 => fst (fst p)) U k 0 zero3 Hk), Ek. exact H.
  - exists (1 * length U + k)%nat. split; [lia|].
    unfold flatten_F. rewrite (nth_app3 _ _ _ (length U) 1 k) by (rewrite ?length_map; lia).
    cbn [nth].
    rewrite (nth_map_lt (fun p : vec3 => snd (fst p)) U k 0 zero3 Hk), Ek. exact H.
  - exists (2 * length U + k)%nat. split; [lia|].
    unfold flatten_F. rewrite (nth_app3 _ _ _ (length U) 2 k) by (rewrite ?length_map; lia).
    cbn [nth].
    rewrite (nth_map_lt (@snd (R * R) R) U k 0 zero3 Hk), Ek. exact H.
Qed.

(** The force is the pressure times a direction field that does not
    depend on the pressure and, on a mesh with vertices, is not zero. *)
Lemma force_direction self x c :
  force self x = Some c ->
  exists u,
    length u = length x /\
    (forall p, force (with_pressure self p) x = Some (scale p u)) /\
    c = scale (pressure self) u /\
    ((0 < length (vertices (mesh self)))%nat ->
       exists i, (i < length x)%nat /\ nth i u 0 <> 0).
Proof.
  intros E. destruct (force_inv _ _ _ E) as (X & W & U & EX & EW & EU & LU & ->).
  destruct (reshape_F_inv _ _ _ EX) as [Lx _].
  exists (flatten_F U). split; [rewrite flatten_F_length; lia|]. split; [|split].
  - intros p. unfold force. cbn [mesh laplacian pressure with_pressure].
    rewrite EX. cbn [bind]. rewrite EW. cbn [bind].
    rewrite (mapM_combine_map div3 norm3 W), EU. cbn [bind].
    unfold size_vertices. cbn [mesh with_pressure]. rewrite LU, Nat.eqb_refl. reflexivity.
  - reflexivity.
  - intros HV. rewrite Lx, <- LU. apply flatten_F_nonzero.
    destruct U as [|u U']; [simpl in LU; lia|].
    exists u. split; [left; reflexivity|].
    destruct W as [|w W']; [discriminate|]. simpl in EU.
    inv_bind EU. inv_bind EU. inversion EU; subst.
    eapply unit_nonzero; eassumption.
Qed.

Lemma gradient_inv self x printed g :
  gradient self x = Some (printed, g) <->
  exists a b c,
    gradient_bending self x = Some a /\
    gradient_penalty self x = Some b /\
    force self x = Some c /\
    length a = length x /\
    printed = [norm a; norm b; norm c] /\
    g = zip_with Rplus (zip_with Rplus a b) c.
Proof.
  unfold gradient. split.
  - intros E.
    inv_bind E. rename a into a0, E0 into Ea.
    inv_bind E. rename a into b, E0 into Eb.
    inv_bind E. rename a into c, E0 into Ec.
    inv_bind E. rename a into ab, E0 into Eab.
    inv_bind E. rename a into abc, E0 into Eabc.
    inversion E; subst; clear E.
    destruct (np_binop_inv _ _ _ _ Eab) as (Lab & _ & ->).
    destruct (np_binop_inv _ _ _ _ Eabc) as (_ & _ & ->).
    exists a0, b, c. repeat split; auto.
    rewrite Lab. eapply gradient_penalty_length; eassumption.
  - intros (a & b & c & Ea & Eb & Ec & La & -> & ->).
    rewrite Ea, Eb, Ec. cbn [bind].
    pose proof (gradient_penalty_length _ _ _ Eb) as Lb.
    pose proof (force_length _ _ _ Ec) as Lc.
    unfold np_add. rewrite (np_binop_Some Rplus a b) by lia. cbn [bind].
    rewrite np_binop_Some by (rewrite zip_with_length; lia). reflexivity.
Qed.

(** C3. [obj_func] is the sum of the bending and penalty energies
    and does not depend on the pressure; [gradient] is the
    entry-wise sum of [gradient_bending], [gradient_penalty] and
    [force] (and prints their norms).  On a mesh with vertices the
    returned gradient changes with the pressure while the objective
    does not, so no operator that derives a gradient from the
    objective function alone yields the returned gradient at two
    different pressures. *)
Theorem objective_without_force_gradient_with_force (self : problem) (x : vec) :
  (forall e, obj_func self x = Some e <->
     exists eb ep, obj_func_bending self x = Some eb /\
                   obj_func_penalty self x = Some ep /\ e = eb + ep) /\
  (forall p y, obj_func (with_pressure self p) y = obj_func self y) /\
  (forall printed g, gradient self x = Some (printed, g) <->
     exists a b c,
       gradient_bending self x = Some a /\
       gradient_penalty self x = Some b /\
       force self x = Some c /\
       length a = length x /\
       printed = [norm a; norm b; norm c] /\
       g = zip_with Rplus (zip_with Rplus a b) c) /\
  (forall printed g p,
     gradient self x = Some (printed, g) ->
     (0 < length (vertices (mesh self)))%nat ->
     p <> pressure self ->
     exists printed' g',
       gradient (with_pressure self p) x = Some (printed', g') /\ g' <> g /\
       forall D : (list R -> option R) -> list R -> list R,
         (forall f1 f2, (forall y, f1 y = f2 y) -> D f1 = D f2) ->
         g = D (obj_func self) x ->
         g' <> D (obj_func (with_pressure self p)) x).
Proof.
  split; [|split; [|split]].
  - intros e. unfold obj_func. split.
    + intros E. inv_binds E. inversion E; subst. eauto.
    + intros (eb & ep & -> & -> & ->). reflexivity.
  - intros p y. reflexivity.
  - intros printed g. apply gradient_inv.
  - intros printed g p E HV Hp.
    apply gradient_inv in E.
    destruct E as (a & b & c & Ea & Eb & Ec & La & -> & ->).
    destruct (force_direction _ _ _ Ec) as (u & Lu & Fp & -> & Hnz).
    destruct (Hnz HV) as (i & Hi & Hui).
    pose proof (gradient_penalty_length _ _ _ Eb) as Lb.
    set (g' := zip_with Rplus (zip_with Rplus a b) (scale p u)).
    set (g := zip_with Rplus (zip_with Rplus a b) (scale (pressure self) u)).
    assert (Eg' : gradient (with_pressure self p) x =
                  Some ([norm a; norm b; norm (scale p u)], g')).
    { apply gradient_inv. exists a, b, (scale p u). repeat split; auto. }
    assert (Hne : g' <> g).
    { intros Heq. apply Hui.
      assert (Hnth : nth i g' 0 = nth i g 0) by (rewrite Heq; reflexivity).
      unfold g', g, scale in Hnth.
      rewrite !(nth_zip_with_lt Rplus _ _ i 0 0 0) in Hnth
        by (rewrite ?zip_with_length, ?length_map; lia).
      rewrite !(nth_map_lt _ u i 0 0) in Hnth by lia.
      assert (Hm : (p - pressure self) * nth i u 0 = 0) by lra.
      apply Rmult_integral in Hm. destruct Hm as [Hm|Hm]; [lra|exact Hm]. }
    exists [norm a; norm b; norm (scale p u)], g'.
    split; [exact Eg'|]. split; [exact Hne|].
    intros D HD Hg. rewrite (HD (obj_func (with_pressure self p)) (obj_func self))
      by (intros y; reflexivity).
    rewrite <- Hg. exact Hne.
Qed.

(** ** One pass of the inner loop of [gradient_penalty] *)

Lemma foldM_steps {A S : Type} (f : S -> A -> option S) l s0 s :
  foldM f l s0 = Some s -> forall a, In a l -> exists s1 s2, f s1 a = Some s2.
Proof.
  revert s0. induction l as [|b l IH]; simpl; intros s0 E a Hin; [contradiction|].
  inv_bind E. destruct Hin as [->|Hin]; [eauto|]. eapply IH; eauto.
Qed.

Lemma sub3_zero_iff a b : sub3 a b = zero3 <-> a = b.
Proof.
  destruct a as [[a0 a1] a2], b as [[b0 b1] b2]. unfold sub3, zero3. split.
  - intros E. injection E as E0 E1 E2. f_equal; [f_equal|]; lra.
  - intros E. injection E as -> -> ->. f_equal; [f_equal|]; ring.
Qed.

Lemma quotient_negative_sign a b :
  0 <= b -> quotient_negative a b = if Rlt_dec a 0 then true else false.
Proof.
  intros Hb. unfold quotient_negative, safe_div.
  destruct (Req_dec_T b 0) as [Z|Z]; [reflexivity|].
  assert (Pb : 0 < b) by lra.
  destruct (Rlt_dec (a / b) 0) as [H1|H1]; destruct (Rlt_dec a 0) as [H2|H2];
    try reflexivity; exfalso.
  - apply H2. apply (Rmult_lt_compat_r b) in H1; [|exact Pb].
    unfold Rdiv in H1. rewrite Rmult_assoc, Rinv_l, Rmult_1_r, Rmult_0_l in H1 by lra.
    exact H1.
  - apply H1. apply Rdiv_neg_pos; assumption.
Qed.

Lemma norm3_nonneg w : 0 <= norm3 w.
Proof. unfold norm3. apply sqrt_pos. Qed.

(** The sign test of one pass decides by the sign of the dot product
    alone, whether or not its divisor is zero. *)
Lemma sign_test_value g d :
  (if quotient_negative (dot3 g d) (norm3 g * norm3 d) then neg3 g else g)
  = (if Rlt_dec (dot3 g d) 0 then neg3 g else g).
Proof.
  rewrite quotient_negative_sign
    by (apply Rmult_le_pos; apply norm3_nonneg).
  destruct (Rlt_dec (dot3 g d) 0); reflexivity.
Qed.

Lemma penalty_term_inv X Nf fs At A0 v f t :
  penalty_term X Nf fs At A0 v f = Some t ->
  exists fc t0 t1 p0 p1 n pv a a0,
    nth_error fs f = Some fc /\
    nth_error (np_setdiff1d (face_list fc) v) 0 = Some t0 /\
    nth_error (np_setdiff1d (face_list fc) v) 1 = Some t1 /\
    nth_error X t0 = Some p0 /\
    nth_error X t1 = Some p1 /\
    (exists nf, nth_error Nf f = Some nf /\ finite3 nf = Some n) /\
    nth_error X v = Some pv /\
    nth_error At f = Some a /\
    nth_error A0 f = Some a0 /\
    t = area_gradient_term n p0 p1 pv a a0 /\
    a0 <> 0.
Proof.
  unfold penalty_term. intros E.
  inv_bind E. rename a into fc, E0 into Efc.
  inv_bind E. rename a into t0, E0 into Et0.
  inv_bind E. rename a into t1, E0 into Et1.
  inv_bind E. rename a into p0, E0 into Ep0.
  inv_bind E. rename a into p1, E0 into Ep1.
  inv_bind E. rename a into nf, E0 into Enf.
  inv_bind E. rename a into n, E0 into En.
  inv_bind E. rename a into pv, E0 into Epv.
  inv_bind E. rename E0 into Ea.
  inv_bind E. rename a0 into a0, E0 into Ea0.
  rewrite sign_test_value in E.
  exists fc, t0, t1, p0, p1, n, pv, a, a0.
  repeat (split; [first [assumption | exists nf; split; assumption]|]).
  unfold area_gradient_term.
  destruct (if Rlt_dec _ 0 then _ else _) as [[g0 g1] g2].
  pose proof (div3_inv _ _ _ E) as Ha0.
  rewrite (div3_Some _ _ Ha0) in E. cbn [fst snd] in E.
  split; [congruence|exact Ha0].
Qed.

(** ** The tetrahedron, evaluated *)

(** Unfolds the program and the list and index functions it uses, and
    leaves the real arithmetic untouched. *)
Ltac np_cbv :=
  cbv [bind mapM foldM zip_with np_binop np_add np_sub scale np_div_scalar np_div
       sum dot np_inner np_zeros ncols has_shape col transpose sp_mul sp_matvec
       row_times_mat row_times_col np_eye np_outer nd_binop nd_add nd_sub nd_mul
       nd_div_scalar block_diag3 sub3 add3 scale3 neg3 dot3 cross3 zero3 zip3
       reshape_F flatten_F flatten_C reshape_C face_list face_points triangle_area
       face_area triangle_normal face_normal face_edges same_edge share_edge
       get_face_adjacent_faces insert_unique np_unique np_setdiff1d size_vertices
       vertices faces mesh At0 penalty pressure laplacian hess x_pre hess_pre
       gradient_pre init_M x0 nu_grad_size
       tetra_mesh tetra_M tetra_Minv tetra_L tetra_ext tetra_At0 tetra_laplacian
       tetra_hess_block tetra_problem tetra_x tetra_X tetra_At tetra_normals
       tetra_normals_flat tetra_a set_slice3
       flat_mesh flat_At0 flat_M flat_Minv flat_ext tetra_a_documented
       finite3 bipyramid_mesh bipyramid_At0 bipyramid_M bipyramid_Minv bipyramid_L
       bipyramid_ext bipyramid_x bipyramid_X bipyramid_At bipyramid_normals_flat
       bipyramid_normals bipyramid_a
       assemble_lumped_mass assemble_laplacian sp_inv
       nth_error nth seq length app map combine firstn skipn filter fold_right
       existsb forallb flat_map repeat
       Nat.eqb Nat.ltb Nat.leb Nat.add Nat.mul Nat.sub negb andb orb fst snd].

(** Splits an equation between arrays (or options, or points) into
    equations between their entries. *)
Ltac arr_eq :=
  repeat match goal with
         | |- Some _ = Some _ => apply f_equal
         | |- _ :: _ = _ :: _ => apply f_equal2
         | |- (_, _) = (_, _) => apply f_equal2
         | |- @nil _ = @nil _ => reflexivity
         end.

Lemma norm3_value v r : 0 <= r -> dot3 v v = r * r -> norm3 v = r.
Proof.
  intros Hr E. unfold norm3. rewrite E. apply sqrt_square. exact Hr.
Qed.

Lemma tetra_rest_areas : face_area tetra_mesh = Some tetra_At0.
Proof.
  np_cbv. arr_eq.
  - rewrite (norm3_value _ 1); [lra|lra|np_cbv; ring].
  - rewrite (norm3_value _ 2); [lra|lra|np_cbv; ring].
  - rewrite (norm3_value _ 2); [lra|lra|np_cbv; ring].
  - rewrite (norm3_value _ 3); [lra|lra|np_cbv; ring].
Qed.

Lemma tetra_init pen ef :
  init tetra_ext pen ef tetra_mesh default_nu_grad_size = Some (tetra_problem pen ef).
Proof.
  unfold init. rewrite tetra_rest_areas.
  np_cbv. apply f_equal. f_equal; arr_eq; lra.
Qed.

Lemma tetra_reshape : reshape_F tetra_x 4 = Some tetra_X.
Proof. reflexivity. Qed.

Lemma tetra_deformed_areas :
  face_area (form_mesh tetra_X (faces tetra_mesh)) = Some tetra_At.
Proof.
  np_cbv. arr_eq.
  - rewrite (norm3_value _ 2); [lra|lra|np_cbv; ring].
  - rewrite (norm3_value _ 2); [lra|lra|np_cbv; ring].
  - rewrite (norm3_value _ 1); [lra|lra|np_cbv; ring].
  - rewrite (norm3_value _ 3); [lra|lra|np_cbv; ring].
Qed.

Ltac eval_norm r :=
  rewrite (norm3_value _ r) by (first [lra | np_cbv; ring]).

Lemma tetra_deformed_normals :
  face_normal (form_mesh tetra_X (faces tetra_mesh)) = Some tetra_normals_flat.
Proof.
  np_cbv.
  eval_norm 2. eval_norm 2. eval_norm 1. eval_norm 3.
  rewrite !safe_div_Some by lra. np_cbv.
  arr_eq; lra.
Qed.

Lemma tetra_normals_reshape : reshape_C tetra_normals_flat 4 = Some tetra_normals.
Proof. reflexivity. Qed.

Lemma norm3_pos w : w <> zero3 -> 0 < norm3 w.
Proof.
  intros H. pose proof (sqrt_pos (dot3 w w)) as Hs. fold (norm3 w) in Hs.
  destruct (Req_dec_T (norm3 w) 0) as [E|E]; [|lra].
  exfalso. apply H. apply norm3_zero_iff. exact E.
Qed.

(** With its lookups in range, a finite normal and a nonzero rest
    area, one pass of the inner loop adds [area_gradient_term]: the
    sign test decides by the sign of the dot product. *)
Lemma penalty_term_value X Nf fs At A0 v f fc t0 t1 p0 p1 nf n pv a a0 :
  nth_error fs f = Some fc ->
  nth_error (np_setdiff1d (face_list fc) v) 0 = Some t0 ->
  nth_error (np_setdiff1d (face_list fc) v) 1 = Some t1 ->
  nth_error X t0 = Some p0 ->
  nth_error X t1 = Some p1 ->
  nth_error Nf f = Some nf ->
  finite3 nf = Some n ->
  nth_error X v = Some pv ->
  nth_error At f = Some a ->
  nth_error A0 f = Some a0 ->
  a0 <> 0 ->
  penalty_term X Nf fs At A0 v f = Some (area_gradient_term n p0 p1 pv a a0).
Proof.
  intros Efc Et0 Et1 Ep0 Ep1 Enf En Epv Ea Ea0 Ha0.
  unfold penalty_term. rewrite Efc. cbn [bind]. rewrite Et0, Et1. cbn [bind].
  rewrite Ep0, Ep1. cbn [bind]. rewrite Enf. cbn [bind]. rewrite En. cbn [bind].
  rewrite Epv. cbn [bind]. rewrite Ea, Ea0. cbn [bind].
  rewrite sign_test_value. unfold area_gradient_term.
  destruct (if Rlt_dec _ 0 then _ else _) as [[g0 g1] g2].
  apply div3_Some. exact Ha0.
Qed.

Ltac eval_penalty_term :=
  erewrite penalty_term_value;
  [ | reflexivity | reflexivity | reflexivity | reflexivity | reflexivity
    | reflexivity | reflexivity | reflexivity | reflexivity | reflexivity
    | lra ];
  cbn [bind].

Ltac decide_signs :=
  repeat match goal with
         | |- context [Rlt_dec ?e 0] =>
             destruct (Rlt_dec e 0); [try (exfalso; lra)|try (exfalso; lra)]
         end.

Ltac eval_vertex_sum :=
  unfold vertex_sum; cbn [foldM seq bind];
  eval_penalty_term; eval_penalty_term; eval_penalty_term;
  cbv [area_gradient_term]; np_cbv; decide_signs; np_cbv; arr_eq; lra.

Lemma tetra_vertex_sum_0 :
  vertex_sum tetra_X tetra_normals (faces tetra_mesh) tetra_At tetra_At0 0 3
  = Some (-2, -3, 1).
Proof. eval_vertex_sum. Qed.

Lemma tetra_vertex_sum_1 :
  vertex_sum tetra_X tetra_normals (faces tetra_mesh) tetra_At tetra_At0 1 3
  = Some (2, 0, -1).
Proof. eval_vertex_sum. Qed.

Lemma tetra_vertex_sum_2 :
  vertex_sum tetra_X tetra_normals (faces tetra_mesh) tetra_At tetra_At0 2 3
  = Some (0, 3, 0).
Proof. eval_vertex_sum. Qed.

Lemma tetra_vertex_sum_3 :
  vertex_sum tetra_X tetra_normals (faces tetra_mesh) tetra_At tetra_At0 3 3
  = Some (0, 4, -1).
Proof. eval_vertex_sum. Qed.

Lemma tetra_adjacent v :
  (v < 4)%nat ->
  exists adj, get_face_adjacent_faces (form_mesh tetra_X (faces tetra_mesh)) v = Some adj
              /\ length adj = 3%nat.
Proof.
  intros Hv.
  destruct v as [|[|[|[|v]]]]; [| | | |lia]; eexists; split; reflexivity.
Qed.

Lemma tetra_gradient_penalty pen ef :
  gradient_penalty (tetra_problem pen ef) tetra_x = Some (scale pen tetra_a).
Proof.
  unfold gradient_penalty.
  change (length (vertices (mesh (tetra_problem pen ef)))) with 4%nat.
  change (faces (mesh (tetra_problem pen ef))) with (faces tetra_mesh).
  change (At0 (tetra_problem pen ef)) with tetra_At0.
  change (penalty (tetra_problem pen ef)) with pen.
  rewrite tetra_reshape. cbn [bind].
  rewrite tetra_deformed_normals. cbn [bind].
  change (length (faces (form_mesh tetra_X (faces tetra_mesh)))) with 4%nat.
  rewrite tetra_normals_reshape. cbn [bind].
  rewrite tetra_deformed_areas. cbn [bind].
  change (faces (form_mesh tetra_X (faces tetra_mesh))) with (faces tetra_mesh).
  cbn [foldM seq].
  destruct (tetra_adjacent 0) as (adj0 & Eadj0 & Ladj0); [lia|].
  rewrite Eadj0. cbn [bind]. rewrite Ladj0.
  rewrite tetra_vertex_sum_0. cbn [bind].
  change (set_slice3 (np_zeros (length tetra_x)) (3 * 0) (-2, -3, 1))
    with (Some [-2; -3; 1; 0; 0; 0; 0; 0; 0; 0; 0; 0]). cbn [bind].
  destruct (tetra_adjacent 1) as (adj1 & Eadj1 & Ladj1); [lia|].
  rewrite Eadj1. cbn [bind]. rewrite Ladj1.
  rewrite tetra_vertex_sum_1. cbn [bind].
  change (set_slice3 [-2; -3; 1; 0; 0; 0; 0; 0; 0; 0; 0; 0] (3 * 1) (2, 0, -1))
    with (Some [-2; -3; 1; 2; 0; -1; 0; 0; 0; 0; 0; 0]). cbn [bind].
  destruct (tetra_adjacent 2) as (adj2 & Eadj2 & Ladj2); [lia|].
  rewrite Eadj2. cbn [bind]. rewrite Ladj2.
  rewrite tetra_vertex_sum_2. cbn [bind].
  change (set_slice3 [-2; -3; 1; 2; 0; -1; 0; 0; 0; 0; 0; 0] (3 * 2) (0, 3, 0))
    with (Some [-2; -3; 1; 2; 0; -1; 0; 3; 0; 0; 0; 0]). cbn [bind].
  destruct (tetra_adjacent 3) as (adj3 & Eadj3 & Ladj3); [lia|].
  rewrite Eadj3. cbn [bind]. rewrite Ladj3.
  rewrite tetra_vertex_sum_3. cbn [bind].
  reflexivity.
Qed.

Lemma tetra_force pen ef :
  exists u, force (tetra_problem pen ef) tetra_x = Some (scale ef u) /\
            length u = 12%nat.
Proof.
  destruct (force_rows_value (tetra_problem pen ef) tetra_x) as (X & EX & Hsome & _);
    [reflexivity|reflexivity|].
  change (length (vertices (mesh (tetra_problem pen ef)))) with 4%nat in EX, Hsome.
  rewrite tetra_reshape in EX. inversion EX; subst X; clear EX.
  eexists. split.
  - apply Hsome. intros i Hi. intros Z. apply norm3_zero_iff in Z. revert Z.
    destruct i as [|[|[|[|i]]]]; [| | | |lia];
      cbv [lap_row sum_n entry]; np_cbv; intros Z; injection Z; intros; lra.
  - rewrite flatten_F_length, length_map, length_map, length_seq. reflexivity.
Qed.

(** ** When the quasi-Newton update is defined *)

Lemma nd_binop_Some f m n (A B : mat) :
  has_shape m n A = true -> has_shape m n B = true -> ncols A = n ->
  nd_binop f A B = Some (zip_with (zip_with f) A B).
Proof.
  intros HA HB CA. unfold nd_binop.
  rewrite (has_shape_length _ _ _ HA), CA, HA, HB. reflexivity.
Qed.

Lemma np_div_scalar_Some a d :
  d <> 0 -> np_div_scalar a d = Some (map (fun r => r / d) a).
Proof.
  intros H. unfold np_div_scalar. apply mapM_map_total.
  apply Forall_forall. intros r _. apply safe_div_Some. exact H.
Qed.

Lemma nd_div_scalar_Some A d :
  d <> 0 -> nd_div_scalar A d = Some (map (map (fun r => r / d)) A).
Proof.
  intros H. unfold nd_div_scalar. apply mapM_map_total.
  apply Forall_forall. intros r _. apply np_div_scalar_Some. exact H.
Qed.

Lemma has_shape_map_map (f : R -> R) m n A :
  has_shape m n A = true -> has_shape m n (map (map f) A) = true.
Proof.
  intros H. apply has_shape_spec in H. destruct H as [L F].
  apply has_shape_spec. split; [rewrite length_map; exact L|].
  rewrite Forall_forall in *. intros r Hr. apply in_map_iff in Hr.
  destruct Hr as (r0 & <- & Hr0). rewrite length_map. auto.
Qed.

Lemma hessian_penalty_defined self x gp fx y :
  gradient_penalty self x = Some gp ->
  force self x = Some fx ->
  length (x_pre self) = length x ->
  sub_pre (zip_with Rplus gp fx) (gradient_pre self) = Some y ->
  has_shape (length x) (length x) (hess_pre self) = true ->
  dot y (zip_with Rminus x (x_pre self)) <> 0 ->
  quad (hess_pre self) (zip_with Rminus x (x_pre self)) <> 0 ->
  exists H,
    hessian_penalty self x = Some (set_pre self (zip_with Rplus gp fx) x H, H).
Proof.
  intros Egp Efx Lp Ey SHp Nys Nshs.
  set (n := length x) in *.
  set (s := zip_with Rminus x (x_pre self)) in *.
  set (grad := zip_with Rplus gp fx) in *.
  pose proof (gradient_penalty_length _ _ _ Egp) as Lgp.
  pose proof (force_length _ _ _ Efx) as Lfx.
  assert (Ls : length s = n) by (unfold s; rewrite zip_with_length; lia).
  assert (Lgrad : length grad = n) by (unfold grad; rewrite zip_with_length; lia).
  assert (Ly : length y = n).
  { destruct (gradient_pre self) as [c|a]; simpl in Ey.
    - inversion Ey; subst. rewrite length_map. exact Lgrad.
    - destruct (np_binop_inv _ _ _ _ Ey) as (_ & L & _). lia. }
  pose proof (square_ncols _ _ SHp) as CHp.
  pose proof (has_shape_length _ _ _ SHp) as LHp.
  pose proof (has_shape_outer s s) as SOs. rewrite Ls in SOs.
  pose proof (has_shape_outer y y) as SOy. rewrite Ly in SOy.
  pose proof (has_shape_transpose_square _ _ SHp) as ST.
  pose proof (has_shape_zip_with Rmult _ _ _ _ SHp SOs) as Shs.
  pose proof (has_shape_zip_with Rmult _ _ _ _ Shs ST) as Shsh.
  unfold hessian_penalty. rewrite Egp, Efx. cbn [bind].
  unfold np_add. rewrite (np_binop_Some Rplus gp fx) by lia. cbn [bind]. fold grad.
  unfold np_sub. rewrite (np_binop_Some Rminus x (x_pre self)) by lia. cbn [bind]. fold s.
  rewrite Ey. cbn [bind].
  unfold np_inner. rewrite Ly, Ls, Nat.eqb_refl. cbn [bind].
  rewrite (nd_div_scalar_Some _ _ Nys). cbn [bind].
  unfold nd_mul. rewrite (nd_binop_Some Rmult n n) by assumption. cbn [bind].
  rewrite (nd_binop_Some Rmult n n) by (try assumption; apply square_ncols; assumption).
  cbn [bind].
  unfold row_times_mat. rewrite Ls, LHp, CHp, Nat.eqb_refl, SHp. cbn [andb bind].
  unfold row_times_col, np_inner. rewrite length_map, length_seq, Ls, Nat.eqb_refl.
  cbn [bind].
  assert (Eq : dot (map (fun j => dot s (col (hess_pre self) j)) (seq 0 n)) s
               = quad (hess_pre self) s) by (unfold quad; rewrite CHp; reflexivity).
  rewrite Eq.
  rewrite (nd_div_scalar_Some _ _ Nshs). cbn [bind].
  unfold nd_add, nd_sub.
  rewrite (nd_binop_Some Rplus n n) by (try assumption; apply has_shape_map_map; assumption).
  cbn [bind].
  rewrite (nd_binop_Some Rminus n n).
  - cbn [bind]. eexists. reflexivity.
  - apply has_shape_zip_with; [assumption|apply has_shape_map_map; assumption].
  - apply has_shape_map_map; assumption.
  - apply square_ncols. apply has_shape_zip_with; [assumption|].
    apply has_shape_map_map; assumption.
Qed.

Ltac destruct_length12 u Lu :=
  do 12 (destruct u as [|? u]; [discriminate Lu|]);
  destruct u; [|discriminate Lu].

(** The first Hessian update on the tetrahedron (penalty 1, pressure
    0) is defined: its two denominators are -7 and 6. *)
Lemma tetra_hessian_penalty :
  exists u H,
    length u = 12%nat /\
    force (tetra_problem 1 0) tetra_x = Some (scale 0 u) /\
    hessian_penalty (tetra_problem 1 0) tetra_x
    = Some (set_pre (tetra_problem 1 0)
                    (zip_with Rplus (scale 1 tetra_a) (scale 0 u)) tetra_x H, H).
Proof.
  destruct (tetra_force 1 0) as (u & Ef & Lu).
  destruct (hessian_penalty_defined (tetra_problem 1 0) tetra_x
              (scale 1 tetra_a) (scale 0 u)
              (map (fun g => g - 0) (zip_with Rplus (scale 1 tetra_a) (scale 0 u))))
    as (H & EH).
  - apply tetra_gradient_penalty.
  - exact Ef.
  - reflexivity.
  - reflexivity.
  - apply (has_shape_eye 12).
  - destruct_length12 u Lu. np_cbv. lra.
  - destruct_length12 u Lu. cbv [quad]. np_cbv. lra.
  - exists u, H. auto.
Qed.

Lemma hessian_of_penalty self x self' Hp :
  hessian_penalty self x = Some (self', Hp) ->
  has_shape (length x) (length x) (hess self) = true ->
  hessian self x = Some (self', zip_with (zip_with Rplus) (hess self) Hp).
Proof.
  intros E SH.
  destruct (hessian_penalty_inv _ _ _ _ E)
    as (gp & fx & grad & s & y & _ & _ & _ & _ & _ & _ & _ & _ & _ & SHp & _).
  unfold hessian, hessian_bending. rewrite E. cbn [bind].
  unfold nd_add. rewrite (nd_binop_Some Rplus (length x) (length x));
    [reflexivity|assumption|assumption|apply square_ncols; assumption].
Qed.

Lemma tetra_hess_shape pen ef : has_shape 12 12 (hess (tetra_problem pen ef)) = true.
Proof. reflexivity. Qed.

Lemma tetra_hessian :
  exists self1 H1, hessian (tetra_problem 1 0) tetra_x = Some (self1, H1).
Proof.
  destruct tetra_hessian_penalty as (u & H & _ & _ & E).
  eexists. eexists. apply (hessian_of_penalty _ _ _ _ E). apply tetra_hess_shape.
Qed.

(** ** Repeating a Hessian call *)

Lemma zip_minus_self x : zip_with Rminus x x = np_zeros (length x).
Proof.
  unfold np_zeros. induction x as [|a x IH]; simpl; [reflexivity|].
  rewrite IH. replace (a - a) with 0 by ring. reflexivity.
Qed.

Lemma dot_zeros_r y n : dot y (np_zeros n) = 0.
Proof.
  revert n; induction y as [|a y IH]; intros [|n]; try reflexivity.
  unfold dot in *. simpl. rewrite IH. ring.
Qed.





(** ** The theorems at the tetrahedron *)

Lemma tetra_faces_in_range : Forall (face_in_range 4) (faces tetra_mesh).
Proof. repeat constructor. Qed.

Lemma tetra_At0_positive : Forall (fun a0 => 0 < a0) tetra_At0.
Proof. repeat constructor; lra. Qed.

Lemma obj_func_penalty_formula_witness :
  length tetra_x = 12%nat /\
  Forall (face_in_range 4) (faces tetra_mesh) /\
  length tetra_At0 = 4%nat /\
  Forall (fun a0 => 0 < a0) tetra_At0 /\
  exists X At,
    reshape_F tetra_x 4 = Some X /\
    face_area (form_mesh X (faces tetra_mesh)) = Some At /\
    obj_func_penalty (tetra_problem 1 0) tetra_x = Some (E_pen 1 At tetra_At0).
Proof.
  split; [reflexivity|]. split; [exact tetra_faces_in_range|].
  split; [reflexivity|]. split; [exact tetra_At0_positive|].
  destruct (obj_func_penalty_formula (tetra_problem 1 0) tetra_x
              eq_refl tetra_faces_in_range eq_refl tetra_At0_positive)
    as (X & At & EX & _ & EA & E & _).
  exists X, At. split; [exact EX|]. split; [exact EA|exact E].
Defined.

Lemma bending_energy_and_gradient_witness :
  face_area tetra_mesh = Some tetra_At0 /\
  has_shape 4 4 tetra_L = true /\
  has_shape 4 4 tetra_Minv = true /\
  exists self,
    init tetra_ext 1 0 tetra_mesh default_nu_grad_size = Some self /\
    has_shape 12 12 (hess self) = true /\
    obj_func_bending self tetra_x =
      Some (sum_n 12 (fun i => sum_n 12 (fun j =>
              nth i tetra_x 0 * entry (hess self) i j * nth j tetra_x 0)) / 2) /\
    gradient_bending self tetra_x =
      Some (map (fun i => sum_n 12 (fun j => entry (hess self) i j * nth j tetra_x 0))
                (seq 0 12)).
Proof.
  split; [exact tetra_rest_areas|]. split; [reflexivity|]. split; [reflexivity|].
  destruct (bending_energy_and_gradient tetra_ext 1 0 tetra_mesh default_nu_grad_size
              tetra_M tetra_L tetra_Minv tetra_At0
              eq_refl eq_refl eq_refl tetra_rest_areas eq_refl eq_refl)
    as (self & E & SH & _ & Hx & _).
  exists self. split; [exact E|]. split; [exact SH|].
  exact (Hx tetra_x eq_refl).
Defined.

Lemma force_formula_witness :
  length tetra_x = 12%nat /\
  has_shape 4 4 tetra_laplacian = true /\
  exists X,
    reshape_F tetra_x 4 = Some X /\
    ((forall i, (i < 4)%nat ->
        norm3 (nth i (map (lap_row tetra_laplacian X 4) (seq 0 4)) zero3) <> 0) ->
     force (tetra_problem 1 0) tetra_x =
       Some (scale 0 (flatten_F (map unit3 (map (lap_row tetra_laplacian X 4) (seq 0 4)))))).
Proof.
  split; [reflexivity|]. split; [reflexivity|].
  destruct (force_formula (tetra_problem 1 0) tetra_x eq_refl eq_refl)
    as (X & EX & Hsome & _ & _).
  exists X. split; [exact EX|exact Hsome].
Defined.

Lemma hess_pre_symmetric_invariant_witness :
  init tetra_ext 1 0 tetra_mesh default_nu_grad_size = Some (tetra_problem 1 0) /\
  symmetric (hess_pre (tetra_problem 1 0)) /\
  exists self' H,
    hessian_penalty_calls (tetra_problem 1 0) [tetra_x] = Some (self', [H]) /\
    symmetric H /\ symmetric (hess_pre self').
Proof.
  split; [apply tetra_init|].
  destruct (hess_pre_symmetric_invariant tetra_ext 1 0 tetra_mesh default_nu_grad_size
              (tetra_problem 1 0) (tetra_init 1 0)) as (S0 & _ & Hseq).
  split; [exact S0|].
  destruct tetra_hessian_penalty as (u & H & _ & _ & E).
  eexists. exists H.
  assert (Ecalls : hessian_penalty_calls (tetra_problem 1 0) [tetra_x]
                   = Some (set_pre (tetra_problem 1 0)
                             (zip_with Rplus (scale 1 tetra_a) (scale 0 u)) tetra_x H, [H])).
  { cbn [hessian_penalty_calls]. rewrite E. reflexivity. }
  split; [exact Ecalls|].
  destruct (Hseq _ _ _ Ecalls) as (F & S').
  split; [inversion F; assumption|exact S'].
Defined.


Lemma tetra_gradient pen ef :
  exists printed g, gradient (tetra_problem pen ef) tetra_x = Some (printed, g).
Proof.
  destruct (tetra_force pen ef) as (u & Ef & _).
  eexists. eexists. apply gradient_inv.
  eexists. exists (scale pen tetra_a), (scale ef u).
  split; [apply (sp_matvec_square 12); reflexivity|].
  split; [apply tetra_gradient_penalty|]. split; [exact Ef|].
  split; [rewrite length_map, length_seq; reflexivity|].
  split; reflexivity.
Qed.

Lemma objective_without_force_gradient_with_force_witness :
  exists printed g printed' g',
    gradient (tetra_problem 1 0) tetra_x = Some (printed, g) /\
    (0 < length (vertices (mesh (tetra_problem 1 0))))%nat /\
    5 <> pressure (tetra_problem 1 0) /\
    gradient (with_pressure (tetra_problem 1 0) 5) tetra_x = Some (printed', g') /\
    g' <> g /\
    obj_func (with_pressure (tetra_problem 1 0) 5) tetra_x
    = obj_func (tetra_problem 1 0) tetra_x.
Proof.
  destruct (tetra_gradient 1 0) as (printed & g & E).
  assert (HV : (0 < length (vertices (mesh (tetra_problem 1 0))))%nat) by (simpl; lia).
  assert (Hp : 5 <> pressure (tetra_problem 1 0)) by (simpl; lra).
  destruct (objective_without_force_gradient_with_force (tetra_problem 1 0) tetra_x)
    as (_ & Hobj & _ & Hgrad).
  destruct (Hgrad printed g 5 E HV Hp) as (printed' & g' & E' & Hne & _).
  exists printed, g, printed', g'.
  split; [exact E|]. split; [exact HV|]. split; [exact Hp|].
  split; [exact E'|]. split; [exact Hne|apply Hobj].
Defined.

(** ** The bipyramid, evaluated *)

Lemma bipyramid_rest_areas : face_area bipyramid_mesh = Some bipyramid_At0.
Proof.
  np_cbv. arr_eq.
  - rewrite (norm3_value _ 1); [lra|lra|np_cbv; ring].
  - rewrite (norm3_value _ 2); [lra|lra|np_cbv; ring].
  - rewrite (norm3_value _ 2); [lra|lra|np_cbv; ring].
  - rewrite (norm3_value _ 3); [lra|lra|np_cbv; ring].
  - rewrite (norm3_value _ 3); [lra|lra|np_cbv; ring].
  - rewrite (norm3_value _ 3); [lra|lra|np_cbv; ring].
Qed.

Lemma bipyramid_reshape : reshape_F bipyramid_x 5 = Some bipyramid_X.
Proof. reflexivity. Qed.

Lemma bipyramid_deformed_areas :
  face_area (form_mesh bipyramid_X (faces bipyramid_mesh)) = Some bipyramid_At.
Proof.
  np_cbv. arr_eq.
  - rewrite (norm3_value _ 2); [lra|lra|np_cbv; ring].
  - rewrite (norm3_value _ 1); [lra|lra|np_cbv; ring].
  - rewrite (norm3_value _ 2); [lra|lra|np_cbv; ring].
  - rewrite (norm3_value _ 2); [lra|lra|np_cbv; ring].
  - rewrite (norm3_value _ 1); [lra|lra|np_cbv; ring].
  - rewrite (norm3_value _ 2); [lra|lra|np_cbv; ring].
Qed.

Lemma bipyramid_deformed_normals :
  face_normal (form_mesh bipyramid_X (faces bipyramid_mesh))
  = Some bipyramid_normals_flat.
Proof.
  np_cbv.
  eval_norm 2. eval_norm 1. eval_norm 2. eval_norm 2. eval_norm 1. eval_norm 2.
  rewrite !safe_div_Some by lra. np_cbv.
  arr_eq; lra.
Qed.

Lemma bipyramid_normals_reshape :
  reshape_C bipyramid_normals_flat 6 = Some bipyramid_normals.
Proof. reflexivity. Qed.

Lemma bipyramid_vertex_sum_0 :
  vertex_sum bipyramid_X bipyramid_normals (faces bipyramid_mesh)
             bipyramid_At bipyramid_At0 0 3 = Some (-2, -3, 1).
Proof. eval_vertex_sum. Qed.

Lemma bipyramid_vertex_sum_1 :
  vertex_sum bipyramid_X bipyramid_normals (faces bipyramid_mesh)
             bipyramid_At bipyramid_At0 1 3 = Some (0, -4, 1).
Proof. eval_vertex_sum. Qed.

Lemma bipyramid_vertex_sum_2 :
  vertex_sum bipyramid_X bipyramid_normals (faces bipyramid_mesh)
             bipyramid_At bipyramid_At0 2 3 = Some (2, 0, 1).
Proof. eval_vertex_sum. Qed.

Lemma bipyramid_vertex_sum_3 :
  vertex_sum bipyramid_X bipyramid_normals (faces bipyramid_mesh)
             bipyramid_At bipyramid_At0 3 3 = Some (0, 3, 0).
Proof. eval_vertex_sum. Qed.

Lemma bipyramid_vertex_sum_4 :
  vertex_sum bipyramid_X bipyramid_normals (faces bipyramid_mesh)
             bipyramid_At bipyramid_At0 4 3 = Some (0, -4, -1).
Proof. eval_vertex_sum. Qed.

Lemma bipyramid_adjacent v :
  (v < 5)%nat ->
  exists adj,
    get_face_adjacent_faces (form_mesh bipyramid_X (faces bipyramid_mesh)) v = Some adj
    /\ length adj = 3%nat.
Proof.
  intros Hv.
  destruct v as [|[|[|[|[|v]]]]]; [| | | | |lia]; eexists; split; reflexivity.
Qed.

Lemma bipyramid_gradient_penalty self :
  mesh self = bipyramid_mesh ->
  At0 self = bipyramid_At0 ->
  gradient_penalty self bipyramid_x = Some (scale (penalty self) bipyramid_a).
Proof.
  intros Hm HA. unfold gradient_penalty. rewrite Hm, HA.
  change (length (vertices bipyramid_mesh)) with 5%nat.
  rewrite bipyramid_reshape. cbn [bind].
  rewrite bipyramid_deformed_normals. cbn [bind].
  change (length (faces (form_mesh bipyramid_X (faces bipyramid_mesh)))) with 6%nat.
  rewrite bipyramid_normals_reshape. cbn [bind].
  rewrite bipyramid_deformed_areas. cbn [bind].
  change (faces (form_mesh bipyramid_X (faces bipyramid_mesh)))
    with (faces bipyramid_mesh).
  cbn [foldM seq].
  destruct (bipyramid_adjacent 0) as (adj0 & Eadj0 & Ladj0); [lia|].
  rewrite Eadj0. cbn [bind]. rewrite Ladj0.
  rewrite bipyramid_vertex_sum_0. cbn [bind].
  change (set_slice3 (np_zeros (length bipyramid_x)) (3 * 0) (-2, -3, 1))
    with (Some [-2; -3; 1; 0; 0; 0; 0; 0; 0; 0; 0; 0; 0; 0; 0]). cbn [bind].
  destruct (bipyramid_adjacent 1) as (adj1 & Eadj1 & Ladj1); [lia|].
  rewrite Eadj1. cbn [bind]. rewrite Ladj1.
  rewrite bipyramid_vertex_sum_1. cbn [bind].
  change (set_slice3 [-2; -3; 1; 0; 0; 0; 0; 0; 0; 0; 0; 0; 0; 0; 0] (3 * 1) (0, -4, 1))
    with (Some [-2; -3; 1; 0; -4; 1; 0; 0; 0; 0; 0; 0; 0; 0; 0]). cbn [bind].
  destruct (bipyramid_adjacent 2) as (adj2 & Eadj2 & Ladj2); [lia|].
  rewrite Eadj2. cbn [bind]. rewrite Ladj2.
  rewrite bipyramid_vertex_sum_2. cbn [bind].
  change (set_slice3 [-2; -3; 1; 0; -4; 1; 0; 0; 0; 0; 0; 0; 0; 0; 0] (3 * 2) (2, 0, 1))
    with (Some [-2; -3; 1; 0; -4; 1; 2; 0; 1; 0; 0; 0; 0; 0; 0]). cbn [bind].
  destruct (bipyramid_adjacent 3) as (adj3 & Eadj3 & Ladj3); [lia|].
  rewrite Eadj3. cbn [bind]. rewrite Ladj3.
  rewrite bipyramid_vertex_sum_3. cbn [bind].
  change (set_slice3 [-2; -3; 1; 0; -4; 1; 2; 0; 1; 0; 0; 0; 0; 0; 0] (3 * 3) (0, 3, 0))
    with (Some [-2; -3; 1; 0; -4; 1; 2; 0; 1; 0; 3; 0; 0; 0; 0]). cbn [bind].
  destruct (bipyramid_adjacent 4) as (adj4 & Eadj4 & Ladj4); [lia|].
  rewrite Eadj4. cbn [bind]. rewrite Ladj4.
  rewrite bipyramid_vertex_sum_4. cbn [bind].
  reflexivity.
Qed.


(** ** Construction and degenerate rest faces *)

Lemma init_defined ext pen ef m nu M L Minv A0 :
  let V := length (vertices m) in
  assemble_lumped_mass ext m = Some M ->
  assemble_laplacian ext m = Some L ->
  sp_inv ext M = Some Minv ->
  face_area m = Some A0 ->
  has_shape V V L = true ->
  has_shape V V Minv = true ->
  exists self, init ext pen ef m nu = Some self /\ At0 self = A0 /\ mesh self = m.
Proof.
  intros V EM EL EMinv EA HL HM.
  destruct (bending_block_product V L Minv HL HM) as (B & EB & _ & _).
  destruct (sp_mul_square V _ _ HM HL) as (Lap & ELap & _ & _).
  apply bind_Some in EB. destruct EB as (LtM & ELtM & EB).
  eexists. split.
  - unfold init. rewrite EM. cbn [bind]. rewrite EA. cbn [bind]. rewrite EL. cbn [bind].
    rewrite EMinv. cbn [bind]. rewrite ELtM. cbn [bind]. rewrite EB. cbn [bind].
    rewrite ELap. cbn [bind]. reflexivity.
  - split; reflexivity.
Qed.

Lemma np_sqrt_inv a r : np_sqrt a = Some r -> r = sqrt a.
Proof.
  unfold np_sqrt. destruct (Rlt_dec a 0); [discriminate|]. intros E; inversion E; reflexivity.
Qed.

Lemma obj_func_penalty_zero_area self x :
  In 0 (At0 self) -> obj_func_penalty self x = None.
Proof.
  intros Hin.
  destruct (obj_func_penalty self x) as [e|] eqn:E; [exfalso|reflexivity].
  unfold obj_func_penalty in E.
  inv_bind E. rename a into X.
  inv_bind E. rename a into At.
  inv_bind E. rename a into d, E2 into Ed.
  inv_bind E. rename a into r, E2 into Er.
  inv_bind E. rename a into q, E2 into Eq.
  destruct (np_binop_inv _ _ _ _ Ed) as (LA & Ld & _).
  pose proof (mapM_length _ _ _ Er) as Lr.
  destruct (In_nth _ _ 0 Hin) as (f & Hf & Ef).
  pose proof (mapM_nth _ _ _ f 0 0 Er Hf) as Erf.
  rewrite Ef in Erf. apply np_sqrt_inv in Erf. rewrite sqrt_0 in Erf.
  unfold np_div in Eq.
  destruct (Nat.eqb_spec (length d) (length r)) as [Ldr|Ldr]; [|discriminate].
  assert (Hfc : (f < length (combine d r))%nat) by (rewrite length_combine; lia).
  pose proof (mapM_nth _ _ _ f (0, 0) 0 Eq Hfc) as Ediv.
  rewrite combine_nth in Ediv by exact Ldr. cbn [fst snd] in Ediv.
  rewrite Erf, safe_div_zero in Ediv. discriminate.
Qed.

Lemma gradient_penalty_terms self x g :
  gradient_penalty self x = Some g ->
  let V := length (vertices (mesh self)) in
  let fs := faces (mesh self) in
  exists X Nf At,
    reshape_F x V = Some X /\
    forall v, (v < V)%nat ->
      exists adj_faces,
        get_face_adjacent_faces (form_mesh X fs) v = Some adj_faces /\
        forall f, (f < length adj_faces)%nat ->
          exists t, penalty_term X Nf fs At (At0 self) v f = Some t.
Proof.
  intros E V fs.
  destruct (gradient_penalty_inv _ _ _ E) as (X & fn & Nf & At & a & EX & _ & _ & _ & Ea & _).
  fold V in EX, Ea. fold fs in Ea.
  exists X, Nf, At. split; [exact EX|].
  intros v Hv.
  destruct (foldM_steps _ _ _ _ Ea v) as (s1 & s2 & Estep).
  { apply in_seq. lia. }
  inv_bind Estep. rename a0 into adj, E0 into Eadj.
  inv_bind Estep. rename a0 into av, E0 into Eav.
  exists adj. split; [exact Eadj|].
  intros f Hf. unfold vertex_sum in Eav.
  destruct (foldM_steps _ _ _ _ Eav f) as (av1 & av2 & Et).
  { apply in_seq. lia. }
  inv_bind Et. eauto.
Qed.

Lemma gradient_penalty_zero_area self x v adj f :
  (v < length (vertices (mesh self)))%nat ->
  get_face_adjacent_faces (mesh self) v = Some adj ->
  (f < length adj)%nat ->
  nth_error (At0 self) f = Some 0 ->
  gradient_penalty self x = None.
Proof.
  intros Hv Eadj Hf E0.
  destruct (gradient_penalty self x) as [g|] eqn:E; [exfalso|reflexivity].
  destruct (gradient_penalty_terms _ _ _ E) as (X & Nf & At & _ & Hvis).
  destruct (Hvis v Hv) as (adj' & Eadj' & Hterm).
  change (get_face_adjacent_faces (form_mesh X (faces (mesh self))) v)
    with (get_face_adjacent_faces (mesh self) v) in Eadj'.
  rewrite Eadj in Eadj'. inversion Eadj'; subst adj'.
  destruct (Hterm f Hf) as (t & Et).
  destruct (penalty_term_inv _ _ _ _ _ _ _ _ Et)
    as (fc & t0 & t1 & p0 & p1 & n & pv & a & a0 & _ & _ & _ & _ & _ & _ & _ & _ & Ea0 & _ & Hnz).
  rewrite E0 in Ea0. inversion Ea0; subst a0. apply Hnz; reflexivity.
Qed.

Lemma flat_rest_areas : face_area flat_mesh = Some flat_At0.
Proof.
  np_cbv. arr_eq.
  - rewrite (norm3_value _ 1); [lra|lra|np_cbv; ring].
  - rewrite (norm3_value _ 0); [lra|lra|np_cbv; ring].
  - rewrite (norm3_value _ 2); [lra|lra|np_cbv; ring].
  - rewrite (norm3_value _ 1); [lra|lra|np_cbv; ring].
Qed.

(** C9, as the code has it.  [__init__] does not inspect the rest
    areas: with a V x V Laplacian and a V x V inverse mass matrix from
    the libraries and faces that index existing vertices, construction
    succeeds and stores the rest areas as computed, zero entries
    included.  The division by a zero rest area fails later: the
    penalty objective is then undefined for every x, and the penalty
    gradient is undefined whenever its loop reaches a face index with
    zero rest area. *)
Theorem init_stores_degenerate_areas ext pen ef m nu M L Minv A0 :
  let V := length (vertices m) in
  assemble_lumped_mass ext m = Some M ->
  assemble_laplacian ext m = Some L ->
  sp_inv ext M = Some Minv ->
  face_area m = Some A0 ->
  has_shape V V L = true ->
  has_shape V V Minv = true ->
  exists self,
    init ext pen ef m nu = Some self /\
    At0 self = A0 /\
    (In 0 A0 -> forall x, obj_func_penalty self x = None) /\
    (forall x v adj f,
        (v < V)%nat -> get_face_adjacent_faces m v = Some adj ->
        (f < length adj)%nat -> nth_error A0 f = Some 0 ->
        gradient_penalty self x = None).
Proof.
  intros V EM EL EMinv EA HL HM.
  destruct (init_defined ext pen ef m nu M L Minv A0 EM EL EMinv EA HL HM)
    as (self & E & EA0 & Em).
  exists self. split; [exact E|]. split; [exact EA0|]. split.
  - intros Hin x. apply obj_func_penalty_zero_area. rewrite EA0. exact Hin.
  - intros x v adj f Hv Eadj Hf E0.
    apply (gradient_penalty_zero_area self x v adj f).
    + rewrite Em. exact Hv.
    + rewrite Em. exact Eadj.
    + exact Hf.
    + rewrite EA0. exact E0.
Qed.

Lemma init_stores_degenerate_areas_witness :
  face_area flat_mesh = Some flat_At0 /\
  has_shape 4 4 tetra_L = true /\
  has_shape 4 4 flat_Minv = true /\
  In 0 flat_At0 /\
  exists self,
    init flat_ext 1 0 flat_mesh default_nu_grad_size = Some self /\
    At0 self = flat_At0 /\
    forall x, obj_func_penalty self x = None.
Proof.
  assert (Hin : In 0 flat_At0) by (right; left; reflexivity).
  split; [exact flat_rest_areas|]. split; [reflexivity|]. split; [reflexivity|].
  split; [exact Hin|].
  destruct (init_stores_degenerate_areas flat_ext 1 0 flat_mesh default_nu_grad_size
              flat_M tetra_L flat_Minv flat_At0
              eq_refl eq_refl eq_refl flat_rest_areas eq_refl eq_refl)
    as (self & E & EA0 & Hobj & _).
  exists self. split; [exact E|]. split; [exact EA0|exact (Hobj Hin)].
Defined.

(** Construction succeeds on the mesh whose face (0, 1, 3) has area
    zero; the failure shows only when the penalty objective is
    evaluated. *)
Lemma init_degenerate_counterexample :
  ~ (forall ext pen ef m nu A0,
       face_area m = Some A0 -> In 0 A0 -> init ext pen ef m nu = None)
  /\ exists self,
       face_area flat_mesh = Some flat_At0 /\
       nth_error flat_At0 1 = Some 0 /\
       init flat_ext 1 0 flat_mesh default_nu_grad_size = Some self /\
       At0 self = flat_At0 /\
       obj_func_penalty self (x0 self) = None.
Proof.
  assert (Hin : In 0 flat_At0) by (right; left; reflexivity).
  destruct (init_defined flat_ext 1 0 flat_mesh default_nu_grad_size
              flat_M tetra_L flat_Minv flat_At0
              eq_refl eq_refl eq_refl flat_rest_areas eq_refl eq_refl)
    as (self & E & EA0 & _).
  split.
  - intros C. rewrite (C flat_ext 1 0 flat_mesh default_nu_grad_size flat_At0
                         flat_rest_areas Hin) in E. discriminate.
  - exists self. split; [exact flat_rest_areas|]. split; [reflexivity|].
    split; [exact E|]. split; [exact EA0|].
    apply obj_func_penalty_zero_area. rewrite EA0. exact Hin.
Qed.

Lemma bipyramid_init pen ef :
  exists self,
    init bipyramid_ext pen ef bipyramid_mesh default_nu_grad_size = Some self /\
    mesh self = bipyramid_mesh /\
    At0 self = bipyramid_At0 /\
    penalty self = pen.
Proof.
  destruct (init_defined bipyramid_ext pen ef bipyramid_mesh default_nu_grad_size
              bipyramid_M bipyramid_L bipyramid_Minv bipyramid_At0
              eq_refl eq_refl eq_refl bipyramid_rest_areas eq_refl eq_refl)
    as (self & E & EA0 & Em).
  exists self. split; [exact E|]. split; [exact Em|]. split; [exact EA0|].
  destruct (init_inv _ _ _ _ _ _ E) as (M & A0 & L & Minv & B & Lap & _ & _ & _ & _ & _ & _ & ->).
  reflexivity.
Qed.

(** ** The sign test and the totality of the penalty gradient *)

Lemma reshape_C_flatten_C {A : Type} (X : list (A * A * A)) :
  reshape_C (flatten_C X) (length X) = Some X.
Proof.
  induction X as [|[[a b] c] X IH]; [reflexivity|].
  change (reshape_C (flatten_C ((a, b, c) :: X)) (length ((a, b, c) :: X)))
    with (r <- reshape_C (flatten_C X) (length X) ;; Some ((a, b, c) :: r)).
  rewrite IH. reflexivity.
Qed.


Lemma foldM_total {A S : Type} (P : S -> Prop) (f : S -> A -> option S) l s0 :
  (forall s a, In a l -> P s -> exists s', f s a = Some s' /\ P s') ->
  P s0 -> exists s, foldM f l s0 = Some s /\ P s.
Proof.
  revert s0. induction l as [|a l IH]; intros s0 Hstep H0.
  - exists s0. split; [reflexivity|exact H0].
  - destruct (Hstep s0 a (or_introl eq_refl) H0) as (s1 & E1 & H1).
    destruct (IH s1) as (s & E & H); [|exact H1|].
    + intros s' a' Hin. apply Hstep. right. exact Hin.
    + exists s. cbn [foldM]. rewrite E1. cbn [bind]. split; assumption.
Qed.

Lemma mapM_nth_error {A B : Type} (f : A -> option B) l l' i a :
  mapM f l = Some l' -> nth_error l i = Some a ->
  exists b, f a = Some b /\ nth_error l' i = Some b.
Proof.
  revert l' i. induction l as [|a0 l IH]; intros l' i E Hi.
  - destruct i; discriminate.
  - cbn [mapM] in E. inv_bind E. inv_bind E. injection E as <-.
    destruct i as [|i]; cbn [nth_error] in *.
    + injection Hi as <-. eauto.
    + eapply IH; eassumption.
Qed.

Lemma norm3_zero3 : norm3 zero3 = 0.
Proof. apply norm3_zero_iff. reflexivity. Qed.

Lemma cross3_self u : cross3 u u = zero3.
Proof. destruct u as [[a b] c]. unfold cross3, zero3. f_equal; [f_equal|]; ring. Qed.

Lemma cross3_zero_l u : cross3 zero3 u = zero3.
Proof. destruct u as [[a b] c]. unfold cross3, zero3. f_equal; [f_equal|]; ring. Qed.

Lemma cross3_zero_r u : cross3 u zero3 = zero3.
Proof. destruct u as [[a b] c]. unfold cross3, zero3. f_equal; [f_equal|]; ring. Qed.

Lemma sub3_self a : sub3 a a = zero3.
Proof. apply sub3_zero_iff. reflexivity. Qed.

(** A face with area has three different vertex indices, and its
    normal is a unit vector of real numbers. *)
Lemma triangle_with_area X i j k :
  face_in_range (length X) (i, j, k) ->
  triangle_area X (i, j, k) <> Some 0 ->
  i <> j /\ i <> k /\ j <> k /\
  exists nf n, triangle_normal X (i, j, k) = Some nf /\ finite3 nf = Some n.
Proof.
  intros (Hi & Hj & Hk) Har.
  unfold triangle_area, triangle_normal, face_points in *.
  rewrite (nth_error_nth_lt X i zero3 Hi), (nth_error_nth_lt X j zero3 Hj),
          (nth_error_nth_lt X k zero3 Hk) in *.
  cbn [bind] in *.
  set (a := nth i X zero3) in *. set (b := nth j X zero3) in *.
  set (c := nth k X zero3) in *.
  assert (Hn : norm3 (cross3 (sub3 b a) (sub3 c a)) <> 0).
  { intros Z. apply Har. rewrite Z. f_equal. unfold Rdiv. ring. }
  repeat split.
  - intros ->. apply Hn. subst a b. rewrite sub3_self, cross3_zero_l. apply norm3_zero3.
  - intros ->. apply Hn. subst a c. rewrite sub3_self, cross3_zero_r. apply norm3_zero3.
  - intros ->. apply Hn. subst b c. rewrite cross3_self. apply norm3_zero3.
  - destruct (cross3 (sub3 b a) (sub3 c a)) as [[n0 n1] n2] eqn:En.
    eexists. eexists. split; [reflexivity|].
    unfold finite3. rewrite !(safe_div_Some _ _ Hn). reflexivity.
Qed.

(** With three different indices, removing one vertex index from a
    face leaves at least two, and they are indices of the face. *)
Lemma setdiff_of_face i j k v :
  i <> j -> i <> k -> j <> k ->
  exists t0 t1,
    nth_error (np_setdiff1d (face_list (i, j, k)) v) 0 = Some t0 /\
    nth_error (np_setdiff1d (face_list (i, j, k)) v) 1 = Some t1 /\
    In t0 [i; j; k] /\ In t1 [i; j; k].
Proof.
  intros Hij Hik Hjk.
  unfold np_setdiff1d, np_unique, face_list. cbn [filter].
  destruct (Nat.eqb_spec i v) as [Ei|Ei]; destruct (Nat.eqb_spec j v) as [Ej|Ej];
    destruct (Nat.eqb_spec k v) as [Ek|Ek]; try lia;
    cbn [negb fold_right insert_unique];
    repeat match goal with
           | |- context [Nat.ltb ?a ?b] =>
               destruct (Nat.ltb_spec a b); cbn [insert_unique]
           | |- context [Nat.eqb ?a ?b] =>
               destruct (Nat.eqb_spec a b); try lia; cbn [insert_unique]
           end;
    try lia;
    eexists; eexists; cbn [nth_error];
    (split; [reflexivity|]); (split; [reflexivity|]); cbn [In]; tauto.
Qed.

Lemma dot3_zero_l d : dot3 zero3 d = 0.
Proof. destruct d as [[a b] c]. unfold dot3, zero3. ring. Qed.

Lemma dot3_zero_r g : dot3 g zero3 = 0.
Proof. destruct g as [[a b] c]. unfold dot3, zero3. ring. Qed.

(** With a zero divisor in the sign test the candidate is kept as it
    is. *)
Lemma area_gradient_term_zero_divisor n p0 p1 pv a a0 :
  norm3 (cross3 n (sub3 p0 p1)) * norm3 (sub3 pv p0) = 0 ->
  area_gradient_term n p0 p1 pv a a0
  = scale3 (2 * (a - a0) / a0) (cross3 n (sub3 p0 p1)).
Proof.
  intros Z. unfold area_gradient_term.
  set (g := cross3 n (sub3 p0 p1)) in *. set (d := sub3 pv p0) in *.
  assert (Hdot : dot3 g d = 0).
  { apply Rmult_integral in Z. destruct Z as [Z|Z]; apply norm3_zero_iff in Z; rewrite Z.
    - apply dot3_zero_l.
    - apply dot3_zero_r. }
  rewrite Hdot. destruct (Rlt_dec 0 0) as [H|_]; [lra|].
  destruct g as [[g0 g1] g2]. unfold scale3, Rdiv. f_equal; [f_equal|]; ring.
Qed.

Lemma adjacent_faces_defined m v :
  (v < length (faces m))%nat ->
  exists adj, get_face_adjacent_faces m v = Some adj /\
              (length adj <= length (faces m))%nat.
Proof.
  intros Hv. unfold get_face_adjacent_faces.
  rewrite (nth_error_nth_lt (faces m) v (0, 0, 0)%nat Hv). cbn [bind].
  eexists. split; [reflexivity|].
  match goal with |- (length (filter ?p ?l) <= _)%nat =>
    pose proof (filter_length_le p l) as H end.
  rewrite length_seq in H. exact H.
Qed.

Lemma adjacent_faces_length m v adj :
  get_face_adjacent_faces m v = Some adj -> (length adj <= length (faces m))%nat.
Proof.
  unfold get_face_adjacent_faces. intros E. inv_bind E. injection E as <-.
  match goal with |- (length (filter ?p ?l) <= _)%nat =>
    pose proof (filter_length_le p l) as H end.
  rewrite length_seq in H. exact H.
Qed.

Lemma In_face_in_range V i j k t :
  face_in_range V (i, j, k) -> In t [i; j; k] -> (t < V)%nat.
Proof. intros (Hi & Hj & Hk) [<-|[<-|[<-|[]]]]; assumption. Qed.

(** One pass of the inner loop returns whenever its lookups are in
    range, the deformed face has area and its rest area is not zero;
    the divisor of the sign test plays no part. *)
Lemma penalty_term_defined X ns fs At A0 v f fc :
  Forall (face_in_range (length X)) fs ->
  mapM (triangle_normal X) fs = Some ns ->
  length At = length fs ->
  length A0 = length fs ->
  (v < length X)%nat ->
  nth_error fs f = Some fc ->
  triangle_area X fc <> Some 0 ->
  nth_error A0 f <> Some 0 ->
  exists t0 t1 p0 p1 nf n pv a a0,
    nth_error (np_setdiff1d (face_list fc) v) 0 = Some t0 /\
    nth_error (np_setdiff1d (face_list fc) v) 1 = Some t1 /\
    nth_error X t0 = Some p0 /\
    nth_error X t1 = Some p1 /\
    nth_error ns f = Some nf /\
    finite3 nf = Some n /\
    nth_error X v = Some pv /\
    nth_error At f = Some a /\
    nth_error A0 f = Some a0 /\
    a0 <> 0 /\
    penalty_term X ns fs At A0 v f = Some (area_gradient_term n p0 p1 pv a a0).
Proof.
  intros Hfs Ens LAt LA0 Hv Efc Har Ha0.
  assert (Hf : (f < length fs)%nat) by (apply nth_error_Some; rewrite Efc; discriminate).
  assert (Hr : face_in_range (length X) fc).
  { rewrite Forall_forall in Hfs. apply Hfs. eapply nth_error_In. exact Efc. }
  destruct fc as [[i j] k].
  destruct (triangle_with_area X i j k Hr Har) as (Hij & Hik & Hjk & nf & n & Enf & En).
  destruct (setdiff_of_face i j k v Hij Hik Hjk) as (t0 & t1 & Et0 & Et1 & I0 & I1).
  pose proof (In_face_in_range _ _ _ _ _ Hr I0) as H0.
  pose proof (In_face_in_range _ _ _ _ _ Hr I1) as H1.
  destruct (mapM_nth_error _ _ _ _ _ Ens Efc) as (nf' & Enf' & Elook).
  assert (nf' = nf) by congruence. subst nf'.
  assert (Ea : nth_error At f = Some (nth f At 0)) by (apply nth_error_nth_lt; lia).
  assert (Ea0 : nth_error A0 f = Some (nth f A0 0)) by (apply nth_error_nth_lt; lia).
  assert (Hnz : nth f A0 0 <> 0).
  { intros Z. apply Ha0. rewrite Ea0, Z. reflexivity. }
  exists t0, t1, (nth t0 X zero3), (nth t1 X zero3), nf, n, (nth v X zero3),
         (nth f At 0), (nth f A0 0).
  pose proof (nth_error_nth_lt X t0 zero3 H0) as Ep0.
  pose proof (nth_error_nth_lt X t1 zero3 H1) as Ep1.
  pose proof (nth_error_nth_lt X v zero3 Hv) as Epv.
  repeat (split; [assumption|]).
  eapply penalty_term_value; eassumption.
Qed.

Lemma set_slice3_defined a i av :
  (i + 3 <= length a)%nat -> exists a', set_slice3 a i av = Some a'.
Proof.
  intros H. unfold set_slice3.
  destruct (Nat.leb_spec (i + 3) (length a)) as [_|H']; [|lia].
  destruct av as [[a0 a1] a2]. eexists; reflexivity.
Qed.

(** C10, as the code has it.  The sign test of [gradient_penalty]
    divides without a guard, but a zero divisor does not stop the
    call: the quotient is then 0/0, the comparison with 0 is false and
    the candidate cross product is used as it is.  For an x of length
    3V on a mesh whose faces index existing vertices and are at least
    as many as the vertices, [gradient_penalty] returns whenever every
    face that the loop visits has area in the deformed mesh and a
    nonzero rest area; at every loop position the pass adds twice the
    sign-corrected cross product times the relative area deviation,
    and where the divisor of the sign test is zero it adds the
    uncorrected one.  No condition on the cross product or on the
    position of vertex v against the first opposite vertex is
    needed. *)
Theorem gradient_penalty_total_without_sign_precondition
    (self : problem) (x : vec) (X : list (R * R * R)) :
  let V := length (vertices (mesh self)) in
  let fs := faces (mesh self) in
  reshape_F x V = Some X ->
  Forall (face_in_range V) fs ->
  (V <= length fs)%nat ->
  length (At0 self) = length fs ->
  (forall f fc,
      visited (form_mesh X fs) f -> nth_error fs f = Some fc ->
      triangle_area X fc <> Some 0 /\ nth_error (At0 self) f <> Some 0) ->
  exists g fn Nf At,
    gradient_penalty self x = Some g /\
    face_normal (form_mesh X fs) = Some fn /\
    reshape_C fn (length fs) = Some Nf /\
    face_area (form_mesh X fs) = Some At /\
    forall v adj f,
      (v < V)%nat ->
      get_face_adjacent_faces (form_mesh X fs) v = Some adj ->
      (f < length adj)%nat ->
      exists fc t0 t1 p0 p1 nf n pv a a0,
        nth_error fs f = Some fc /\
        nth_error (np_setdiff1d (face_list fc) v) 0 = Some t0 /\
        nth_error (np_setdiff1d (face_list fc) v) 1 = Some t1 /\
        nth_error X t0 = Some p0 /\
        nth_error X t1 = Some p1 /\
        nth_error Nf f = Some nf /\
        finite3 nf = Some n /\
        nth_error X v = Some pv /\
        nth_error At f = Some a /\
        nth_error (At0 self) f = Some a0 /\
        a0 <> 0 /\
        penalty_term X Nf fs At (At0 self) v f
        = Some (area_gradient_term n p0 p1 pv a a0) /\
        (norm3 (cross3 n (sub3 p0 p1)) * norm3 (sub3 pv p0) = 0 ->
         area_gradient_term n p0 p1 pv a a0
         = scale3 (2 * (a - a0) / a0) (cross3 n (sub3 p0 p1))).
Proof.
  intros V fs EX Hfs HVF LA0 Hvis.
  destruct (reshape_F_inv _ _ _ EX) as (Lx & LX).
  rewrite <- LX in Hfs.
  destruct (mapM_total (triangle_normal X) fs) as (ns & Ens).
  { eapply Forall_impl; [|exact Hfs]. intros fc Hfc.
    destruct (face_points_Some X fc Hfc) as ([[a b] c] & E).
    unfold triangle_normal. rewrite E. cbn [bind].
    destruct (cross3 (sub3 b a) (sub3 c a)) as [[n0 n1] n2]. eexists; reflexivity. }
  pose proof (mapM_length _ _ _ Ens) as Lns.
  destruct (face_area_Some X fs Hfs) as (At & EAt & LAt).
  assert (Hterm : forall v adj f,
            (v < V)%nat ->
            get_face_adjacent_faces (form_mesh X fs) v = Some adj ->
            (f < length adj)%nat ->
            exists fc t0 t1 p0 p1 nf n pv a a0,
              nth_error fs f = Some fc /\
              nth_error (np_setdiff1d (face_list fc) v) 0 = Some t0 /\
              nth_error (np_setdiff1d (face_list fc) v) 1 = Some t1 /\
              nth_error X t0 = Some p0 /\
              nth_error X t1 = Some p1 /\
              nth_error ns f = Some nf /\
              finite3 nf = Some n /\
              nth_error X v = Some pv /\
              nth_error At f = Some a /\
              nth_error (At0 self) f = Some a0 /\
              a0 <> 0 /\
              penalty_term X ns fs At (At0 self) v f
              = Some (area_gradient_term n p0 p1 pv a a0)).
  { intros v adj f Hv Eadj Hf.
    pose proof (adjacent_faces_length _ _ _ Eadj) as Ladj. cbn [faces] in Ladj.
    assert (Hff : (f < length fs)%nat) by lia.
    pose proof (nth_error_nth_lt fs f (0, 0, 0)%nat Hff) as Efc.
    set (fc := nth f fs (0, 0, 0)%nat) in *.
    destruct (Hvis f fc) as (Har & Ha0); [|exact Efc|].
    { exists v, adj. cbn [vertices]. rewrite LX. auto. }
    destruct (penalty_term_defined X ns fs At (At0 self) v f fc
                Hfs Ens LAt LA0 ltac:(lia) Efc Har Ha0)
      as (t0 & t1 & p0 & p1 & nf & n & pv & a & a0 & H).
    exists fc, t0, t1, p0, p1, nf, n, pv, a, a0. split; [exact Efc|exact H]. }
  assert (Hsum : forall v adj,
            (v < V)%nat ->
            get_face_adjacent_faces (form_mesh X fs) v = Some adj ->
            exists av, vertex_sum X ns fs At (At0 self) v (length adj) = Some av).
  { intros v adj Hv Eadj. unfold vertex_sum.
    destruct (foldM_total (fun _ : R * R * R => True)
                (fun av f =>
                   t <- penalty_term X ns fs At (At0 self) v f ;; Some (add3 av t))
                (seq 0 (length adj)) zero3) as (av & Eav & _); [|exact I|eauto].
    intros s f Hin _. apply in_seq in Hin.
    destruct (Hterm v adj f Hv Eadj ltac:(lia))
      as (fc & t0 & t1 & p0 & p1 & nf & n & pv & a & a0 & H).
    decompose [and] H. eexists. split; [|exact I].
    match goal with E : penalty_term _ _ _ _ _ _ _ = Some _ |- _ => rewrite E end.
    reflexivity. }
  destruct (foldM_total (fun a : list R => length a = length x)
              (fun a v =>
                 adj_faces <- get_face_adjacent_faces (form_mesh X fs) v ;;
                 av <- vertex_sum X ns fs At (At0 self) v (length adj_faces) ;;
                 set_slice3 a (3 * v) av)
              (seq 0 V) (np_zeros (length x))) as (a & Ea & _).
  { intros s v Hin Ls. apply in_seq in Hin.
    destruct (adjacent_faces_defined (form_mesh X fs) v) as (adj & Eadj & _).
    { cbn [faces]. lia. }
    destruct (Hsum v adj ltac:(lia) Eadj) as (av & Eav).
    destruct (set_slice3_defined s (3 * v) av) as (s' & Es'); [lia|].
    exists s'. rewrite Eadj. cbn [bind]. rewrite Eav. cbn [bind].
    split; [exact Es'|]. rewrite (set_slice3_length _ _ _ _ Es'). exact Ls. }
  { unfold np_zeros. apply repeat_length. }
  exists (scale (penalty self) a), (flatten_C ns), ns, At.
  split.
  { unfold gradient_penalty. fold V. fold fs. rewrite EX. cbn [bind].
    unfold face_normal. cbn [vertices faces]. rewrite Ens. cbn [bind].
    rewrite <- Lns, reshape_C_flatten_C. cbn [bind].
    rewrite EAt. cbn [bind]. rewrite Ea. reflexivity. }
  split.
  { unfold face_normal. cbn [vertices faces]. rewrite Ens. reflexivity. }
  split; [rewrite <- Lns; apply reshape_C_flatten_C|].
  split; [exact EAt|].
  intros v adj f Hv Eadj Hf.
  destruct (Hterm v adj f Hv Eadj Hf)
    as (fc & t0 & t1 & p0 & p1 & nf & n & pv & a1 & a0 & H).
  exists fc, t0, t1, p0, p1, nf, n, pv, a1, a0.
  decompose [and] H. repeat (split; [assumption|]).
  apply area_gradient_term_zero_divisor.
Qed.

Lemma gradient_penalty_total_without_sign_precondition_witness :
  reshape_F tetra_x 4 = Some tetra_X /\
  exists g, gradient_penalty (tetra_problem 1 0) tetra_x = Some g.
Proof.
  split; [exact tetra_reshape|].
  assert (Hvis : forall f fc,
            visited (form_mesh tetra_X (faces tetra_mesh)) f ->
            nth_error (faces tetra_mesh) f = Some fc ->
            triangle_area tetra_X fc <> Some 0 /\ nth_error tetra_At0 f <> Some 0).
  { intros f fc _ Efc.
    destruct f as [|[|[|[|f]]]]; [| | | |destruct f; discriminate];
      cbn in Efc; injection Efc as <-;
      (split; [|cbn; intros E; injection E; lra]); np_cbv.
    - rewrite (norm3_value _ 2); [|lra|np_cbv; ring]. intros E; injection E; lra.
    - rewrite (norm3_value _ 2); [|lra|np_cbv; ring]. intros E; injection E; lra.
    - rewrite (norm3_value _ 1); [|lra|np_cbv; ring]. intros E; injection E; lra.
    - rewrite (norm3_value _ 3); [|lra|np_cbv; ring]. intros E; injection E; lra. }
  destruct (gradient_penalty_total_without_sign_precondition
              (tetra_problem 1 0) tetra_x tetra_X
              tetra_reshape tetra_faces_in_range (le_n 4) eq_refl Hvis)
    as (g & fn & Nf & At & E & _).
  exists g. exact E.
Defined.

(** On the bipyramid with apex 1 moved onto apex 0 every face keeps
    its area and every rest area is positive.  At the loop positions
    of vertex 1 the first opposite vertex is vertex 0, so the divisor
    of the sign test is zero; [gradient_penalty] returns all the same,
    and the entries of vertex 1 in its result are not zero. *)
Lemma gradient_penalty_sign_test_counterexample :
  ~ (forall (self : problem) (x g : vec) X fn Nf,
       gradient_penalty self x = Some g ->
       reshape_F x (length (vertices (mesh self))) = Some X ->
       face_normal (form_mesh X (faces (mesh self))) = Some fn ->
       reshape_C fn (length (faces (mesh self))) = Some Nf ->
       forall v adj f,
         (v < length (vertices (mesh self)))%nat ->
         get_face_adjacent_faces (form_mesh X (faces (mesh self))) v = Some adj ->
         (f < length adj)%nat ->
         sign_test_nondegenerate X Nf (faces (mesh self)) v f)
  /\ exists self,
       init bipyramid_ext 1 0 bipyramid_mesh default_nu_grad_size = Some self /\
       Forall (fun a0 => 0 < a0) (At0 self) /\
       reshape_F bipyramid_x 5 = Some bipyramid_X /\
       nth_error bipyramid_X 1 = nth_error bipyramid_X 0 /\
       gradient_penalty self bipyramid_x = Some (scale 1 bipyramid_a) /\
       slot (scale 1 bipyramid_a) 1 <> zero3.
Proof.
  destruct (bipyramid_init 1 0) as (self & E & Hm & HA & Hp).
  pose proof (bipyramid_gradient_penalty self Hm HA) as Eg. rewrite Hp in Eg.
  split.
  - intros C.
    specialize (C self bipyramid_x _ bipyramid_X bipyramid_normals_flat
                  bipyramid_normals Eg).
    rewrite Hm in C.
    specialize (C bipyramid_reshape bipyramid_deformed_normals
                  bipyramid_normals_reshape 1%nat [0; 2; 4]%nat 0%nat
                  ltac:(simpl; lia) eq_refl ltac:(simpl; lia)).
    destruct (C (0, 2, 3)%nat 0%nat 2%nat (0, 0, 0) (2, 0, 0)
                (Some 0, Some 0, Some 1) (0, 0, 1) (0, 0, 0)
                eq_refl eq_refl eq_refl eq_refl eq_refl eq_refl eq_refl eq_refl)
      as (_ & Hne).
    apply Hne. reflexivity.
  - exists self. split; [exact E|]. split.
    { rewrite HA. unfold bipyramid_At0. repeat constructor; lra. }
    split; [exact bipyramid_reshape|]. split; [reflexivity|]. split; [exact Eg|].
    unfold slot, scale, bipyramid_a, zero3. cbn [map nth Nat.mul Nat.add].
    intros Z. injection Z. intros. lra.
Qed.


(** ** The penalty gradient against its documentation *)

Ltac eval_documented_sum l :=
  unfold documented_vertex_sum;
  change (vertex_adjacent_faces (faces tetra_mesh) _) with l;
  cbn [foldM bind];
  eval_penalty_term; eval_penalty_term; eval_penalty_term;
  cbv [area_gradient_term]; np_cbv; decide_signs; np_cbv; arr_eq; lra.

Lemma tetra_documented_sum_0 :
  documented_vertex_sum tetra_X tetra_normals (faces tetra_mesh) tetra_At tetra_At0 0
  = Some (-2, -3, 1).
Proof. eval_documented_sum [0; 1; 2]%nat. Qed.

Lemma tetra_documented_sum_1 :
  documented_vertex_sum tetra_X tetra_normals (faces tetra_mesh) tetra_At tetra_At0 1
  = Some (2, 0, 0).
Proof. eval_documented_sum [0; 1; 3]%nat. Qed.

Lemma tetra_documented_sum_2 :
  documented_vertex_sum tetra_X tetra_normals (faces tetra_mesh) tetra_At tetra_At0 2
  = Some (0, 3, 0).
Proof. eval_documented_sum [0; 2; 3]%nat. Qed.

Lemma tetra_documented_sum_3 :
  documented_vertex_sum tetra_X tetra_normals (faces tetra_mesh) tetra_At tetra_At0 3
  = Some (0, 0, -1).
Proof. eval_documented_sum [1; 2; 3]%nat. Qed.

Lemma tetra_gradient_penalty_documented pen ef :
  gradient_penalty_documented (tetra_problem pen ef) tetra_x
  = Some (scale pen tetra_a_documented).
Proof.
  unfold gradient_penalty_documented.
  change (length (vertices (mesh (tetra_problem pen ef)))) with 4%nat.
  change (faces (mesh (tetra_problem pen ef))) with (faces tetra_mesh).
  change (At0 (tetra_problem pen ef)) with tetra_At0.
  change (penalty (tetra_problem pen ef)) with pen.
  rewrite tetra_reshape. cbn [bind].
  rewrite tetra_deformed_normals. cbn [bind].
  change (length (faces tetra_mesh)) with 4%nat.
  rewrite tetra_normals_reshape. cbn [bind].
  rewrite tetra_deformed_areas. cbn [bind].
  cbn [mapM seq].
  rewrite tetra_documented_sum_0, tetra_documented_sum_1,
          tetra_documented_sum_2, tetra_documented_sum_3.
  reflexivity.
Qed.

(** C1 fails on the code.  At the tetrahedron state [tetra_x] the
    array that [gradient_penalty] returns differs from the documented
    gradient: the loop for vertex 1 runs over the face numbers 0, 1, 2
    (the count of faces around face number 1) although the faces that
    list vertex 1 are 0, 1, 3, and the sum of vertex 1 is stored at
    positions 3, 4, 5 where the column-major convention has 1, 5, 9. *)
Theorem gradient_penalty_differs_from_documented :
  init tetra_ext 1 0 tetra_mesh default_nu_grad_size = Some (tetra_problem 1 0) /\
  gradient_penalty (tetra_problem 1 0) tetra_x = Some (scale 1 tetra_a) /\
  gradient_penalty_documented (tetra_problem 1 0) tetra_x
    = Some (scale 1 tetra_a_documented) /\
  scale 1 tetra_a <> scale 1 tetra_a_documented /\
  get_face_adjacent_faces (form_mesh tetra_X (faces tetra_mesh)) 1 = Some [0; 2; 3]%nat /\
  vertex_adjacent_faces (faces tetra_mesh) 1 = [0; 1; 3]%nat /\
  vertex_sum tetra_X tetra_normals (faces tetra_mesh) tetra_At tetra_At0 1 3
    = Some (2, 0, -1) /\
  documented_vertex_sum tetra_X tetra_normals (faces tetra_mesh) tetra_At tetra_At0 1
    = Some (2, 0, 0) /\
  (nth 3 tetra_a 0, nth 4 tetra_a 0, nth 5 tetra_a 0) = (2, 0, -1) /\
  (nth 1 tetra_a_documented 0, nth 5 tetra_a_documented 0, nth 9 tetra_a_documented 0)
    = (2, 0, 0).
Proof.
  split; [apply tetra_init|].
  split; [apply tetra_gradient_penalty|].
  split; [apply tetra_gradient_penalty_documented|].
  split.
  { np_cbv. intros E. injection E. intros. lra. }
  split; [reflexivity|]. split; [reflexivity|].
  split; [exact tetra_vertex_sum_1|]. split; [exact tetra_documented_sum_1|].
  split; reflexivity.
Qed.

(** ** The secant update against its documentation *)

Lemma secant_update_documented_entries n Hp s y :
  has_shape n n Hp = true -> length s = n -> length y = n ->
  dot y s <> 0 -> quad Hp s <> 0 ->
  exists H',
    secant_update_documented Hp s y = Some H' /\
    has_shape n n H' = true /\
    forall i j, (i < n)%nat -> (j < n)%nat ->
      entry H' i j =
      entry Hp i j + nth i y 0 * nth j y 0 / dot y s
      - sum_n n (fun l =>
          sum_n n (fun k => entry Hp i k * (nth k s 0 * nth l s 0)) * entry Hp j l)
        / quad Hp s.
Proof.
  intros SHp Ls Ly Nys Nshs.
  pose proof (square_ncols _ _ SHp) as CHp.
  pose proof (has_shape_length _ _ _ SHp) as LHp.
  pose proof (has_shape_outer s s) as SOs. rewrite Ls in SOs.
  pose proof (has_shape_outer y y) as SOy. rewrite Ly in SOy.
  pose proof (has_shape_transpose_square _ _ SHp) as ST.
  destruct (sp_mul_square n _ _ SHp SOs) as (hs & Ehs & Shs & Ent1).
  destruct (sp_mul_square n _ _ Shs ST) as (hsh & Ehsh & Shsh & Ent2).
  unfold secant_update_documented.
  unfold np_inner. rewrite Ly, Ls, Nat.eqb_refl. cbn [bind].
  rewrite (nd_div_scalar_Some _ _ Nys). cbn [bind].
  rewrite Ehs. cbn [bind]. rewrite Ehsh. cbn [bind].
  unfold row_times_mat. rewrite Ls, LHp, CHp, Nat.eqb_refl, SHp. cbn [andb bind].
  unfold row_times_col, np_inner. rewrite length_map, length_seq, Ls, Nat.eqb_refl.
  cbn [bind].
  assert (Eq : dot (map (fun j => dot s (col Hp j)) (seq 0 n)) s = quad Hp s)
    by (unfold quad; rewrite CHp; reflexivity).
  rewrite Eq. rewrite (nd_div_scalar_Some _ _ Nshs). cbn [bind].
  pose proof (has_shape_map_map (fun r => r / dot y s) _ _ _ SOy) as SC.
  pose proof (has_shape_map_map (fun r => r / quad Hp s) _ _ _ Shsh) as SD.
  pose proof (has_shape_zip_with Rplus _ _ _ _ SHp SC) as ShC.
  unfold nd_add, nd_sub.
  rewrite (nd_binop_Some Rplus n n) by assumption. cbn [bind].
  rewrite (nd_binop_Some Rminus n n) by (try assumption; apply square_ncols; assumption).
  eexists. split; [reflexivity|]. split; [apply has_shape_zip_with; assumption|].
  intros i j Hi Hj.
  rewrite (entry_zip_with Rminus n n) by assumption.
  rewrite (entry_zip_with Rplus n n) by assumption.
  assert (EntMap : forall (A : mat) d, has_shape n n A = true ->
            entry (map (map (fun r => r / d)) A) i j = entry A i j / d).
  { intros A d SA. unfold entry.
    rewrite (nth_map_lt _ A i [] []) by (rewrite (has_shape_length _ _ _ SA); exact Hi).
    apply (nth_map_lt (fun r => r / d) (nth i A []) j 0 0).
    rewrite (has_shape_row n n A i SA Hi). exact Hj. }
  rewrite !EntMap by assumption.
  rewrite entry_outer by lia.
  rewrite (Ent2 i j Hi Hj).
  f_equal. f_equal. apply sum_n_ext. intros l Hl.
  rewrite (Ent1 i l Hi Hl).
  rewrite (entry_transpose n n Hp l j SHp Hl Hj).
  f_equal. apply sum_n_ext. intros k Hk.
  rewrite entry_outer by lia. reflexivity.
Qed.

(** The first update on the tetrahedron, as computed and as
    documented, at entry (1, 6): the element-wise product with the
    identity drops the off-diagonal part of s s^t. *)
Lemma tetra_first_update :
  exists u H H',
    length u = 12%nat /\
    force (tetra_problem 1 0) tetra_x = Some (scale 0 u) /\
    hessian_penalty (tetra_problem 1 0) tetra_x
    = Some (set_pre (tetra_problem 1 0)
              (zip_with Rplus (scale 1 tetra_a) (scale 0 u)) tetra_x H, H) /\
    secant_update_documented (np_eye 12)
      (zip_with Rminus tetra_x (np_zeros 12))
      (map (fun g => g - 0) (zip_with Rplus (scale 1 tetra_a) (scale 0 u))) = Some H' /\
    has_shape 12 12 H = true /\ has_shape 12 12 H' = true /\
    entry H 1 6 = 0 /\ entry H' 1 6 = - (1 / 3).
Proof.
  destruct tetra_hessian_penalty as (u & H & Lu & Ef & E).
  exists u, H.
  destruct (hessian_penalty_inv _ _ _ _ E)
    as (gp & fx & grad & s & y & Egp & Efx & Egrad & Es & Ey & _ & _ & _ & _ & SH & Ent).
  assert (gp = scale 1 tetra_a) as ->
    by (rewrite tetra_gradient_penalty in Egp; congruence).
  assert (fx = scale 0 u) as -> by congruence.
  destruct (np_binop_inv _ _ _ _ Egrad) as (_ & _ & ->).
  change (x_pre (tetra_problem 1 0)) with (np_zeros 12) in Es.
  destruct (np_binop_inv _ _ _ _ Es) as (_ & _ & ->).
  change (gradient_pre (tetra_problem 1 0)) with (Scalar 0) in Ey.
  assert (y = map (fun g => g - 0) (zip_with Rplus (scale 1 tetra_a) (scale 0 u))) as ->
    by (cbn [sub_pre] in Ey; congruence).
  change (hess_pre (tetra_problem 1 0)) with (np_eye 12) in Ent.
  change (length tetra_x) with 12%nat in Ent, SH.
  set (s := zip_with Rminus tetra_x (np_zeros 12)) in *.
  set (y := map (fun g => g - 0) (zip_with Rplus (scale 1 tetra_a) (scale 0 u))) in *.
  destruct (Ent 1%nat 6%nat ltac:(lia) ltac:(lia)) as (Nys & Nshs & E16).
  assert (Ls : length s = 12%nat) by reflexivity.
  assert (Ly : length y = 12%nat).
  { unfold y, scale. rewrite length_map, zip_with_length, !length_map, Lu. reflexivity. }
  destruct (secant_update_documented_entries 12 (np_eye 12) s y
              (has_shape_eye 12) Ls Ly Nys Nshs) as (H' & EH' & SH' & Ent').
  exists H'. split; [exact Lu|]. split; [exact Ef|]. split; [exact E|]. split; [exact EH'|].
  split; [exact SH|]. split; [exact SH'|].
  assert (Eys : dot y s = -7).
  { unfold y, s. destruct_length12 u Lu. np_cbv. lra. }
  assert (Equad : quad (np_eye 12) s = 6).
  { unfold s. cbv [quad]. np_cbv. lra. }
  split.
  - rewrite E16. unfold secant_entry. rewrite Eys, Equad.
    unfold y, s. destruct_length12 u Lu. cbv [entry]. np_cbv. lra.
  - rewrite (Ent' 1%nat 6%nat) by lia. rewrite Eys, Equad.
    unfold y, s. destruct_length12 u Lu. cbv [entry sum_n]. np_cbv. lra.
Qed.

Lemma hessian_entries self x self' R :
  hessian self x = Some (self', R) ->
  exists gp fx s y H,
    gradient_penalty self x = Some gp /\
    force self x = Some fx /\
    np_sub x (x_pre self) = Some s /\
    sub_pre (zip_with Rplus gp fx) (gradient_pre self) = Some y /\
    hessian_penalty self x = Some (self', H) /\
    gradient_pre self' = Array (zip_with Rplus gp fx) /\
    x_pre self' = x /\
    hess_pre self' = H /\
    forall i j, (i < length x)%nat -> (j < length x)%nat ->
      dot y s <> 0 /\ quad (hess_pre self) s <> 0 /\
      entry R i j =
      entry (hess self) i j
      + secant_entry (hess_pre self) s y (dot y s) (quad (hess_pre self) s) i j.
Proof.
  intros E.
  destruct (hessian_state _ _ _ _ E) as (grad0 & H & EH & _ & Eadd).
  destruct (hessian_penalty_inv _ _ _ _ EH)
    as (gp & fx & grad & s & y & Egp & Efx & Egrad & Es & Ey & Eself & _ & _ & _ & SH & Ent).
  destruct (np_binop_inv _ _ _ _ Egrad) as (_ & _ & ->).
  exists gp, fx, s, y, H.
  repeat (split; [assumption|]).
  split; [rewrite Eself; reflexivity|].
  split; [rewrite Eself; reflexivity|].
  split; [rewrite Eself; reflexivity|].
  intros i j Hi Hj.
  destruct (Ent i j Hi Hj) as (Nys & Nshs & Eij).
  split; [exact Nys|]. split; [exact Nshs|].
  destruct (nd_binop_inv _ _ _ _ Eadd) as (Sh & ShH & _ & ->).
  pose proof (has_shape_length _ _ _ ShH) as L1.
  pose proof (has_shape_length _ _ _ SH) as L2.
  assert (Lh : length (hess self) = length x) by lia.
  rewrite Lh in Sh, ShH.
  assert (Ch : ncols (hess self) = length x).
  { apply (has_shape_unique (length x) _ _ H ShH SH). lia. }
  rewrite Ch in Sh, ShH.
  rewrite (entry_zip_with Rplus _ _ _ _ i j Sh SH Hi Hj), Eij. reflexivity.
Qed.

(** C2 fails on the code in its term D.  Every [hessian(x)] call that
    returns adds the constant bending block to the stored update and
    overwrites [gradient_pre], [x_pre] and [hess_pre] as documented,
    with s, y and C as documented; but the numerator of D is the
    element-wise product of [hess_pre], s s^t and the transpose of
    [hess_pre], not their matrix product.  On the first call at the
    tetrahedron state [tetra_x] (where [hess_pre] is the identity)
    entry (1, 6) of the stored matrix is 0, while the documented update
    gives -1/3 there, and the returned matrices differ accordingly. *)
Theorem hessian_differs_from_documented :
  (forall self x self' R,
     hessian self x = Some (self', R) ->
     exists gp fx s y H,
       gradient_penalty self x = Some gp /\
       force self x = Some fx /\
       np_sub x (x_pre self) = Some s /\
       sub_pre (zip_with Rplus gp fx) (gradient_pre self) = Some y /\
       hessian_penalty self x = Some (self', H) /\
       gradient_pre self' = Array (zip_with Rplus gp fx) /\
       x_pre self' = x /\
       hess_pre self' = H /\
       forall i j, (i < length x)%nat -> (j < length x)%nat ->
         dot y s <> 0 /\ quad (hess_pre self) s <> 0 /\
         entry R i j =
         entry (hess self) i j
         + (entry (hess_pre self) i j + nth i y 0 * nth j y 0 / dot y s
            - entry (hess_pre self) i j * (nth i s 0 * nth j s 0)
              * entry (hess_pre self) j i / quad (hess_pre self) s)) /\
  (exists self' R gp fx s y H' R',
     init tetra_ext 1 0 tetra_mesh default_nu_grad_size = Some (tetra_problem 1 0) /\
     hessian (tetra_problem 1 0) tetra_x = Some (self', R) /\
     gradient_penalty (tetra_problem 1 0) tetra_x = Some gp /\
     force (tetra_problem 1 0) tetra_x = Some fx /\
     np_sub tetra_x (x_pre (tetra_problem 1 0)) = Some s /\
     sub_pre (zip_with Rplus gp fx) (gradient_pre (tetra_problem 1 0)) = Some y /\
     secant_update_documented (hess_pre (tetra_problem 1 0)) s y = Some H' /\
     nd_add (hessian_bending (tetra_problem 1 0)) H' = Some R' /\
     entry (hess_pre self') 1 6 = 0 /\
     entry H' 1 6 = - (1 / 3) /\
     entry R 1 6 = 0 /\
     entry R' 1 6 = - (1 / 3) /\
     R <> R').
Proof.
  split.
  - intros self x self' R E.
    destruct (hessian_entries _ _ _ _ E) as (gp & fx & s & y & H & T).
    exists gp, fx, s, y, H. exact T.
  - destruct tetra_first_update
      as (u & H & H' & Lu & Ef & E & EH' & SH & SH' & E16 & E16').
    pose proof (hessian_of_penalty _ _ _ _ E (tetra_hess_shape 1 0)) as ER.
    pose proof (tetra_hess_shape 1 0) as Sh.
    assert (Eh16 : entry (hess (tetra_problem 1 0)) 1 6 = 0)
      by (cbv [entry]; np_cbv; reflexivity).
    assert (ER' : nd_add (hessian_bending (tetra_problem 1 0)) H'
                  = Some (zip_with (zip_with Rplus) (hess (tetra_problem 1 0)) H')).
    { unfold nd_add, hessian_bending. apply (nd_binop_Some Rplus 12 12); auto. }
    assert (VR : entry (zip_with (zip_with Rplus) (hess (tetra_problem 1 0)) H) 1 6 = 0).
    { rewrite (entry_zip_with Rplus 12 12) by (auto; lia). rewrite Eh16, E16. ring. }
    assert (VR' : entry (zip_with (zip_with Rplus) (hess (tetra_problem 1 0)) H') 1 6
                  = - (1 / 3)).
    { rewrite (entry_zip_with Rplus 12 12) by (auto; lia). rewrite Eh16, E16'. ring. }
    eexists. eexists. exists (scale 1 tetra_a), (scale 0 u).
    eexists. eexists. exists H'. eexists.
    split; [apply tetra_init|].
    split; [exact ER|]. split; [apply tetra_gradient_penalty|]. split; [exact Ef|].
    split; [reflexivity|]. split; [reflexivity|]. split; [exact EH'|].
    split; [exact ER'|]. split; [exact E16|]. split; [exact E16'|].
    split; [exact VR|]. split; [exact VR'|].
    intros Heq. rewrite Heq in VR. rewrite VR in VR'. lra.
Qed.

Lemma hessian_differs_from_documented_witness :
  exists self' R,
    hessian (tetra_problem 1 0) tetra_x = Some (self', R) /\
    x_pre self' = tetra_x /\
    exists H, hessian_penalty (tetra_problem 1 0) tetra_x = Some (self', H) /\
              hess_pre self' = H.
Proof.
  destruct tetra_hessian as (self' & R & E).
  exists self', R. split; [exact E|].
  destruct (proj1 hessian_differs_from_documented _ _ _ _ E)
    as (gp & fx & s & y & H & _ & _ & _ & _ & EH & _ & Ex & EHp & _).
  split; [exact Ex|]. exists H. split; [exact EH|exact EHp].
Defined.

(** * Further properties of the evaluators *)

(** ** Flattening conventions *)

Lemma zip3_maps (X : list (R * R * R)) :
  zip3 (map (fun p => fst (fst p)) X) (map (fun p => snd (fst p)) X) (map snd X) = X.
Proof.
  unfold zip3. induction X as [|[[a b] c] X IH]; simpl; [reflexivity|].
  rewrite IH. reflexivity.
Qed.

Lemma reshape_F_flatten_F (X : list (R * R * R)) :
  reshape_F (flatten_F X) (length X) = Some X.
Proof.
  unfold reshape_F. rewrite flatten_F_length, Nat.eqb_refl. f_equal.
  unfold flatten_F.
  set (c0 := map (fun p => fst (fst p)) X).
  set (c1 := map (fun p => snd (fst p)) X).
  set (c2 := map snd X).
  assert (L0 : length c0 = length X) by apply length_map.
  assert (L1 : length c1 = length X) by apply length_map.
  assert (E0 : firstn (length X) (c0 ++ c1 ++ c2) = c0).
  { rewrite <- L0. rewrite firstn_app, Nat.sub_diag, firstn_all. simpl. apply app_nil_r. }
  assert (E1 : skipn (length X) (c0 ++ c1 ++ c2) = c1 ++ c2).
  { rewrite <- L0. rewrite skipn_app, Nat.sub_diag, skipn_all. reflexivity. }
  assert (E2 : skipn (2 * length X) (c0 ++ c1 ++ c2) = c2).
  { replace (2 * length X)%nat with (length X + length X)%nat by lia.
    rewrite <- skipn_skipn, E1. rewrite <- L1.
    rewrite skipn_app, Nat.sub_diag, skipn_all. reflexivity. }
  rewrite E0, E1, E2.
  assert (E3 : firstn (length X) (c1 ++ c2) = c1).
  { rewrite <- L1. rewrite firstn_app, Nat.sub_diag, firstn_all. simpl. apply app_nil_r. }
  rewrite E3. apply zip3_maps.
Qed.

Lemma zip3_columns c0 c1 c2 :
  length c1 = length c0 -> length c2 = length c0 ->
  flatten_F (zip3 c0 c1 c2) = c0 ++ c1 ++ c2.
Proof.
  unfold flatten_F, zip3.
  revert c1 c2; induction c0 as [|a c0 IH]; intros [|b c1] [|c c2] L1 L2;
    simpl in *; try discriminate; [reflexivity|].
  injection L1 as L1. injection L2 as L2.
  specialize (IH c1 c2 L1 L2).
  assert (Ha : map (fun p : R * R * R => fst (fst p))
                 (zip_with (fun a0 bc => (a0, fst bc, snd bc)) c0 (combine c1 c2)) = c0
               /\ map (fun p : R * R * R => snd (fst p))
                 (zip_with (fun a0 bc => (a0, fst bc, snd bc)) c0 (combine c1 c2)) = c1
               /\ map snd
                 (zip_with (fun a0 bc => (a0, fst bc, snd bc)) c0 (combine c1 c2)) = c2).
  { clear IH. revert c1 c2 L1 L2. induction c0 as [|a0 c0 IH0]; intros [|b1 c1] [|b2 c2] L1 L2;
      simpl in *; try discriminate; [auto|].
    injection L1 as L1. injection L2 as L2.
    destruct (IH0 c1 c2 L1 L2) as (E0 & E1 & E2). rewrite E0, E1, E2. auto. }
  destruct Ha as (E0 & E1 & E2). rewrite E0, E1, E2. reflexivity.
Qed.

Lemma flatten_F_reshape_F x V X : reshape_F x V = Some X -> flatten_F X = x.
Proof.
  intros E. destruct (reshape_F_inv _ _ _ E) as [Lx _].
  unfold reshape_F in E. rewrite Lx, Nat.eqb_refl in E. injection E as <-.
  rewrite zip3_columns.
  - rewrite <- (firstn_skipn V x) at 4. f_equal.
    rewrite <- (firstn_skipn V (skipn V x)) at 2. f_equal.
    rewrite skipn_skipn. f_equal. lia.
  - rewrite !length_firstn, length_skipn. lia.
  - rewrite length_firstn, length_skipn. lia.
Qed.

(** X1. The column-major flattening and unflattening used by every
    evaluator are inverse to each other, and the rest state [x0]
    stored at construction unflattens to the vertices of the mesh. *)
Theorem column_major_round_trip :
  (forall X : list (R * R * R), reshape_F (flatten_F X) (length X) = Some X) /\
  (forall x V X, reshape_F x V = Some X -> flatten_F X = x /\ length X = V) /\
  (forall x V, reshape_F x V = None <-> length x <> (3 * V)%nat) /\
  (forall ext pen ef m nu self,
     init ext pen ef m nu = Some self ->
     length (x0 self) = size_vertices (mesh self) /\
     reshape_F (x0 self) (length (vertices (mesh self))) = Some (vertices (mesh self))).
Proof.
  split; [exact reshape_F_flatten_F|]. split; [|split].
  - intros x V X E. split; [eapply flatten_F_reshape_F; exact E|].
    apply (reshape_F_inv _ _ _ E).
  - intros x V. unfold reshape_F.
    destruct (Nat.eqb_spec (length x) (3 * V)) as [E|E]; split; intros H;
      try discriminate; try contradiction; auto.
  - intros ext pen ef m nu self E.
    destruct (init_inv _ _ _ _ _ _ E) as (M & A0 & L & Minv & B & Lap & _ & _ & _ & _ & _ & _ & ->).
    cbn [x0 mesh]. split; [apply flatten_F_length|apply reshape_F_flatten_F].
Qed.

Lemma column_major_round_trip_witness :
  reshape_F tetra_x 4 = Some tetra_X /\
  flatten_F tetra_X = tetra_x /\
  reshape_F (x0 (tetra_problem 1 0)) 4 = Some (vertices tetra_mesh).
Proof.
  destruct column_major_round_trip as (_ & Hinv & _ & Hinit).
  split; [exact tetra_reshape|].
  split; [exact (proj1 (Hinv tetra_x 4%nat tetra_X tetra_reshape))|].
  exact (proj2 (Hinit tetra_ext 1 0 tetra_mesh default_nu_grad_size
                      (tetra_problem 1 0) (tetra_init 1 0))).
Defined.

(** ** Wrong input length *)

Lemma reshape_F_wrong_length x V : length x <> (3 * V)%nat -> reshape_F x V = None.
Proof.
  intros H. unfold reshape_F.
  destruct (Nat.eqb_spec (length x) (3 * V)); [contradiction|reflexivity].
Qed.

Lemma hessian_penalty_None_of_gradient self x :
  gradient_penalty self x = None -> hessian_penalty self x = None /\ hessian self x = None.
Proof.
  intros E. assert (Hp : hessian_penalty self x = None).
  { unfold hessian_penalty. rewrite E. reflexivity. }
  split; [exact Hp|]. unfold hessian. rewrite Hp. reflexivity.
Qed.

(** X2. A state vector whose length is not three times the number of
    mesh vertices is rejected by every evaluator that unflattens it:
    the penalty objective and gradient, the force, the combined
    objective and gradient and both Hessian evaluators deliver
    nothing.  On
    an object whose bending matrix is 3V x 3V the bending objective
    and gradient reject it as well. *)
Theorem wrong_length_rejected (self : problem) (x : vec) :
  length x <> (3 * length (vertices (mesh self)))%nat ->
  obj_func_penalty self x = None /\
  gradient_penalty self x = None /\
  force self x = None /\
  obj_func self x = None /\
  gradient self x = None /\
  hessian_penalty self x = None /\
  hessian self x = None /\
  (has_shape (3 * length (vertices (mesh self))) (3 * length (vertices (mesh self)))
             (hess self) = true ->
   obj_func_bending self x = None /\ gradient_bending self x = None).
Proof.
  intros H.
  pose proof (reshape_F_wrong_length _ _ H) as ER.
  assert (Ep : obj_func_penalty self x = None)
    by (unfold obj_func_penalty; rewrite ER; reflexivity).
  assert (Eg : gradient_penalty self x = None)
    by (unfold gradient_penalty; rewrite ER; reflexivity).
  assert (Ef : force self x = None) by (unfold force; rewrite ER; reflexivity).
  split; [exact Ep|]. split; [exact Eg|]. split; [exact Ef|].
  split.
  { unfold obj_func. rewrite Ep. destruct (obj_func_bending self x); reflexivity. }
  split.
  { unfold gradient. rewrite Eg. destruct (gradient_bending self x); reflexivity. }
  split; [apply hessian_penalty_None_of_gradient; exact Eg|].
  split; [apply hessian_penalty_None_of_gradient; exact Eg|].
  intros SH. pose proof (has_shape_length _ _ _ SH) as LH.
  pose proof (square_ncols _ _ SH) as CH.
  split.
  - unfold obj_func_bending, row_times_mat. rewrite LH.
    destruct (Nat.eqb_spec (length x) (3 * length (vertices (mesh self))));
      [contradiction|reflexivity].
  - unfold gradient_bending, sp_matvec. rewrite CH.
    destruct (Nat.eqb_spec (3 * length (vertices (mesh self))) (length x)) as [E|E].
    + exfalso. apply H. symmetry. exact E.
    + rewrite andb_false_r. reflexivity.
Qed.

Lemma wrong_length_rejected_witness :
  length [1; 2] <> (3 * length (vertices (mesh (tetra_problem 1 0))))%nat /\
  obj_func (tetra_problem 1 0) [1; 2] = None /\
  gradient (tetra_problem 1 0) [1; 2] = None /\
  hessian (tetra_problem 1 0) [1; 2] = None /\
  obj_func_bending (tetra_problem 1 0) [1; 2] = None.
Proof.
  assert (H : length [1; 2] <> (3 * length (vertices (mesh (tetra_problem 1 0))))%nat)
    by (simpl; lia).
  destruct (wrong_length_rejected (tetra_problem 1 0) [1; 2] H)
    as (_ & _ & _ & Eo & Eg & _ & Eh & Hb).
  split; [exact H|]. split; [exact Eo|]. split; [exact Eg|]. split; [exact Eh|].
  exact (proj1 (Hb eq_refl)).
Defined.

(** ** Shapes of the results *)

Lemma hessian_shape self x self' R :
  hessian self x = Some (self', R) ->
  has_shape (length x) (length x) R = true.
Proof.
  intros E.
  destruct (hessian_state _ _ _ _ E) as (grad & Hp & EHp & _ & Eadd).
  destruct (hessian_penalty_inv _ _ _ _ EHp)
    as (gp & fx & g & s & y & _ & _ & _ & _ & _ & _ & _ & _ & _ & SH & _).
  destruct (nd_binop_inv _ _ _ _ Eadd) as (Sh & ShH & SR & _).
  pose proof (has_shape_length _ _ _ ShH) as L1.
  pose proof (has_shape_length _ _ _ SH) as L2.
  assert (Lh : length (hess self) = length x) by lia.
  rewrite Lh in *.
  destruct (Nat.eq_dec (length x) 0) as [Z|Z].
  - rewrite Z in *. apply has_shape_length in SR.
    destruct R; [reflexivity|discriminate].
  - rewrite (has_shape_unique (length x) _ _ Hp ShH SH) in SR by lia. exact SR.
Qed.

(** X3. Whatever the evaluators return has the shape of its input:
    the penalty gradient, the force and the combined gradient have as
    many entries as x, which is three per mesh vertex, and the Hessian
    evaluators return square matrices with one row and one column per
    entry of x. *)
Theorem results_have_the_shape_of_x (self : problem) (x : vec) :
  (forall g, gradient_penalty self x = Some g ->
     length g = length x /\ length x = (3 * length (vertices (mesh self)))%nat) /\
  (forall c, force self x = Some c -> length c = length x) /\
  (forall printed g, gradient self x = Some (printed, g) ->
     length g = length x /\ length printed = 3%nat) /\
  (forall self' H, hessian_penalty self x = Some (self', H) ->
     has_shape (length x) (length x) H = true) /\
  (forall self' R, hessian self x = Some (self', R) ->
     has_shape (length x) (length x) R = true).
Proof.
  split; [|split; [|split; [|split]]].
  - intros g E. split; [eapply gradient_penalty_length; exact E|].
    destruct (gradient_penalty_inv _ _ _ E) as (X & _ & _ & _ & _ & EX & _).
    apply (reshape_F_inv _ _ _ EX).
  - intros c E. eapply force_length; exact E.
  - intros printed g E. apply gradient_inv in E.
    destruct E as (a & b & c & _ & Eb & Ec & La & -> & ->).
    pose proof (gradient_penalty_length _ _ _ Eb).
    pose proof (force_length _ _ _ Ec).
    split; [rewrite !zip_with_length; lia|reflexivity].
  - intros self' H E.
    destruct (hessian_penalty_inv _ _ _ _ E)
      as (gp & fx & g & s & y & _ & _ & _ & _ & _ & _ & _ & _ & _ & SH & _).
    exact SH.
  - intros self' R E. eapply hessian_shape; exact E.
Qed.

Lemma results_have_the_shape_of_x_witness :
  exists self' R,
    hessian (tetra_problem 1 0) tetra_x = Some (self', R) /\
    has_shape 12 12 R = true /\
    length (scale 1 tetra_a) = 12%nat.
Proof.
  destruct tetra_hessian as (self' & R & E).
  exists self', R. split; [exact E|].
  destruct (results_have_the_shape_of_x (tetra_problem 1 0) tetra_x)
    as (Hg & _ & _ & _ & HR).
  split; [exact (HR self' R E)|].
  exact (proj1 (Hg _ (tetra_gradient_penalty 1 0))).
Defined.

(** ** The force and the pressure *)

Lemma scale_scale k p u : scale (k * p) u = scale k (scale p u).
Proof.
  unfold scale. rewrite map_map. apply map_ext. intros a. ring.
Qed.

Lemma scale_zero u : scale 0 u = np_zeros (length u).
Proof.
  unfold scale, np_zeros. induction u as [|a u IH]; simpl; [reflexivity|].
  rewrite IH. f_equal. ring.
Qed.

(** X4. The force is linear in the pressure magnitude: replacing the
    pressure p by k p multiplies every entry of [force(x)] by k, and
    with pressure zero the force is the zero array wherever it is
    defined.  Whether the force is defined does not depend on the
    pressure. *)
Theorem force_linear_in_pressure (self : problem) (x c : vec) :
  force self x = Some c ->
  (forall k, force (with_pressure self (k * pressure self)) x = Some (scale k c)) /\
  force (with_pressure self 0) x = Some (np_zeros (length x)) /\
  (forall p, force (with_pressure self p) x <> None).
Proof.
  intros E. destruct (force_direction _ _ _ E) as (u & Lu & Fp & -> & _).
  split; [|split].
  - intros k. rewrite Fp. rewrite scale_scale. reflexivity.
  - rewrite Fp, scale_zero, Lu. reflexivity.
  - intros p. rewrite Fp. discriminate.
Qed.

Lemma force_linear_in_pressure_witness :
  exists c,
    force (tetra_problem 1 3) tetra_x = Some c /\
    force (with_pressure (tetra_problem 1 3) (2 * 3)) tetra_x = Some (scale 2 c) /\
    force (with_pressure (tetra_problem 1 3) 0) tetra_x = Some (np_zeros 12).
Proof.
  destruct (tetra_force 1 3) as (u & E & _).
  exists (scale 3 u). split; [exact E|].
  destruct (force_linear_in_pressure (tetra_problem 1 3) tetra_x (scale 3 u) E)
    as (Hk & H0 & _).
  split; [exact (Hk 2)|exact H0].
Defined.

Lemma scale_flatten_F p (U : list (R * R * R)) :
  scale p (flatten_F U) = flatten_F (map (scale3 p) U).
Proof.
  unfold scale, flatten_F. rewrite !map_app, !map_map.
  f_equal; [|f_equal]; apply map_ext; intros [[a b] c]; reflexivity.
Qed.

Lemma norm3_unit3 w : norm3 w <> 0 -> norm3 (unit3 w) = 1.
Proof.
  intros H. apply norm3_value; [lra|].
  assert (Hsq : norm3 w * norm3 w = dot3 w w).
  { unfold norm3. apply sqrt_sqrt. apply dot3_self_nonneg. }
  destruct w as [[a b] c]. unfold unit3. cbn [dot3] in *.
  set (n := norm3 (a, b, c)) in *.
  replace (a / n * (a / n) + b / n * (b / n) + c / n * (c / n))
    with ((a * a + b * b + c * c) / (n * n)) by (field; exact H).
  rewrite <- Hsq. field. exact H.
Qed.

Lemma norm3_scale3 p u : norm3 (scale3 p u) = Rabs p * norm3 u.
Proof.
  unfold norm3. destruct u as [[a b] c]. cbn [scale3 dot3].
  replace (p * a * (p * a) + p * b * (p * b) + p * c * (p * c))
    with (Rsqr p * (a * a + b * b + c * c)) by (unfold Rsqr; ring).
  rewrite sqrt_mult.
  - rewrite sqrt_Rsqr_abs. reflexivity.
  - apply Rle_0_sqr.
  - apply (dot3_self_nonneg (a, b, c)).
Qed.

Lemma unit_rows W U :
  mapM (fun w => div3 w (norm3 w)) W = Some U ->
  Forall (fun u => norm3 u = 1) U.
Proof.
  revert U; induction W as [|w W IH]; simpl; intros U E.
  - inversion E. constructor.
  - inv_bind E. rename a into u, E0 into Eu. inv_bind E. injection E as <-.
    constructor; [|apply IH; assumption].
    pose proof (div3_inv _ _ _ Eu) as Hn.
    rewrite (div3_norm3 _ Hn) in Eu. injection Eu as <-.
    apply norm3_unit3. exact Hn.
Qed.

(** X5. Wherever the force is defined, each vertex receives a force
    vector whose Euclidean length is the absolute value of the
    pressure: unflattening [force(x)] column by column gives V rows,
    every one of norm |pressure|. *)
Theorem force_rows_have_norm_pressure (self : problem) (x c : vec) :
  force self x = Some c ->
  exists rows,
    reshape_F c (length (vertices (mesh self))) = Some rows /\
    Forall (fun r => norm3 r = Rabs (pressure self)) rows.
Proof.
  intros E. destruct (force_inv _ _ _ E) as (X & W & U & _ & _ & EU & LU & ->).
  exists (map (scale3 (pressure self)) U). split.
  - rewrite scale_flatten_F. rewrite <- LU.
    rewrite <- (length_map (scale3 (pressure self)) U) at 1.
    apply reshape_F_flatten_F.
  - apply Forall_forall. intros r Hr. apply in_map_iff in Hr.
    destruct Hr as (u & <- & Hu).
    pose proof (unit_rows _ _ EU) as HU. rewrite Forall_forall in HU.
    rewrite norm3_scale3, (HU u Hu). ring.
Qed.

Lemma force_rows_have_norm_pressure_witness :
  exists c rows,
    force (tetra_problem 1 (-3)) tetra_x = Some c /\
    reshape_F c 4 = Some rows /\
    Forall (fun r => norm3 r = Rabs (-3)) rows.
Proof.
  destruct (tetra_force 1 (-3)) as (u & E & _).
  destruct (force_rows_have_norm_pressure (tetra_problem 1 (-3)) tetra_x _ E)
    as (rows & ER & HF).
  exists (scale (-3) u), rows. split; [exact E|]. split; [exact ER|exact HF].
Defined.

(** ** The penalty energy: sign, zero set, rest state *)

Lemma obj_func_penalty_value self x X At :
  reshape_F x (length (vertices (mesh self))) = Some X ->
  face_area (form_mesh X (faces (mesh self))) = Some At ->
  length (At0 self) = length (faces (mesh self)) ->
  Forall (fun a0 => 0 < a0) (At0 self) ->
  obj_func_penalty self x = Some (E_pen (penalty self) At (At0 self)).
Proof.
  intros EX EA L0 Hpos.
  assert (LA : length At = length (faces (mesh self)))
    by (unfold face_area in EA; apply (mapM_length _ _ _ EA)).
  unfold obj_func_penalty. rewrite EX. cbn [bind]. rewrite EA. cbn [bind].
  unfold np_sub. rewrite np_binop_Some by lia. cbn [bind].
  rewrite (mapM_map_total np_sqrt sqrt).
  2:{ eapply Forall_impl; [|exact Hpos]. intros a Ha. apply np_sqrt_Some; lra. }
  cbn [bind].
  destruct (relative_deviation At (At0 self)) as (q & Eq & Hq); [lia|assumption|].
  unfold np_div. rewrite zip_with_length, length_map, LA, L0, Nat.min_id, Nat.eqb_refl.
  rewrite Eq. cbn [bind]. rewrite norm_sq, Hq. reflexivity.
Qed.

Lemma deviation_term_nonneg a a0 : 0 < a0 -> 0 <= (a - a0) ^ 2 / a0.
Proof.
  intros H. apply Rmult_le_pos; [apply pow2_ge_0|].
  apply Rlt_le, Rinv_0_lt_compat, H.
Qed.

Lemma deviation_sum_nonneg At A0 :
  Forall (fun a0 => 0 < a0) A0 ->
  0 <= sum (zip_with (fun a a0 => (a - a0) ^ 2 / a0) At A0).
Proof.
  intros Hpos. revert At.
  induction Hpos as [|a0 A0 Ha0 _ IH]; intros [|a At];
    cbn [zip_with sum fold_right]; try lra.
  specialize (IH At). unfold sum in IH.
  pose proof (deviation_term_nonneg a a0 Ha0). lra.
Qed.

Lemma deviation_sum_zero At A0 :
  length At = length A0 ->
  Forall (fun a0 => 0 < a0) A0 ->
  (sum (zip_with (fun a a0 => (a - a0) ^ 2 / a0) At A0) = 0 <-> At = A0).
Proof.
  intros L Hpos. revert At L.
  induction Hpos as [|a0 A0 Ha0 Hpos IH]; intros [|a At] L;
    cbn [zip_with sum fold_right length] in *; try discriminate.
  - tauto.
  - injection L as L. specialize (IH At L). unfold sum in IH.
    pose proof (deviation_sum_nonneg At A0 Hpos) as Hrest. unfold sum in Hrest.
    pose proof (deviation_term_nonneg a a0 Ha0) as Hterm.
    split.
    + intros E.
      assert (E1 : (a - a0) ^ 2 / a0 = 0) by lra.
      assert (E2 : fold_right Rplus 0
                     (zip_with (fun a a0 => (a - a0) ^ 2 / a0) At A0) = 0) by lra.
      apply IH in E2. subst At. f_equal.
      unfold Rdiv in E1. apply Rmult_integral in E1. destruct E1 as [E1|E1].
      * simpl in E1. nra.
      * pose proof (Rinv_0_lt_compat a0 Ha0). lra.
    + intros E. injection E as -> ->.
      rewrite (proj2 IH eq_refl). unfold Rdiv. ring.
Qed.

(** X6. With positive rest areas and a nonnegative penalty weight the
    penalty energy is never negative, and with a positive weight it is
    zero exactly when every face of the deformed mesh has its rest
    area. *)
Theorem penalty_energy_sign_and_zero (self : problem) (x : vec) (X : list (R * R * R))
    (At : list R) :
  reshape_F x (length (vertices (mesh self))) = Some X ->
  face_area (form_mesh X (faces (mesh self))) = Some At ->
  length (At0 self) = length (faces (mesh self)) ->
  Forall (fun a0 => 0 < a0) (At0 self) ->
  exists e,
    obj_func_penalty self x = Some e /\
    (0 <= penalty self -> 0 <= e) /\
    (0 < penalty self -> (e = 0 <-> At = At0 self)).
Proof.
  intros EX EA L0 Hpos.
  assert (LA : length At = length (At0 self)).
  { unfold face_area in EA. rewrite (mapM_length _ _ _ EA). symmetry. exact L0. }
  exists (E_pen (penalty self) At (At0 self)).
  split; [apply (obj_func_penalty_value self x X At); assumption|].
  pose proof (deviation_sum_nonneg At (At0 self) Hpos) as Hs.
  unfold E_pen. split.
  - intros Hp. apply Rmult_le_pos; assumption.
  - intros Hp. rewrite <- (deviation_sum_zero At (At0 self) LA Hpos). split.
    + intros E. apply Rmult_integral in E. destruct E as [E|E]; [lra|exact E].
    + intros ->. ring.
Qed.

Lemma penalty_energy_sign_and_zero_witness :
  exists e,
    obj_func_penalty (tetra_problem 1 0) tetra_x = Some e /\ 0 <= e /\ e <> 0.
Proof.
  destruct (penalty_energy_sign_and_zero (tetra_problem 1 0) tetra_x tetra_X tetra_At
              tetra_reshape tetra_deformed_areas eq_refl tetra_At0_positive)
    as (e & E & Hge & Hz).
  exists e. split; [exact E|]. split; [apply Hge; simpl; lra|].
  intros Z. apply Hz in Z; [|simpl; lra].
  unfold tetra_At, tetra_At0 in Z. simpl in Z. injection Z. intros. lra.
Defined.

Lemma div3_value w d q :
  div3 w d = Some q -> q = (fst (fst w) / d, snd (fst w) / d, snd w / d).
Proof.
  intros E. pose proof (div3_inv _ _ _ E) as H.
  rewrite (div3_Some _ _ H) in E. congruence.
Qed.

Lemma penalty_term_equal_areas X Nf fs A v f t :
  penalty_term X Nf fs A A v f = Some t -> t = zero3.
Proof.
  intros E.
  destruct (penalty_term_inv _ _ _ _ _ _ _ _ E)
    as (fc & t0 & t1 & p0 & p1 & n & pv & ar & ar0 & _ & _ & _ & _ & _ & _ & _
        & Ear & Ear0 & -> & Hnz).
  assert (ar0 = ar) by congruence. subst ar0.
  unfold area_gradient_term.
  destruct (if Rlt_dec _ 0 then _ else _) as [[g0 g1] g2].
  unfold zero3. f_equal; [f_equal|]; field; exact Hnz.
Qed.

Lemma vertex_sum_equal_areas X Nf fs A v n av :
  vertex_sum X Nf fs A A v n = Some av -> av = zero3.
Proof.
  unfold vertex_sum. intros E.
  eapply (foldM_invariant (fun av => av = zero3)); [| |exact E]; [|reflexivity].
  intros s1 f s2 -> Es. inv_bind Es.
  apply penalty_term_equal_areas in E0. subst a. injection Es as <-.
  unfold add3, zero3. f_equal; [f_equal|]; ring.
Qed.

Lemma Forall_zero_eq l : Forall (eq 0) l -> l = np_zeros (length l).
Proof.
  unfold np_zeros. induction 1 as [|a l <- _ IH]; simpl; [reflexivity|].
  rewrite <- IH. reflexivity.
Qed.

Lemma Forall_firstn_skipn {A : Type} (P : A -> Prop) n l :
  Forall P l -> Forall P (firstn n l) /\ Forall P (skipn n l).
Proof.
  intros H. rewrite <- (firstn_skipn n l) in H. apply Forall_app in H. exact H.
Qed.

Lemma set_slice3_zero a i a' :
  Forall (eq 0) a -> set_slice3 a i zero3 = Some a' -> Forall (eq 0) a'.
Proof.
  unfold set_slice3, zero3. intros Ha E.
  destruct (Nat.leb (i + 3) (length a)); [|discriminate].
  injection E as <-.
  apply Forall_app. split; [apply (Forall_firstn_skipn _ i a Ha)|].
  repeat (constructor; [reflexivity|]). apply (Forall_firstn_skipn _ (i + 3) a Ha).
Qed.

Lemma mesh_eta m : form_mesh (vertices m) (faces m) = m.
Proof. destruct m; reflexivity. Qed.

(** X7. At the rest state of a constructed object with positive rest
    areas the penalty energy is zero, and the penalty gradient,
    wherever it is defined, is the zero array: every area deviation
    vanishes. *)
Theorem rest_state_penalty_vanishes ext pen ef m nu self :
  init ext pen ef m nu = Some self ->
  Forall (fun a0 => 0 < a0) (At0 self) ->
  obj_func_penalty self (x0 self) = Some 0 /\
  (forall g, gradient_penalty self (x0 self) = Some g ->
     g = np_zeros (size_vertices m)).
Proof.
  intros E Hpos.
  destruct (init_inv _ _ _ _ _ _ E)
    as (M & A0 & L & Minv & B & Lap & _ & EA & _ & _ & _ & _ & ->).
  cbn [At0 x0 mesh] in *.
  assert (EX : reshape_F (flatten_F (vertices m)) (length (vertices m))
               = Some (vertices m)) by apply reshape_F_flatten_F.
  assert (EA' : face_area (form_mesh (vertices m) (faces m)) = Some A0)
    by (rewrite mesh_eta; exact EA).
  assert (LA : length A0 = length (faces m))
    by (unfold face_area in EA; apply (mapM_length _ _ _ EA)).
  split.
  - erewrite obj_func_penalty_value; cbn [At0 mesh penalty]; try eassumption.
    f_equal. unfold E_pen.
    rewrite (proj2 (deviation_sum_zero A0 A0 eq_refl Hpos) eq_refl). ring.
  - intros g Eg.
    destruct (gradient_penalty_inv _ _ _ Eg)
      as (X & fn & Nf & At & a & EX' & _ & _ & EAt & Ea & ->).
    cbn [At0 mesh penalty] in *.
    rewrite EX in EX'. injection EX' as <-.
    rewrite EA' in EAt. injection EAt as <-.
    assert (Hz : Forall (eq 0) a).
    { eapply (foldM_invariant (fun a => Forall (eq 0) a)); [| |exact Ea].
      - intros s1 v s2 Hs1 Es. inv_bind Es. inv_bind Es.
        apply vertex_sum_equal_areas in E1. subst a1.
        eapply set_slice3_zero; eassumption.
      - unfold np_zeros. apply Forall_forall. intros r Hr.
        apply repeat_spec in Hr. congruence. }
    assert (La : length a = (3 * length (vertices m))%nat).
    { assert (Lg : length (scale pen a) = length (flatten_F (vertices m)))
        by (eapply gradient_penalty_length; exact Eg).
      unfold scale in Lg. rewrite length_map, flatten_F_length in Lg. exact Lg. }
    unfold size_vertices. rewrite <- La.
    rewrite <- (length_map (Rmult pen) a). apply Forall_zero_eq.
    unfold scale. apply Forall_forall. intros r Hr. apply in_map_iff in Hr.
    destruct Hr as (r0 & <- & Hr0). rewrite Forall_forall in Hz.
    rewrite <- (Hz r0 Hr0). ring.
Qed.

Lemma rest_state_penalty_vanishes_witness :
  init tetra_ext 1 0 tetra_mesh default_nu_grad_size = Some (tetra_problem 1 0) /\
  Forall (fun a0 => 0 < a0) (At0 (tetra_problem 1 0)) /\
  obj_func_penalty (tetra_problem 1 0) (x0 (tetra_problem 1 0)) = Some 0.
Proof.
  split; [apply tetra_init|]. split; [exact tetra_At0_positive|].
  exact (proj1 (rest_state_penalty_vanishes tetra_ext 1 0 tetra_mesh default_nu_grad_size
                  (tetra_problem 1 0) (tetra_init 1 0) tetra_At0_positive)).
Defined.

(** ** Translating the mesh *)

Lemma zip_with_app {A B C : Type} (f : A -> B -> C) a1 a2 b1 b2 :
  length a1 = length b1 ->
  zip_with f (a1 ++ a2) (b1 ++ b2) = zip_with f a1 b1 ++ zip_with f a2 b2.
Proof.
  revert b1; induction a1 as [|x a1 IH]; intros [|y b1] L; simpl in *; try discriminate.
  - reflexivity.
  - f_equal. apply IH. lia.
Qed.

Lemma zip_with_map2 {A B C D E : Type} (f : C -> D -> E) (g : A -> C) (h : B -> D) a b :
  zip_with f (map g a) (map h b) = zip_with (fun x y => f (g x) (h y)) a b.
Proof.
  revert b; induction a as [|x a IH]; intros [|y b]; simpl; try reflexivity.
  f_equal. apply IH.
Qed.

Lemma zip_with_repeat {A B C : Type} (f : A -> B -> C) a t :
  zip_with f a (repeat t (length a)) = map (fun x => f x t) a.
Proof.
  induction a as [|x a IH]; simpl; [reflexivity|]. f_equal. exact IH.
Qed.

Lemma map_zip_with {A B C D : Type} (g : C -> D) (f : A -> B -> C) a b :
  map g (zip_with f a b) = zip_with (fun x y => g (f x y)) a b.
Proof.
  revert b; induction a as [|x a IH]; intros [|y b]; simpl; try reflexivity.
  f_equal. apply IH.
Qed.

Lemma flatten_F_add (X T : list (R * R * R)) :
  length X = length T ->
  zip_with Rplus (flatten_F X) (flatten_F T) = flatten_F (zip_with add3 X T).
Proof.
  intros L. unfold flatten_F.
  rewrite !zip_with_app by (rewrite !length_map; exact L).
  rewrite !zip_with_map2, !map_zip_with.
  assert (Hext : forall (f g : R * R * R -> R * R * R -> R),
            (forall p q, f p q = g p q) -> zip_with f X T = zip_with g X T).
  { intros f g H. clear L. revert T. induction X as [|p X IH]; intros [|q T]; simpl;
      try reflexivity. rewrite H, IH. reflexivity. }
  f_equal; [|f_equal]; apply Hext; intros [[a b] c] [[a' b'] c']; reflexivity.
Qed.

Lemma reshape_F_translated x V X t x' :
  reshape_F x V = Some X ->
  np_add x (translation V t) = Some x' ->
  reshape_F x' V = Some (map (fun p => add3 p t) X).
Proof.
  intros EX Eadd.
  destruct (reshape_F_inv _ _ _ EX) as [Lx LX].
  pose proof (flatten_F_reshape_F _ _ _ EX) as Ex.
  destruct (np_binop_inv _ _ _ _ Eadd) as (_ & _ & ->).
  unfold translation. rewrite <- Ex, <- LX.
  rewrite flatten_F_add by (rewrite repeat_length; reflexivity).
  rewrite zip_with_repeat.
  pose proof (reshape_F_flatten_F (map (fun p => add3 p t) X)) as Hr.
  rewrite length_map in Hr. exact Hr.
Qed.

Lemma sub3_translated a b t : sub3 (add3 a t) (add3 b t) = sub3 a b.
Proof.
  destruct a as [[a0 a1] a2], b as [[b0 b1] b2], t as [[t0 t1] t2].
  unfold sub3, add3. f_equal; [f_equal|]; ring.
Qed.

Lemma face_points_translated X t f :
  face_points (map (fun p => add3 p t) X) f =
  match face_points X f with
  | Some (a, b, c) => Some (add3 a t, add3 b t, add3 c t)
  | None => None
  end.
Proof.
  destruct f as [[i j] k]. unfold face_points. rewrite !nth_error_map.
  destruct (nth_error X i) as [a|]; [|reflexivity].
  destruct (nth_error X j) as [b|]; [|reflexivity].
  destruct (nth_error X k) as [c|]; reflexivity.
Qed.

Lemma mapM_ext {A B : Type} (f g : A -> option B) l :
  (forall a, f a = g a) -> mapM f l = mapM g l.
Proof.
  intros H. induction l as [|a l IH]; simpl; [reflexivity|]. rewrite H, IH. reflexivity.
Qed.

Lemma face_area_translated X t fs :
  face_area (form_mesh (map (fun p => add3 p t) X) fs) = face_area (form_mesh X fs).
Proof.
  unfold face_area. cbn [vertices faces]. apply mapM_ext. intros f.
  unfold triangle_area. rewrite face_points_translated.
  destruct (face_points X f) as [[[a b] c]|]; [|reflexivity].
  cbn [bind]. rewrite !sub3_translated. reflexivity.
Qed.

Lemma face_normal_translated X t fs :
  face_normal (form_mesh (map (fun p => add3 p t) X) fs) = face_normal (form_mesh X fs).
Proof.
  unfold face_normal. cbn [vertices faces]. f_equal. apply mapM_ext. intros f.
  unfold triangle_normal. rewrite face_points_translated.
  destruct (face_points X f) as [[[a b] c]|]; [|reflexivity].
  cbn [bind]. rewrite !sub3_translated. reflexivity.
Qed.

Lemma penalty_term_translated X t Nf fs At A0 v f :
  penalty_term (map (fun p => add3 p t) X) Nf fs At A0 v f =
  penalty_term X Nf fs At A0 v f.
Proof.
  unfold penalty_term.
  destruct (nth_error fs f) as [fc|]; [|reflexivity]. cbn [bind].
  destruct (nth_error (np_setdiff1d (face_list fc) v) 0) as [t0|]; [|reflexivity].
  cbn [bind].
  destruct (nth_error (np_setdiff1d (face_list fc) v) 1) as [t1|]; [|reflexivity].
  cbn [bind]. rewrite !nth_error_map.
  destruct (nth_error X t0) as [p0|]; [|reflexivity]. cbn [option_map bind].
  destruct (nth_error X t1) as [p1|]; [|reflexivity]. cbn [option_map bind].
  destruct (nth_error Nf f) as [n|]; [|reflexivity]. cbn [bind].
  destruct (nth_error X v) as [pv|]; [|reflexivity]. cbn [option_map bind].
  rewrite !sub3_translated. reflexivity.
Qed.

Lemma foldM_ext {A S : Type} (f g : S -> A -> option S) l s :
  (forall s a, f s a = g s a) -> foldM f l s = foldM g l s.
Proof.
  intros H. revert s. induction l as [|a l IH]; intros s; simpl; [reflexivity|].
  rewrite H. destruct (g s a); simpl; [apply IH|reflexivity].
Qed.

Lemma vertex_sum_translated X t Nf fs At A0 v n :
  vertex_sum (map (fun p => add3 p t) X) Nf fs At A0 v n = vertex_sum X Nf fs At A0 v n.
Proof.
  unfold vertex_sum. apply foldM_ext. intros av f.
  rewrite penalty_term_translated. reflexivity.
Qed.

(** X8. Moving every vertex by one and the same vector changes
    neither the penalty energy nor the penalty gradient (nor whether
    they are defined): both depend on the vertex positions only
    through differences of positions. *)
Theorem penalty_translation_invariant (self : problem) (x x' : vec) (t : R * R * R) :
  np_add x (translation (length (vertices (mesh self))) t) = Some x' ->
  obj_func_penalty self x' = obj_func_penalty self x /\
  gradient_penalty self x' = gradient_penalty self x.
Proof.
  intros Eadd.
  destruct (np_binop_inv _ _ _ _ Eadd) as (Lx & Lx' & _).
  unfold translation in Lx. rewrite flatten_F_length, repeat_length in Lx.
  destruct (reshape_F_Some x _ Lx) as (X & EX & _).
  pose proof (reshape_F_translated _ _ _ _ _ EX Eadd) as EX'.
  split.
  - unfold obj_func_penalty. rewrite EX, EX'. cbn [bind].
    rewrite face_area_translated. reflexivity.
  - unfold gradient_penalty. rewrite EX, EX'. cbn [bind].
    rewrite face_normal_translated, face_area_translated. cbn [faces].
    destruct (face_normal (form_mesh X (faces (mesh self)))) as [fn|]; [|reflexivity].
    cbn [bind].
    destruct (reshape_C fn (length (faces (mesh self)))) as [Nf|]; [|reflexivity].
    cbn [bind].
    destruct (face_area (form_mesh X (faces (mesh self)))) as [At|]; [|reflexivity].
    cbn [bind]. rewrite Lx'.
    erewrite foldM_ext; [reflexivity|].
    intros a v. cbv beta.
    change (get_face_adjacent_faces
              (form_mesh (map (fun p => add3 p t) X) (faces (mesh self))) v)
      with (get_face_adjacent_faces (form_mesh X (faces (mesh self))) v).
    destruct (get_face_adjacent_faces (form_mesh X (faces (mesh self))) v) as [adj|];
      [|reflexivity].
    cbn [bind]. rewrite vertex_sum_translated. reflexivity.
Qed.

Lemma penalty_translation_invariant_witness :
  exists x',
    np_add tetra_x (translation 4 (5, -1, 2)) = Some x' /\
    gradient_penalty (tetra_problem 1 0) x' = Some (scale 1 tetra_a) /\
    obj_func_penalty (tetra_problem 1 0) x' = obj_func_penalty (tetra_problem 1 0) tetra_x.
Proof.
  exists (zip_with Rplus tetra_x (translation 4 (5, -1, 2))).
  split; [reflexivity|].
  destruct (penalty_translation_invariant (tetra_problem 1 0) tetra_x
              (zip_with Rplus tetra_x (translation 4 (5, -1, 2))) (5, -1, 2) eq_refl)
    as (Eo & Eg).
  split; [rewrite Eg; apply tetra_gradient_penalty|exact Eo].
Defined.

(** ** The bending energy as a quadratic form *)

Lemma bending_block_symmetric V L Minv a b :
  (forall k l, (k < V)%nat -> (l < V)%nat -> entry Minv k l = entry Minv l k) ->
  bending_block L Minv V a b = bending_block L Minv V b a.
Proof.
  intros HM. unfold bending_block. rewrite sum_n_swap.
  apply sum_n_ext. intros l Hl. apply sum_n_ext. intros k Hk.
  rewrite (HM k l Hk Hl). ring.
Qed.

Lemma block_diag3_symmetric V B :
  has_shape V V B = true ->
  (forall i j, (i < V)%nat -> (j < V)%nat -> entry B i j = entry B j i) ->
  symmetric (block_diag3 B).
Proof.
  intros SB HB. pose proof (has_shape_block_diag3 V B SB) as SH.
  pose proof (has_shape_length _ _ _ SH) as LH.
  unfold symmetric. rewrite LH. split; [exact SH|].
  apply symmetric_entries; rewrite LH; [exact SH|].
  intros i j Hi Hj.
  destruct (index_split V i Hi) as (a & i' & Ha & Hi' & ->).
  destruct (index_split V j Hj) as (b & j' & Hb & Hj' & ->).
  rewrite !(entry_block_diag3 V B) by assumption.
  rewrite (Nat.eqb_sym b a). destruct (Nat.eqb a b); [apply HB; assumption|reflexivity].
Qed.

Lemma init_hess_symmetric ext pen ef m nu self L Minv M :
  init ext pen ef m nu = Some self ->
  assemble_lumped_mass ext m = Some M ->
  assemble_laplacian ext m = Some L ->
  sp_inv ext M = Some Minv ->
  has_shape (length (vertices m)) (length (vertices m)) L = true ->
  length Minv = length (vertices m) ->
  symmetric Minv ->
  symmetric (hess self).
Proof.
  intros E EM EL EMinv SL LM [SM TM]. rewrite LM in SM.
  destruct (init_inv _ _ _ _ _ _ E)
    as (M' & A0 & L' & Minv' & B & Lap & EM' & _ & EL' & EMinv' & EB & _ & ->).
  assert (M' = M) by congruence. subst M'.
  assert (L' = L) by congruence. subst L'.
  assert (Minv' = Minv) by congruence. subst Minv'.
  destruct (bending_block_product _ L Minv SL SM) as (B' & EB' & SB & EntB).
  assert (B' = B) by congruence. subst B'.
  cbn [hess]. apply (block_diag3_symmetric (length (vertices m))); [exact SB|].
  intros i j Hi Hj. rewrite !EntB by assumption.
  apply bending_block_symmetric. intros k l Hk Hl.
  apply symmetric_entries; rewrite ?LM; assumption.
Qed.

Lemma quad_expansion n (H : list (list R)) (x h : list R) :
  has_shape n n H = true ->
  (forall i j, (i < n)%nat -> (j < n)%nat -> entry H i j = entry H j i) ->
  length x = n -> length h = n ->
  quad H (zip_with Rplus x h) =
  quad H x
  + 2 * dot (map (fun i => sum_n n (fun j => entry H i j * nth j x 0)) (seq 0 n)) h
  + quad H h.
Proof.
  intros SH Hsym Lx Lh.
  assert (Lxh : length (zip_with Rplus x h) = n) by (rewrite zip_with_length; lia).
  rewrite !(quad_sum_n n) by assumption.
  rewrite (dot_sum_n _ h n) by (rewrite ?length_map, ?length_seq; auto).
  set (Hx := fun i => sum_n n (fun j => entry H i j * nth j x 0)).
  assert (E1 : sum_n n (fun i => sum_n n (fun j => nth i x 0 * entry H i j * nth j h 0))
               = sum_n n (fun i => Hx i * nth i h 0)).
  { rewrite sum_n_swap. apply sum_n_ext. intros i Hi. unfold Hx.
    rewrite sum_n_mult_r. apply sum_n_ext. intros j Hj.
    rewrite (Hsym i j Hi Hj). ring. }
  assert (E2 : sum_n n (fun i => sum_n n (fun j => nth i h 0 * entry H i j * nth j x 0))
               = sum_n n (fun i => Hx i * nth i h 0)).
  { apply sum_n_ext. intros i Hi. unfold Hx.
    rewrite sum_n_mult_r. apply sum_n_ext. intros j Hj. ring. }
  assert (E3 : sum_n n (fun k => nth k (map Hx (seq 0 n)) 0 * nth k h 0)
               = sum_n n (fun i => Hx i * nth i h 0)).
  { apply sum_n_ext. intros k Hk.
    rewrite (nth_map_lt Hx (seq 0 n) k 0 0%nat) by (rewrite length_seq; exact Hk).
    rewrite seq_nth by exact Hk. reflexivity. }
  rewrite E3.
  replace (2 * sum_n n (fun i => Hx i * nth i h 0))
    with (sum_n n (fun i => sum_n n (fun j => nth i x 0 * entry H i j * nth j h 0))
          + sum_n n (fun i => sum_n n (fun j => nth i h 0 * entry H i j * nth j x 0)))
    by (rewrite E1, E2; ring).
  rewrite <- !sum_n_plus.
  apply sum_n_ext. intros i Hi.
  rewrite <- !sum_n_plus.
  apply sum_n_ext. intros j Hj.
  rewrite !(nth_zip_with_lt Rplus x h _ 0 0 0) by lia.
  ring.
Qed.

(** X9. When the bending matrix is symmetric, [gradient_bending] is
    the exact gradient of [obj_func_bending]: for all x and h of the
    right length the energy at x + h is the energy at x plus the inner
    product of [gradient_bending(x)] with h plus the energy of h. *)
Theorem bending_second_order_expansion (self : problem) (x h : vec) :
  symmetric (hess self) ->
  length x = length (hess self) ->
  length h = length (hess self) ->
  exists ex eh g,
    obj_func_bending self x = Some ex /\
    obj_func_bending self h = Some eh /\
    gradient_bending self x = Some g /\
    obj_func_bending self (zip_with Rplus x h) = Some (ex + dot g h + eh).
Proof.
  intros [SH TH] Lx Lh.
  set (n := length (hess self)) in *.
  assert (Hsym : forall i j, (i < n)%nat -> (j < n)%nat ->
            entry (hess self) i j = entry (hess self) j i)
    by (apply symmetric_entries; assumption).
  assert (Lxh : length (zip_with Rplus x h) = n) by (rewrite zip_with_length; lia).
  exists (quad (hess self) x / 2), (quad (hess self) h / 2).
  eexists.
  split; [apply obj_func_bending_square; rewrite Lx; exact SH|].
  split; [apply obj_func_bending_square; rewrite Lh; exact SH|].
  split; [unfold gradient_bending; apply (sp_matvec_square n); assumption|].
  rewrite obj_func_bending_square by (rewrite Lxh; exact SH).
  rewrite (quad_expansion n) by assumption. f_equal. field.
Qed.

Lemma tetra_Minv_symmetric : symmetric tetra_Minv.
Proof. split; reflexivity. Qed.

Lemma tetra_hess_symmetric pen ef : symmetric (hess (tetra_problem pen ef)).
Proof.
  apply (init_hess_symmetric tetra_ext pen ef tetra_mesh default_nu_grad_size
           (tetra_problem pen ef) tetra_L tetra_Minv tetra_M);
    try reflexivity; [apply tetra_init|exact tetra_Minv_symmetric].
Qed.

Lemma bending_second_order_expansion_witness :
  symmetric (hess (tetra_problem 1 0)) /\
  exists ex eh g,
    obj_func_bending (tetra_problem 1 0) tetra_x = Some ex /\
    obj_func_bending (tetra_problem 1 0) tetra_a = Some eh /\
    gradient_bending (tetra_problem 1 0) tetra_x = Some g /\
    obj_func_bending (tetra_problem 1 0) (zip_with Rplus tetra_x tetra_a)
    = Some (ex + dot g tetra_a + eh).
Proof.
  split; [apply tetra_hess_symmetric|].
  exact (bending_second_order_expansion (tetra_problem 1 0) tetra_x tetra_a
           (tetra_hess_symmetric 1 0) eq_refl eq_refl).
Defined.

(** ** Symmetry of what [hessian] returns *)

Lemma nd_add_symmetric A B C :
  symmetric A -> symmetric B -> nd_add A B = Some C -> symmetric C.
Proof.
  intros [SA TA] [SB TB] E.
  destruct (nd_binop_inv _ _ _ _ E) as (_ & SB' & SC & ->).
  rewrite (square_ncols _ _ SA) in SB', SC.
  set (n := length A) in *.
  pose proof (has_shape_length _ _ _ SB') as LB. rewrite LB in SB.
  pose proof (has_shape_length _ _ _ SC) as LC.
  unfold symmetric. rewrite LC. split; [exact SC|].
  apply symmetric_entries; rewrite LC; [exact SC|].
  intros i j Hi Hj.
  rewrite !(entry_zip_with Rplus n n) by assumption.
  f_equal; apply symmetric_entries; rewrite ?LB; assumption.
Qed.

Lemma hessian_symmetric self x self' R :
  symmetric (hess self) -> symmetric (hess_pre self) ->
  hessian self x = Some (self', R) ->
  symmetric R /\ symmetric (hess_pre self') /\ hess self' = hess self.
Proof.
  intros Sh Sp E.
  destruct (hessian_state _ _ _ _ E) as (grad & Hp & EHp & Eself & Eadd).
  destruct (hessian_penalty_symmetric _ _ _ _ Sp EHp) as [SHp EHp'].
  split; [exact (nd_add_symmetric (hess self) Hp R Sh SHp Eadd)|].
  split; [rewrite EHp'; exact SHp|]. rewrite Eself. reflexivity.
Qed.

Lemma hessian_calls_symmetric self xs self' Rs :
  symmetric (hess self) -> symmetric (hess_pre self) ->
  hessian_calls self xs = Some (self', Rs) ->
  Forall symmetric Rs /\ symmetric (hess_pre self') /\ hess self' = hess self.
Proof.
  revert self Rs. induction xs as [|x xs IH]; intros self Rs Sh Sp E; simpl in E.
  - injection E as <- <-. split; [constructor|]. split; [exact Sp|reflexivity].
  - apply bind_Some in E. destruct E as ([self1 R] & Ecall & E).
    apply bind_Some in E. destruct E as ([self2 Rs'] & Erest & E).
    injection E as <- <-.
    destruct (hessian_symmetric _ _ _ _ Sh Sp Ecall) as (SR & Sp1 & Eh1).
    destruct (IH self1 Rs' ltac:(rewrite Eh1; exact Sh) Sp1 Erest) as (F & Sp2 & Eh2).
    split; [constructor; assumption|]. split; [exact Sp2|]. congruence.
Qed.

(** X10. On an object constructed from a V x V Laplacian and a
    symmetric V x V inverse mass matrix (a lumped mass matrix is
    diagonal) the constant bending Hessian is symmetric, and every
    matrix returned along any sequence of [hessian] calls is
    symmetric. *)
Theorem hessian_results_symmetric ext pen ef m nu self0 M L Minv :
  init ext pen ef m nu = Some self0 ->
  assemble_lumped_mass ext m = Some M ->
  assemble_laplacian ext m = Some L ->
  sp_inv ext M = Some Minv ->
  has_shape (length (vertices m)) (length (vertices m)) L = true ->
  length Minv = length (vertices m) ->
  symmetric Minv ->
  symmetric (hessian_bending self0) /\
  forall xs self' Rs,
    hessian_calls self0 xs = Some (self', Rs) ->
    Forall symmetric Rs /\ hessian_bending self' = hessian_bending self0.
Proof.
  intros E EM EL EMinv SL LM SM.
  pose proof (init_hess_symmetric _ _ _ _ _ _ _ _ _ E EM EL EMinv SL LM SM) as Sh.
  split; [exact Sh|].
  intros xs self' Rs Ecalls.
  assert (Sp : symmetric (hess_pre self0)).
  { destruct (init_inv _ _ _ _ _ _ E) as (? & ? & ? & ? & ? & ? & _ & _ & _ & _ & _ & _ & ->).
    apply symmetric_eye. }
  destruct (hessian_calls_symmetric _ _ _ _ Sh Sp Ecalls) as (F & _ & Eh).
  split; [exact F|exact Eh].
Qed.

Lemma hessian_results_symmetric_witness :
  init tetra_ext 1 0 tetra_mesh default_nu_grad_size = Some (tetra_problem 1 0) /\
  symmetric tetra_Minv /\
  symmetric (hessian_bending (tetra_problem 1 0)) /\
  exists self' R,
    hessian_calls (tetra_problem 1 0) [tetra_x] = Some (self', [R]) /\ symmetric R.
Proof.
  split; [apply tetra_init|]. split; [exact tetra_Minv_symmetric|].
  destruct (hessian_results_symmetric tetra_ext 1 0 tetra_mesh default_nu_grad_size
              (tetra_problem 1 0) tetra_M tetra_L tetra_Minv
              (tetra_init 1 0) eq_refl eq_refl eq_refl eq_refl eq_refl tetra_Minv_symmetric)
    as (Sh & Hseq).
  split; [exact Sh|].
  destruct tetra_hessian as (self' & R & E).
  exists self', R.
  assert (Ecalls : hessian_calls (tetra_problem 1 0) [tetra_x] = Some (self', [R])).
  { cbn [hessian_calls]. rewrite E. reflexivity. }
  split; [exact Ecalls|].
  destruct (Hseq _ _ _ Ecalls) as (F & _). inversion F; assumption.
Defined.

(** ** When the secant update is defined *)

Lemma hessian_needs_square_hess self x self' R :
  x <> [] -> hessian self x = Some (self', R) ->
  has_shape (length x) (length x) (hess self) = true.
Proof.
  intros Hx E.
  destruct (hessian_state _ _ _ _ E) as (grad & Hp & EHp & _ & Eadd).
  destruct (hessian_penalty_inv _ _ _ _ EHp)
    as (gp & fx & g & s & y & _ & _ & _ & _ & _ & _ & _ & _ & _ & SH & _).
  destruct (nd_binop_inv _ _ _ _ Eadd) as (Sh & ShH & _ & _).
  pose proof (has_shape_length _ _ _ ShH) as L1.
  pose proof (has_shape_length _ _ _ SH) as L2.
  assert (Hn : (0 < length x)%nat) by (destruct x; [contradiction|simpl; lia]).
  assert (Lh : length (hess self) = length x) by lia.
  rewrite Lh in Sh, ShH.
  rewrite (has_shape_unique (length x) _ _ Hp ShH SH Hn) in Sh. exact Sh.
Qed.

(** X11. For a nonempty x, [hessian(x)] returns a matrix exactly when
    the penalty gradient and the force are defined at x, the stored
    previous position, gradient and approximation have the shapes of
    x, the bending matrix is square of that size, and neither
    denominator y.s nor s.H.s is zero; there is no other way for the
    call to fail or to succeed. *)
Theorem hessian_defined_iff (self : problem) (x : vec) :
  x <> [] ->
  (hessian self x <> None <->
   exists gp fx s y,
     gradient_penalty self x = Some gp /\
     force self x = Some fx /\
     np_sub x (x_pre self) = Some s /\
     sub_pre (zip_with Rplus gp fx) (gradient_pre self) = Some y /\
     has_shape (length x) (length x) (hess_pre self) = true /\
     has_shape (length x) (length x) (hess self) = true /\
     dot y s <> 0 /\
     quad (hess_pre self) s <> 0).
Proof.
  intros Hx. split.
  - intros Hdef. destruct (hessian self x) as [[self' R]|] eqn:E; [|contradiction].
    pose proof (hessian_needs_square_hess _ _ _ _ Hx E) as Sh.
    destruct (hessian_state _ _ _ _ E) as (grad & Hp & EHp & _ & _).
    destruct (hessian_penalty_inv _ _ _ _ EHp)
      as (gp & fx & g & s & y & Egp & Efx & Egrad & Es & Ey & _ & _ & _ & SHp & _ & Ent).
    destruct (np_binop_inv _ _ _ _ Egrad) as (_ & _ & ->).
    assert (Hn : (0 < length x)%nat) by (destruct x; [contradiction|simpl; lia]).
    destruct (Ent 0%nat 0%nat Hn Hn) as (Nys & Nshs & _).
    exists gp, fx, s, y. repeat (split; [assumption|]). assumption.
  - intros (gp & fx & s & y & Egp & Efx & Es & Ey & SHp & Sh & Nys & Nshs).
    destruct (np_binop_inv _ _ _ _ Es) as (Lp & _ & ->).
    destruct (hessian_penalty_defined self x gp fx y Egp Efx (eq_sym Lp) Ey SHp Nys Nshs)
      as (H & EH).
    rewrite (hessian_of_penalty _ _ _ _ EH Sh). discriminate.
Qed.

Lemma hessian_defined_iff_witness :
  tetra_x <> [] /\
  hessian (tetra_problem 1 0) tetra_x <> None /\
  exists gp fx s y,
    gradient_penalty (tetra_problem 1 0) tetra_x = Some gp /\
    force (tetra_problem 1 0) tetra_x = Some fx /\
    np_sub tetra_x (x_pre (tetra_problem 1 0)) = Some s /\
    sub_pre (zip_with Rplus gp fx) (gradient_pre (tetra_problem 1 0)) = Some y /\
    dot y s <> 0 /\ quad (hess_pre (tetra_problem 1 0)) s <> 0.
Proof.
  assert (Hx : tetra_x <> []) by discriminate.
  assert (Hdef : hessian (tetra_problem 1 0) tetra_x <> None).
  { destruct tetra_hessian as (self1 & H1 & E). rewrite E. discriminate. }
  split; [exact Hx|]. split; [exact Hdef|].
  destruct (proj1 (hessian_defined_iff (tetra_problem 1 0) tetra_x Hx) Hdef)
    as (gp & fx & s & y & Egp & Efx & Es & Ey & _ & _ & Nys & Nshs).
  exists gp, fx, s, y. repeat (split; [assumption|]). assumption.
Defined.

(** ** The first call after construction *)

Lemma sum_n_end n f : sum_n (S n) f = sum_n n f + f n.
Proof.
  revert f; induction n as [|n IH]; intros f.
  - rewrite sum_n_S, !sum_n_0. ring.
  - rewrite sum_n_S, IH, (sum_n_S n). ring.
Qed.

Lemma sum_n_delta n i (f : nat -> R) :
  (i < n)%nat ->
  sum_n n (fun j => (if Nat.eqb i j then 1 else 0) * f j) = f i.
Proof.
  induction n as [|n IH]; intros Hi; [lia|].
  rewrite sum_n_end. destruct (Nat.eq_dec i n) as [->|Hne].
  - rewrite Nat.eqb_refl.
    rewrite (sum_n_ext n _ (fun _ => 0)).
    + rewrite sum_n_zero. ring.
    + intros k Hk. destruct (Nat.eqb_spec n k); [lia|ring].
  - rewrite IH by lia. destruct (Nat.eqb_spec i n); [contradiction|ring].
Qed.

Lemma quad_eye n s : length s = n -> quad (np_eye n) s = dot s s.
Proof.
  intros Ls. rewrite (quad_sum_n n) by (auto using has_shape_eye).
  rewrite (dot_sum_n s s n) by assumption.
  apply sum_n_ext. intros i Hi.
  rewrite (sum_n_ext n _ (fun j => (if Nat.eqb i j then 1 else 0) * (nth i s 0 * nth j s 0))).
  - apply sum_n_delta. exact Hi.
  - intros j Hj. rewrite entry_eye by assumption. ring.
Qed.

Lemma zip_minus_zeros x : zip_with Rminus x (np_zeros (length x)) = x.
Proof.
  unfold np_zeros. induction x as [|a x IH]; simpl; [reflexivity|].
  rewrite IH. f_equal. ring.
Qed.

Lemma map_minus_zero g : map (fun r => r - 0) g = g.
Proof.
  induction g as [|a g IH]; simpl; [reflexivity|]. rewrite IH. f_equal. ring.
Qed.

Lemma dot_self_zero x : dot x x = 0 -> x = np_zeros (length x).
Proof.
  unfold dot, sum, np_zeros. induction x as [|a x IH]; simpl; intros E; [reflexivity|].
  pose proof (dot_self_nonneg x) as Hx. unfold dot, sum in Hx.
  assert (Ha : a = 0) by nra.
  rewrite <- IH by nra. rewrite Ha. reflexivity.
Qed.

(** X12. The first [hessian_penalty(x)] call on a freshly constructed
    object (previous position zero, previous gradient 0, identity
    approximation) has s = x and y = g, the penalty-plus-force
    gradient at x.  For a nonempty x at which g is defined the call
    returns exactly when g.x is not zero, and then the returned and
    stored matrix has the entries
    delta_ij + g_i g_j / (g.x) - delta_ij x_i x_i / (x.x):
    the element-wise product with the identity keeps only the diagonal
    of x x^t. *)
Theorem first_hessian_penalty_call ext pen ef m nu self0 x gp fx :
  init ext pen ef m nu = Some self0 ->
  x <> [] ->
  gradient_penalty self0 x = Some gp ->
  force self0 x = Some fx ->
  let g := zip_with Rplus gp fx in
  (hessian_penalty self0 x <> None <-> dot g x <> 0) /\
  forall self' H,
    hessian_penalty self0 x = Some (self', H) ->
    x_pre self' = x /\
    gradient_pre self' = Array g /\
    hess_pre self' = H /\
    forall i j, (i < length x)%nat -> (j < length x)%nat ->
      entry H i j =
      (if Nat.eqb i j then 1 else 0) + nth i g 0 * nth j g 0 / dot g x
      - (if Nat.eqb i j then nth i x 0 * nth i x 0 / dot x x else 0).
Proof.
  intros E0 Hx Egp Efx g.
  assert (Hn : (0 < length x)%nat) by (destruct x; [contradiction|simpl; lia]).
  pose proof (gradient_penalty_inv _ _ _ Egp) as (X & _ & _ & _ & _ & EX & _).
  destruct (reshape_F_inv _ _ _ EX) as [Lx _].
  destruct (init_inv _ _ _ _ _ _ E0)
    as (M & A0 & L & Minv & B & Lap & _ & _ & _ & _ & _ & _ & Eself).
  assert (Exp : x_pre self0 = np_zeros (length x)).
  { rewrite Eself. cbn [x_pre]. unfold size_vertices. rewrite Lx.
    rewrite Eself. reflexivity. }
  assert (Egpre : gradient_pre self0 = Scalar 0) by (rewrite Eself; reflexivity).
  assert (Ehp : hess_pre self0 = np_eye (length x)).
  { rewrite Eself. cbn [hess_pre]. unfold size_vertices. rewrite Lx.
    rewrite Eself. reflexivity. }
  assert (Es : np_sub x (x_pre self0) = Some x).
  { rewrite Exp. unfold np_sub. rewrite np_binop_Some
      by (unfold np_zeros; rewrite repeat_length; reflexivity).
    rewrite zip_minus_zeros. reflexivity. }
  assert (Ey : sub_pre g (gradient_pre self0) = Some g).
  { rewrite Egpre. cbn [sub_pre]. rewrite map_minus_zero. reflexivity. }
  split.
  - split.
    + intros Hdef.
      destruct (hessian_penalty self0 x) as [[self' H]|] eqn:E; [|contradiction].
      destruct (hessian_penalty_inv _ _ _ _ E)
        as (gp' & fx' & g' & s & y & Egp' & Efx' & Egrad & Es' & Ey' & _ & _ & _ & _ & _ & Ent).
      assert (gp' = gp) by congruence. subst gp'.
      assert (fx' = fx) by congruence. subst fx'.
      destruct (np_binop_inv _ _ _ _ Egrad) as (_ & _ & ->). fold g in Ey'.
      assert (s = x) by congruence. subst s.
      assert (y = g) by congruence. subst y.
      exact (proj1 (Ent 0%nat 0%nat Hn Hn)).
    + intros Ngx.
      assert (Nxx : dot x x <> 0).
      { intros Z. apply Ngx. rewrite (dot_self_zero x Z). apply dot_zeros_r. }
      destruct (hessian_penalty_defined self0 x gp fx g Egp Efx) as (H & EH).
      * rewrite Exp. unfold np_zeros. apply repeat_length.
      * exact Ey.
      * rewrite Ehp. apply has_shape_eye.
      * rewrite Exp, zip_minus_zeros. exact Ngx.
      * rewrite Exp, zip_minus_zeros, Ehp, quad_eye by reflexivity. exact Nxx.
      * rewrite EH. discriminate.
  - intros self' H E.
    destruct (hessian_penalty_inv _ _ _ _ E)
      as (gp' & fx' & g' & s & y & Egp' & Efx' & Egrad & Es' & Ey' & Eself' & _ & _ & _ & _ & Ent).
    assert (gp' = gp) by congruence. subst gp'.
    assert (fx' = fx) by congruence. subst fx'.
    destruct (np_binop_inv _ _ _ _ Egrad) as (_ & _ & ->). fold g in Ey', Eself'.
    assert (s = x) by congruence. subst s.
    assert (y = g) by congruence. subst y.
    rewrite Eself'. cbn [x_pre gradient_pre hess_pre set_pre].
    repeat (split; [reflexivity|]).
    intros i j Hi Hj. destruct (Ent i j Hi Hj) as (_ & _ & ->).
    unfold secant_entry. rewrite Ehp, quad_eye by reflexivity.
    rewrite !entry_eye by assumption. rewrite (Nat.eqb_sym j i).
    destruct (Nat.eqb_spec i j) as [->|Hne]; unfold Rdiv; ring.
Qed.

Lemma first_hessian_penalty_call_witness :
  exists fx self' H,
    init tetra_ext 1 0 tetra_mesh default_nu_grad_size = Some (tetra_problem 1 0) /\
    tetra_x <> [] /\
    gradient_penalty (tetra_problem 1 0) tetra_x = Some (scale 1 tetra_a) /\
    force (tetra_problem 1 0) tetra_x = Some fx /\
    hessian_penalty (tetra_problem 1 0) tetra_x = Some (self', H) /\
    x_pre self' = tetra_x /\
    dot (zip_with Rplus (scale 1 tetra_a) fx) tetra_x <> 0.
Proof.
  destruct tetra_hessian_penalty as (u & H & _ & Ef & E).
  assert (Hx : tetra_x <> []) by discriminate.
  destruct (first_hessian_penalty_call tetra_ext 1 0 tetra_mesh default_nu_grad_size
              (tetra_problem 1 0) tetra_x (scale 1 tetra_a) (scale 0 u)
              (tetra_init 1 0) Hx (tetra_gradient_penalty 1 0) Ef) as (Hiff & Hent).
  exists (scale 0 u). eexists. exists H.
  split; [apply tetra_init|]. split; [exact Hx|].
  split; [apply tetra_gradient_penalty|]. split; [exact Ef|]. split; [exact E|].
  split; [exact (proj1 (Hent _ _ E))|].
  apply Hiff. rewrite E. discriminate.
Defined.

(** ** The quasi-Newton state along a trajectory *)

Lemma hessian_step self x self' R :
  hessian self x = Some (self', R) ->
  exists gp fx Hp,
    gradient_penalty self x = Some gp /\
    force self x = Some fx /\
    self' = set_pre self (zip_with Rplus gp fx) x Hp /\
    length x = size_vertices (mesh self) /\
    length (zip_with Rplus gp fx) = length x /\
    has_shape (length x) (length x) Hp = true /\
    has_shape (length x) (length x) R = true.
Proof.
  intros E.
  pose proof (hessian_shape _ _ _ _ E) as SR.
  destruct (hessian_state _ _ _ _ E) as (grad & Hp & EHp & _ & _).
  destruct (hessian_penalty_inv _ _ _ _ EHp)
    as (gp & fx & g & s & y & Egp & Efx & Egrad & _ & _ & Eself & _ & _ & _ & SH & _).
  destruct (np_binop_inv _ _ _ _ Egrad) as (_ & Lg & ->).
  pose proof (gradient_penalty_length _ _ _ Egp) as Lgp.
  destruct (gradient_penalty_inv _ _ _ Egp) as (X & _ & _ & _ & _ & EX & _).
  destruct (reshape_F_inv _ _ _ EX) as [Lx _].
  exists gp, fx, Hp. repeat (split; [assumption|]).
  split; [lia|]. split; assumption.
Qed.

Lemma last_cons_nonempty {A : Type} (a : A) l d : l <> [] -> last (a :: l) d = last l d.
Proof. destruct l; [contradiction|reflexivity]. Qed.

Lemma hessian_calls_state self xs self' Rs :
  hessian_calls self xs = Some (self', Rs) ->
  let N := size_vertices (mesh self) in
  mesh self' = mesh self /\ At0 self' = At0 self /\ hess self' = hess self /\
  laplacian self' = laplacian self /\ penalty self' = penalty self /\
  pressure self' = pressure self /\
  Forall (fun x => length x = N) xs /\
  length Rs = length xs /\
  Forall (fun R => has_shape N N R = true) Rs /\
  (xs <> [] ->
     x_pre self' = last xs [] /\
     has_shape N N (hess_pre self') = true /\
     exists gp fx,
       gradient_penalty self (last xs []) = Some gp /\
       force self (last xs []) = Some fx /\
       gradient_pre self' = Array (zip_with Rplus gp fx) /\
       length (zip_with Rplus gp fx) = N).
Proof.
  revert self Rs. induction xs as [|x xs IH]; intros self Rs E; simpl in E.
  - injection E as <- <-. cbv zeta.
    repeat (split; [reflexivity || constructor|]). intros H; contradiction.
  - apply bind_Some in E. destruct E as ([self1 R] & Ecall & E).
    apply bind_Some in E. destruct E as ([self2 Rs'] & Erest & E).
    injection E as <- <-.
    destruct (hessian_step _ _ _ _ Ecall)
      as (gp & fx & Hp & Egp & Efx & Eself1 & Lx & Lg & SHp & SR).
    specialize (IH self1 Rs' Erest). cbv zeta in IH.
    assert (Em : mesh self1 = mesh self) by (rewrite Eself1; reflexivity).
    rewrite Em in IH.
    destruct IH as (I1 & I2 & I3 & I4 & I5 & I6 & I7 & I8 & I9 & I10).
    cbv zeta. rewrite Lx in SHp, SR, Lg.
    split; [congruence|]. split; [rewrite I2, Eself1; reflexivity|].
    split; [rewrite I3, Eself1; reflexivity|].
    split; [rewrite I4, Eself1; reflexivity|].
    split; [rewrite I5, Eself1; reflexivity|].
    split; [rewrite I6, Eself1; reflexivity|].
    split; [constructor; assumption|].
    split; [simpl; lia|].
    split; [constructor; assumption|].
    intros _. destruct xs as [|x1 xs1].
    + simpl in Erest. injection Erest as <- <-.
      cbn [last]. rewrite Eself1. cbn [x_pre hess_pre gradient_pre set_pre].
      split; [reflexivity|]. split; [exact SHp|].
      exists gp, fx. repeat (split; [assumption || reflexivity|]). exact Lg.
    + destruct (I10 ltac:(discriminate)) as (J1 & J2 & gp' & fx' & J3 & J4 & J5 & J6).
      rewrite last_cons_nonempty by discriminate.
      split; [exact J1|]. split; [exact J2|].
      exists gp', fx'.
      assert (Eg : forall y, gradient_penalty self1 y = gradient_penalty self y)
        by (intros y; rewrite Eself1; reflexivity).
      assert (Ef : forall y, force self1 y = force self y)
        by (intros y; rewrite Eself1; reflexivity).
      rewrite <- Eg, <- Ef. repeat (split; [assumption|]). exact J6.
Qed.

Lemma same_model_same_results self self' :
  mesh self' = mesh self -> At0 self' = At0 self -> hess self' = hess self ->
  laplacian self' = laplacian self -> penalty self' = penalty self ->
  pressure self' = pressure self ->
  forall y, obj_func self' y = obj_func self y /\ gradient self' y = gradient self y.
Proof.
  intros Em EA Eh El Ep Epr y.
  unfold obj_func, gradient, obj_func_bending, obj_func_penalty, gradient_bending,
    gradient_penalty, force.
  rewrite Em, EA, Eh, El, Ep, Epr. split; reflexivity.
Qed.

(** X13. Along any sequence of [hessian] calls that return, starting
    from any object, the mesh, the rest areas, the bending matrix, the
    operator of the force, the penalty weight and the pressure stay as
    they were, so [obj_func] and [gradient] answer every query as
    before; every position passed had 3V entries and every returned
    matrix is 3V x 3V; and after the last call [x_pre] is the last
    position, [gradient_pre] the penalty-plus-force gradient there and
    [hess_pre] a 3V x 3V matrix. *)
Theorem trajectory_keeps_model_and_shapes (self : problem) (xs : list vec)
    (self' : problem) (Rs : list (list (list R))) :
  hessian_calls self xs = Some (self', Rs) ->
  let N := size_vertices (mesh self) in
  (forall y, obj_func self' y = obj_func self y /\ gradient self' y = gradient self y) /\
  Forall (fun x => length x = N) xs /\
  length Rs = length xs /\
  Forall (fun R => has_shape N N R = true) Rs /\
  (xs <> [] ->
     x_pre self' = last xs [] /\
     has_shape N N (hess_pre self') = true /\
     exists gp fx,
       gradient_penalty self (last xs []) = Some gp /\
       force self (last xs []) = Some fx /\
       gradient_pre self' = Array (zip_with Rplus gp fx) /\
       length (zip_with Rplus gp fx) = N).
Proof.
  intros E. destruct (hessian_calls_state _ _ _ _ E)
    as (I1 & I2 & I3 & I4 & I5 & I6 & I7 & I8 & I9 & I10).
  cbv zeta. split; [apply same_model_same_results; assumption|].
  repeat (split; [assumption|]). exact I10.
Qed.

Lemma trajectory_keeps_model_and_shapes_witness :
  exists self' R,
    hessian_calls (tetra_problem 1 0) [tetra_x] = Some (self', [R]) /\
    x_pre self' = tetra_x /\
    has_shape 12 12 R = true /\
    obj_func self' tetra_x = obj_func (tetra_problem 1 0) tetra_x.
Proof.
  destruct tetra_hessian as (self' & R & E).
  exists self', R.
  assert (Ecalls : hessian_calls (tetra_problem 1 0) [tetra_x] = Some (self', [R])).
  { cbn [hessian_calls]. rewrite E. reflexivity. }
  destruct (trajectory_keeps_model_and_shapes _ _ _ _ Ecalls) as (Hsame & _ & _ & HR & Hlast).
  split; [exact Ecalls|].
  split; [exact (proj1 (Hlast ltac:(discriminate)))|].
  split; [inversion HR; assumption|exact (proj1 (Hsame tetra_x))].
Defined.

Lemma dot_zeros_l s n : dot (np_zeros n) s = 0.
Proof.
  revert n; induction s as [|a s IH]; intros [|n]; try reflexivity.
  unfold dot in *. simpl. specialize (IH n). unfold np_zeros in IH. rewrite IH. ring.
Qed.

Lemma hessian_without_step self x :
  x <> [] ->
  (x_pre self = x \/
   exists gp fx, gradient_penalty self x = Some gp /\ force self x = Some fx /\
                 gradient_pre self = Array (zip_with Rplus gp fx)) ->
  hessian_penalty self x = None /\ hessian self x = None.
Proof.
  intros Hx Hcase.
  assert (Hn : (0 < length x)%nat) by (destruct x; [contradiction|simpl; lia]).
  assert (Ep : hessian_penalty self x = None).
  { destruct (hessian_penalty self x) as [[self' H]|] eqn:E; [exfalso|reflexivity].
    destruct (hessian_penalty_inv _ _ _ _ E)
      as (gp & fx & g & s & y & Egp & Efx & Egrad & Es & Ey & _ & _ & _ & _ & _ & Ent).
    destruct (Ent 0%nat 0%nat Hn Hn) as (Nys & _). apply Nys.
    destruct Hcase as [Exp|(gp' & fx' & Egp' & Efx' & Epre)].
    - rewrite Exp in Es. destruct (np_binop_inv _ _ _ _ Es) as (_ & _ & ->).
      rewrite zip_minus_self. apply dot_zeros_r.
    - assert (gp' = gp) by congruence. subst gp'.
      assert (fx' = fx) by congruence. subst fx'.
      destruct (np_binop_inv _ _ _ _ Egrad) as (_ & _ & ->).
      rewrite Epre in Ey. cbn [sub_pre] in Ey.
      destruct (np_binop_inv _ _ _ _ Ey) as (_ & _ & ->).
      rewrite zip_minus_self. apply dot_zeros_l. }
  split; [exact Ep|]. unfold hessian. rewrite Ep. reflexivity.
Qed.

(** X14. A [hessian] call at the stored previous position, or at a
    position whose penalty-plus-force gradient equals the stored
    previous gradient, never returns (y.s is zero).  Hence a sequence
    of [hessian] calls that all return never passes the same position
    twice in a row, and on a freshly constructed object with vertices
    it does not start at the zero vector. *)
Theorem trajectory_never_repeats (self : problem) (xs : list vec)
    (self' : problem) (Rs : list (list (list R))) :
  (0 < length (vertices (mesh self)))%nat ->
  hessian_calls self xs = Some (self', Rs) ->
  no_repeat (x_pre self) xs /\
  (forall x, x <> [] ->
     (x_pre self = x \/
      exists gp fx, gradient_penalty self x = Some gp /\ force self x = Some fx /\
                    gradient_pre self = Array (zip_with Rplus gp fx)) ->
     hessian self x = None) /\
  (forall ext pen ef m nu,
     init ext pen ef m nu = Some self ->
     hessian self (np_zeros (size_vertices m)) = None /\
     no_repeat (np_zeros (size_vertices m)) xs).
Proof.
  intros HV E.
  assert (Hrep : forall xs self self' Rs,
            (0 < length (vertices (mesh self)))%nat ->
            hessian_calls self xs = Some (self', Rs) -> no_repeat (x_pre self) xs).
  { clear. induction xs as [|x xs IH]; intros self self' Rs HV E; simpl in E.
    - exact I.
    - apply bind_Some in E. destruct E as ([self1 R1] & Ecall & E).
      apply bind_Some in E. destruct E as ([self2 Rs'] & Erest & E).
      destruct (hessian_step _ _ _ _ Ecall)
        as (gp & fx & Hp & _ & _ & Eself1 & Lx & _).
      assert (Hx : x <> []).
      { intros ->. unfold size_vertices in Lx. simpl in Lx. lia. }
      cbn [no_repeat]. split.
      + intros Heq.
        destruct (hessian_without_step self x Hx (or_introl (eq_sym Heq))) as (_ & N).
        rewrite N in Ecall. discriminate.
      + assert (Ex1 : x_pre self1 = x) by (rewrite Eself1; reflexivity).
        rewrite <- Ex1. apply (IH self1 self2 Rs'); [|exact Erest].
        rewrite Eself1. exact HV. }
  split; [exact (Hrep xs self self' Rs HV E)|]. split.
  - intros x Hx Hcase. apply (hessian_without_step self x Hx Hcase).
  - intros ext pen ef m nu E0.
    destruct (init_inv _ _ _ _ _ _ E0)
      as (M & A0 & L & Minv & B & Lap & _ & _ & _ & _ & _ & _ & Eself).
    assert (Exp : x_pre self = np_zeros (size_vertices m)) by (rewrite Eself; reflexivity).
    assert (Em : mesh self = m) by (rewrite Eself; reflexivity).
    split.
    + apply hessian_without_step.
      * rewrite Em in HV. unfold size_vertices, np_zeros.
        destruct (length (vertices m)); [lia|discriminate].
      * left. exact Exp.
    + rewrite <- Exp. exact (Hrep xs self self' Rs HV E).
Qed.

Lemma trajectory_never_repeats_witness :
  exists self' R,
    (0 < length (vertices (mesh (tetra_problem 1 0))))%nat /\
    hessian_calls (tetra_problem 1 0) [tetra_x] = Some (self', [R]) /\
    hessian (tetra_problem 1 0) (np_zeros 12) = None /\
    hessian_calls (tetra_problem 1 0) [tetra_x; tetra_x] = None.
Proof.
  destruct tetra_hessian as (self' & R & E).
  exists self', R.
  assert (HV : (0 < length (vertices (mesh (tetra_problem 1 0))))%nat) by (simpl; lia).
  assert (Ecalls : hessian_calls (tetra_problem 1 0) [tetra_x] = Some (self', [R])).
  { cbn [hessian_calls]. rewrite E. reflexivity. }
  split; [exact HV|]. split; [exact Ecalls|].
  destruct (trajectory_never_repeats _ _ _ _ HV Ecalls) as (_ & _ & Hinit).
  split; [exact (proj1 (Hinit _ _ _ _ _ (tetra_init 1 0)))|].
  destruct (hessian_calls (tetra_problem 1 0) [tetra_x; tetra_x]) as [[s2 Rs2]|] eqn:E2;
    [exfalso|reflexivity].
  destruct (trajectory_never_repeats _ _ _ _ HV E2) as (Hrep & _).
  cbn [no_repeat] in Hrep. destruct Hrep as (_ & Hne & _). apply Hne. reflexivity.
Defined.

(** ** Where [gradient_penalty] stores the sum of a vertex *)

Lemma nth_firstn_lt {A : Type} (l : list A) n k d :
  (k < n)%nat -> nth k (firstn n l) d = nth k l d.
Proof.
  revert n k; induction l as [|a l IH]; intros [|n] [|k] H; simpl; try lia; auto.
  apply IH. lia.
Qed.

Lemma nth_skipn_add {A : Type} (l : list A) n k d :
  nth k (skipn n l) d = nth (n + k) l d.
Proof.
  revert l; induction n as [|n IH]; intros l; [reflexivity|].
  destruct l as [|a l]; simpl; [destruct k; reflexivity|apply IH].
Qed.

Lemma set_slice3_nth a i av a' :
  set_slice3 a i av = Some a' ->
  (nth i a' 0, nth (i + 1) a' 0, nth (i + 2) a' 0) = av /\
  forall k, (k < i \/ i + 3 <= k)%nat -> nth k a' 0 = nth k a 0.
Proof.
  unfold set_slice3. destruct (Nat.leb_spec (i + 3) (length a)) as [Hle|]; [|discriminate].
  destruct av as [[a0 a1] a2]. intros E. injection E as <-.
  assert (Lf : length (firstn i a) = i) by (rewrite length_firstn; lia).
  split.
  - rewrite !app_nth2 by lia. rewrite Lf.
    replace (i - i)%nat with 0%nat by lia.
    replace (i + 1 - i)%nat with 1%nat by lia.
    replace (i + 2 - i)%nat with 2%nat by lia. reflexivity.
  - intros k [Hk|Hk].
    + rewrite app_nth1 by lia. apply nth_firstn_lt. exact Hk.
    + rewrite app_nth2 by lia. rewrite Lf.
      replace (k - i)%nat with (3 + (k - i - 3))%nat by lia. cbn [nth app plus].
      rewrite nth_skipn_add. f_equal. lia.
Qed.

Lemma vertex_loop_slots (X : list (R * R * R)) Nf fs At A0 len :
  forall s a a',
    foldM (fun a v =>
             adj_faces <- get_face_adjacent_faces (form_mesh X fs) v ;;
             av <- vertex_sum X Nf fs At A0 v (length adj_faces) ;;
             set_slice3 a (3 * v) av)
          (seq s len) a = Some a' ->
    (forall v, (s <= v < s + len)%nat ->
       exists adj av,
         get_face_adjacent_faces (form_mesh X fs) v = Some adj /\
         vertex_sum X Nf fs At A0 v (length adj) = Some av /\
         slot a' v = av) /\
    (forall k, (k < 3 * s)%nat -> nth k a' 0 = nth k a 0).
Proof.
  induction len as [|len IH]; intros s a a' E; simpl in E.
  - injection E as <-. split; [intros v Hv; lia|reflexivity].
  - inv_bind E. rename a0 into a1, E0 into Estep.
    inv_bind Estep. rename a0 into adj, E0 into Eadj.
    inv_bind Estep. rename a0 into av, E0 into Eav.
    destruct (set_slice3_nth _ _ _ _ Estep) as (Hslot & Hother).
    destruct (IH (S s) a1 a' E) as (Hv & Hk).
    split.
    + intros v Hrange. destruct (Nat.eq_dec v s) as [->|Hne].
      * exists adj, av. split; [exact Eadj|]. split; [exact Eav|].
        unfold slot. rewrite !Hk by lia.
        exact Hslot.
      * apply Hv. lia.
    + intros k Hlt. rewrite Hk by lia. apply Hother. lia.
Qed.

(** X15. In the array that [gradient_penalty] returns, the entries at
    positions 3v, 3v + 1, 3v + 2 are the penalty weight times the sum
    that the inner loop accumulated for vertex v, and that loop ran
    over the face numbers 0 .. k - 1, where k is the number of faces
    around face number v. *)
Theorem gradient_penalty_slots (self : problem) (x g : vec) :
  gradient_penalty self x = Some g ->
  let V := length (vertices (mesh self)) in
  let fs := faces (mesh self) in
  exists X fn Nf At,
    reshape_F x V = Some X /\
    face_normal (form_mesh X fs) = Some fn /\
    reshape_C fn (length fs) = Some Nf /\
    face_area (form_mesh X fs) = Some At /\
    forall v, (v < V)%nat ->
      exists adj av,
        get_face_adjacent_faces (form_mesh X fs) v = Some adj /\
        vertex_sum X Nf fs At (At0 self) v (length adj) = Some av /\
        slot g v = scale3 (penalty self) av.
Proof.
  intros E V fs.
  destruct (gradient_penalty_inv _ _ _ E) as (X & fn & Nf & At & a & EX & Efn & ENf & EAt & Ea & ->).
  fold V in EX, Ea. fold fs in Efn, ENf, EAt, Ea.
  exists X, fn, Nf, At. repeat (split; [assumption|]).
  pose proof (gradient_penalty_length _ _ _ E) as Lg.
  unfold scale in Lg. rewrite length_map in Lg.
  destruct (reshape_F_inv _ _ _ EX) as [Lx _].
  intros v Hv.
  destruct (vertex_loop_slots X Nf fs At (At0 self) V 0 _ _ Ea) as (Hslots & _).
  destruct (Hslots v ltac:(lia)) as (adj & av & Eadj & Eav & Hslot).
  exists adj, av. split; [exact Eadj|]. split; [exact Eav|].
  rewrite <- Hslot. unfold slot, scale, scale3.
  rewrite !(nth_map_lt (Rmult (penalty self)) a _ 0 0) by lia. reflexivity.
Qed.

Lemma gradient_penalty_slots_witness :
  gradient_penalty (tetra_problem 1 0) tetra_x = Some (scale 1 tetra_a) /\
  exists adj av,
    get_face_adjacent_faces (form_mesh tetra_X (faces tetra_mesh)) 1 = Some adj /\
    length adj = 3%nat /\
    slot (scale 1 tetra_a) 1 = scale3 1 av.
Proof.
  split; [apply tetra_gradient_penalty|].
  destruct (gradient_penalty_slots (tetra_problem 1 0) tetra_x (scale 1 tetra_a)
              (tetra_gradient_penalty 1 0))
    as (X & fn & Nf & At & EX & _ & _ & _ & Hv).
  change (length (vertices (mesh (tetra_problem 1 0)))) with 4%nat in EX, Hv.
  rewrite tetra_reshape in EX. injection EX as <-.
  destruct (Hv 1%nat ltac:(lia)) as (adj & av & Eadj & _ & Hslot).
  exists adj, av. split; [exact Eadj|]. split; [|exact Hslot].
  change (get_face_adjacent_faces _ 1) with (Some [0; 2; 3]%nat) in Eadj.
  injection Eadj as <-. reflexivity.
Defined.

(** ** The bending energy is not negative *)

Lemma sum_n_add m n f :
  sum_n (m + n) f = sum_n m f + sum_n n (fun i => f (m + i)%nat).
Proof.
  induction n as [|n IH].
  - rewrite Nat.add_0_r, sum_n_0. ring.
  - rewrite Nat.add_succ_r, sum_n_end, IH, (sum_n_end n). ring.
Qed.

Lemma sum_n_blocks V f :
  sum_n (3 * V) f =
  sum_n V (fun i => f (0 * V + i)%nat) + sum_n V (fun i => f (1 * V + i)%nat)
  + sum_n V (fun i => f (2 * V + i)%nat).
Proof.
  replace (3 * V)%nat with (V + (V + V))%nat by lia.
  rewrite sum_n_add, sum_n_add.
  rewrite (sum_n_ext V (fun i => f (0 * V + i)%nat) f) by (intros; f_equal; lia).
  rewrite (sum_n_ext V (fun i => f (1 * V + i)%nat) (fun i => f (V + i)%nat))
    by (intros; f_equal; lia).
  rewrite (sum_n_ext V (fun i => f (2 * V + i)%nat) (fun i => f (V + (V + i))%nat))
    by (intros; f_equal; lia).
  ring.
Qed.

Lemma sum_n_nonneg n f : (forall k, (k < n)%nat -> 0 <= f k) -> 0 <= sum_n n f.
Proof.
  induction n as [|n IH]; intros H; [rewrite sum_n_0; lra|].
  rewrite sum_n_end. pose proof (H n ltac:(lia)).
  assert (0 <= sum_n n f) by (apply IH; intros k Hk; apply H; lia). lra.
Qed.

Lemma sum_n_single n k f :
  (k < n)%nat -> (forall l, (l < n)%nat -> l <> k -> f l = 0) -> sum_n n f = f k.
Proof.
  induction n as [|n IH]; intros Hk H; [lia|].
  rewrite sum_n_end. destruct (Nat.eq_dec k n) as [->|Hne].
  - rewrite (sum_n_ext n f (fun _ => 0)) by (intros l Hl; apply H; lia).
    rewrite sum_n_zero. ring.
  - rewrite IH by (try lia; intros l Hl Hlk; apply H; lia).
    rewrite (H n) by lia. ring.
Qed.

Lemma bending_block_form V L Minv (z : nat -> R) :
  sum_n V (fun i => sum_n V (fun j => z i * bending_block L Minv V i j * z j)) =
  sum_n V (fun k => sum_n V (fun l =>
    sum_n V (fun i => entry L k i * z i) * entry Minv k l
    * sum_n V (fun j => entry L l j * z j))).
Proof.
  set (T := fun i j k l => z i * (entry L k i * entry Minv k l * entry L l j) * z j).
  transitivity (sum_n V (fun i => sum_n V (fun j =>
                  sum_n V (fun k => sum_n V (fun l => T i j k l))))).
  { apply sum_n_ext. intros i _. apply sum_n_ext. intros j _.
    unfold bending_block. rewrite sum_n_mult_l, sum_n_mult_r.
    apply sum_n_ext. intros k _. rewrite sum_n_mult_l, sum_n_mult_r. reflexivity. }
  transitivity (sum_n V (fun k => sum_n V (fun l =>
                  sum_n V (fun i => sum_n V (fun j => T i j k l))))).
  { rewrite (sum_n_ext V _ (fun i => sum_n V (fun k => sum_n V (fun j =>
               sum_n V (fun l => T i j k l)))))
      by (intros i _; apply sum_n_swap).
    rewrite sum_n_swap. apply sum_n_ext. intros k _.
    rewrite (sum_n_ext V _ (fun i => sum_n V (fun l => sum_n V (fun j => T i j k l))))
      by (intros i _; apply sum_n_swap).
    apply sum_n_swap. }
  apply sum_n_ext. intros k _. apply sum_n_ext. intros l _.
  rewrite sum_n_mult_r, sum_n_mult_r. apply sum_n_ext. intros i _.
  rewrite sum_n_mult_l. apply sum_n_ext. intros j _. unfold T. ring.
Qed.

Lemma bending_block_form_nonneg V L Minv (z : nat -> R) :
  (forall k l, (k < V)%nat -> (l < V)%nat -> k <> l -> entry Minv k l = 0) ->
  (forall k, (k < V)%nat -> 0 <= entry Minv k k) ->
  0 <= sum_n V (fun i => sum_n V (fun j => z i * bending_block L Minv V i j * z j)).
Proof.
  intros Hoff Hdiag. rewrite bending_block_form.
  apply sum_n_nonneg. intros k Hk.
  rewrite (sum_n_single V k) by
    (try exact Hk; intros l Hl Hne; rewrite (Hoff k l Hk Hl) by congruence; ring).
  pose proof (Hdiag k Hk).
  set (u := sum_n V (fun i => entry L k i * z i)).
  replace (u * entry Minv k k * u) with (entry Minv k k * (u * u)) by ring.
  apply Rmult_le_pos; [assumption|nra].
Qed.

Lemma quad_block_diag3 V B x :
  has_shape V V B = true -> length x = (3 * V)%nat ->
  quad (block_diag3 B) x =
  sum_n V (fun i => sum_n V (fun j =>
    nth (0 * V + i) x 0 * entry B i j * nth (0 * V + j) x 0))
  + sum_n V (fun i => sum_n V (fun j =>
    nth (1 * V + i) x 0 * entry B i j * nth (1 * V + j) x 0))
  + sum_n V (fun i => sum_n V (fun j =>
    nth (2 * V + i) x 0 * entry B i j * nth (2 * V + j) x 0)).
Proof.
  intros SB Lx.
  rewrite (quad_sum_n (3 * V)) by (auto using has_shape_block_diag3).
  rewrite sum_n_blocks.
  assert (Hblock : forall a, (a < 3)%nat ->
            sum_n V (fun i => sum_n (3 * V) (fun j =>
              nth (a * V + i) x 0 * entry (block_diag3 B) (a * V + i) j * nth j x 0))
            = sum_n V (fun i => sum_n V (fun j =>
                nth (a * V + i) x 0 * entry B i j * nth (a * V + j) x 0))).
  { intros a Ha. apply sum_n_ext. intros i Hi. rewrite sum_n_blocks.
    rewrite (sum_n_ext V (fun j => nth (a * V + i) x 0
                 * entry (block_diag3 B) (a * V + i) (0 * V + j) * nth (0 * V + j) x 0)
               (fun j => nth (a * V + i) x 0
                 * (if Nat.eqb a 0 then entry B i j else 0) * nth (0 * V + j) x 0))
      by (intros j Hj; rewrite (entry_block_diag3 V B a 0 i j) by (auto; lia); reflexivity).
    rewrite (sum_n_ext V (fun j => nth (a * V + i) x 0
                 * entry (block_diag3 B) (a * V + i) (1 * V + j) * nth (1 * V + j) x 0)
               (fun j => nth (a * V + i) x 0
                 * (if Nat.eqb a 1 then entry B i j else 0) * nth (1 * V + j) x 0))
      by (intros j Hj; rewrite (entry_block_diag3 V B a 1 i j) by (auto; lia); reflexivity).
    rewrite (sum_n_ext V (fun j => nth (a * V + i) x 0
                 * entry (block_diag3 B) (a * V + i) (2 * V + j) * nth (2 * V + j) x 0)
               (fun j => nth (a * V + i) x 0
                 * (if Nat.eqb a 2 then entry B i j else 0) * nth (2 * V + j) x 0))
      by (intros j Hj; rewrite (entry_block_diag3 V B a 2 i j) by (auto; lia); reflexivity).
    assert (Z : forall c : nat, sum_n V (fun j => nth (a * V + i) x 0 * 0 * nth (c * V + j) x 0) = 0).
    { intros c. rewrite (sum_n_ext V _ (fun _ => 0)) by (intros; ring). apply sum_n_zero. }
    destruct a as [|[|[|a]]]; [| | |lia]; cbn [Nat.eqb]; rewrite !Z; ring. }
  rewrite (Hblock 0%nat), (Hblock 1%nat), (Hblock 2%nat) by lia. reflexivity.
Qed.

Lemma obj_func_penalty_nonneg self x e :
  length (At0 self) = length (faces (mesh self)) ->
  Forall (fun a0 => 0 < a0) (At0 self) ->
  0 <= penalty self ->
  obj_func_penalty self x = Some e -> 0 <= e.
Proof.
  intros L0 Hpos Hpen E.
  destruct (reshape_F x (length (vertices (mesh self)))) as [X|] eqn:EX;
    [|unfold obj_func_penalty in E; rewrite EX in E; discriminate].
  destruct (face_area (form_mesh X (faces (mesh self)))) as [At|] eqn:EA;
    [|unfold obj_func_penalty in E; rewrite EX in E; cbn [bind] in E;
      rewrite EA in E; discriminate].
  rewrite (obj_func_penalty_value self x X At EX EA L0 Hpos) in E.
  injection E as <-. unfold E_pen.
  apply Rmult_le_pos; [exact Hpen|apply deviation_sum_nonneg, Hpos].
Qed.

(** X16. For an object constructed with a V x V Laplacian and a
    diagonal V x V inverse mass matrix without negative entries, the
    bending energy of every x of length 3V is defined and not
    negative; with a nonnegative penalty weight and positive rest
    areas the total objective, wherever it is defined, is not negative
    either. *)
Theorem energies_bounded_below (ext : External) (pen ef : R) (m : Mesh) (nu : R)
    (self : problem) (M L Minv : mat) (x : vec) :
  let V := length (vertices m) in
  init ext pen ef m nu = Some self ->
  assemble_lumped_mass ext m = Some M ->
  assemble_laplacian ext m = Some L ->
  sp_inv ext M = Some Minv ->
  has_shape V V L = true ->
  has_shape V V Minv = true ->
  (forall k l, (k < V)%nat -> (l < V)%nat -> k <> l -> entry Minv k l = 0) ->
  (forall k, (k < V)%nat -> 0 <= entry Minv k k) ->
  length x = (3 * V)%nat ->
  (exists eb, obj_func_bending self x = Some eb /\ 0 <= eb) /\
  (0 <= pen -> Forall (fun a0 => 0 < a0) (At0 self) ->
   forall e, obj_func self x = Some e -> 0 <= e).
Proof.
  intros V E EM EL EMinv SL SM Hoff Hdiag Lx.
  destruct (init_inv _ _ _ _ _ _ E)
    as (M' & A0 & L' & Minv' & B & Lap & EM' & EA0 & EL' & EMinv' & EB & _ & Eself).
  assert (M' = M) by congruence. subst M'.
  assert (L' = L) by congruence. subst L'.
  assert (Minv' = Minv) by congruence. subst Minv'.
  destruct (bending_block_product V L Minv SL SM) as (B' & EB' & SB & EntB).
  assert (B' = B) by congruence. subst B'.
  pose proof (has_shape_block_diag3 V B SB) as SH.
  assert (Hh : hess self = block_diag3 B) by (rewrite Eself; reflexivity).
  assert (HA : At0 self = A0) by (rewrite Eself; reflexivity).
  assert (Hm : mesh self = m) by (rewrite Eself; reflexivity).
  assert (Hp : penalty self = pen) by (rewrite Eself; reflexivity).
  assert (Hb : obj_func_bending self x = Some (quad (block_diag3 B) x / 2)).
  { rewrite obj_func_bending_square; rewrite Hh; [reflexivity|]. rewrite Lx. exact SH. }
  assert (Hq : 0 <= quad (block_diag3 B) x / 2).
  { rewrite (quad_block_diag3 V B x SB Lx).
    assert (Hblock : forall a : nat,
              0 <= sum_n V (fun i => sum_n V (fun j =>
                     nth (a * V + i) x 0 * entry B i j * nth (a * V + j) x 0))).
    { intros a.
      rewrite (sum_n_ext V _ (fun i => sum_n V (fun j =>
                 nth (a * V + i) x 0 * bending_block L Minv V i j * nth (a * V + j) x 0))).
      - apply (bending_block_form_nonneg V L Minv (fun i => nth (a * V + i) x 0));
          assumption.
      - intros i Hi. apply sum_n_ext. intros j Hj. rewrite EntB by assumption.
        reflexivity. }
    pose proof (Hblock 0%nat). pose proof (Hblock 1%nat). pose proof (Hblock 2%nat).
    lra. }
  split.
  - eexists. split; [exact Hb|exact Hq].
  - intros Hpen Hpos e Ee. unfold obj_func in Ee. rewrite Hb in Ee. cbn [bind] in Ee.
    destruct (obj_func_penalty self x) as [ep|] eqn:Ep; [|discriminate].
    cbn [bind] in Ee. injection Ee as <-.
    assert (0 <= ep).
    { apply (obj_func_penalty_nonneg self x ep);
        [|exact Hpos|rewrite Hp; exact Hpen|exact Ep].
      rewrite HA, Hm. unfold face_area in EA0.
      apply (mapM_length _ _ _ EA0). }
    lra.
Qed.

Lemma energies_bounded_below_witness :
  (exists eb, obj_func_bending (tetra_problem 1 0) tetra_x = Some eb /\ 0 <= eb) /\
  (forall e, obj_func (tetra_problem 1 0) tetra_x = Some e -> 0 <= e).
Proof.
  assert (Hoff : forall k l, (k < 4)%nat -> (l < 4)%nat -> k <> l ->
                   entry tetra_Minv k l = 0).
  { intros k l Hk Hl Hne.
    destruct k as [|[|[|[|k]]]]; [| | | |lia];
      destruct l as [|[|[|[|l]]]]; try lia; try reflexivity; congruence. }
  assert (Hdiag : forall k, (k < 4)%nat -> 0 <= entry tetra_Minv k k).
  { intros k Hk. destruct k as [|[|[|[|k]]]]; [| | | |lia];
      unfold entry, tetra_Minv; cbn [nth]; lra. }
  destruct (energies_bounded_below tetra_ext 1 0 tetra_mesh default_nu_grad_size
              (tetra_problem 1 0) tetra_M tetra_L tetra_Minv tetra_x
              (tetra_init 1 0) eq_refl eq_refl eq_refl eq_refl eq_refl
              Hoff Hdiag eq_refl) as [Hb Ho].
  split; [exact Hb|].
  apply Ho; [lra|exact tetra_At0_positive].
Defined.
